(** * Neurodriver LPU: index space, delay buffers, port gateway, step engine

    A shallow embedding of [neurokernel/LPU/LPU.py] and the properties of it
    that the specification states.

    - Python dictionaries keyed by neuron id are finite maps; the
      column-oriented entries of [n_dict] and [s_dict] are records of lists;
      [n_dict.items()] and [s_dict.items()] are lists of pairs in the order
      the dictionary yields them.
    - An operation that can raise returns [option] (construction) or a
      result in the monad [Runtime.M] (run time), which also collects the
      events a method emits: log lines, kernel launches, calls into the
      plug-in models, file accesses.
    - [np.argsort] with its default [kind] is a parameter of the
      construction; statements assume of it what numpy promises.
    - Delays, the time step and the contents of device arrays are exact
      rationals; floating-point rounding is not modelled.
    - The model classes are opaque: their constructors and methods are the
      fields of the class [LPU.Plugins].  The base class [Module] and the
      fan-in tables of [__init__] (lines 576-669) are outside the model. *)

From Stdlib Require Import ZArith QArith Qround Lia Lqa Ascii String.
From stdpp Require Import base option list gmap strings sorting.

Local Open Scope Z_scope.

(** ** The numpy operations the constructor relies on *)

Module Numpy.

(** [np.array(..., dtype=np.int32)]: a Python integer stored in 32 bits. *)
Definition int32 (z : Z) : Z := (z + 2 ^ 31) mod 2 ^ 32 - 2 ^ 31.

(** Boolean-mask indexing [a[mask]]; the shapes have to agree. *)
Fixpoint mask_select {A} (a : list A) (mask : list bool) : option (list A) :=
  match a, mask with
  | [], [] => Some []
  | x :: a', b :: mask' =>
      r ← mask_select a' mask';
      Some (if b then x :: r else r)
  | _, _ => None
  end.

(** [for i, id in enumerate(l): d[id] = i], starting from position [i]. *)
Fixpoint enumerate_into (i : nat) (l : list Z) (d : gmap Z nat) : gmap Z nat :=
  match l with
  | [] => d
  | x :: l' => enumerate_into (S i) l' (<[x := i]> d)
  end.

(** [np.max] of an integer array; raises on the empty array. *)
Definition max (l : list Z) : option Z :=
  match l with
  | [] => None
  | x :: l' => Some (foldl Z.max x l')
  end.

(** Integer-array indexing [np.asarray(v)[order]]; a position outside
    [v] raises. *)
Definition reindex {A} (v : list A) (order : list nat) : option (list A) :=
  mapM (λ i, v !! i) order.

(** What numpy promises of [np.argsort(a)] whatever the [kind]: a
    permutation of the positions that lists [a] in ascending order. *)
Definition is_argsort (a : list Z) (o : list nat) : Prop :=
  o ≡ₚ seq 0 (length a) ∧ ∃ b, reindex a o = Some b ∧ Sorted Z.le b.

(** Two sorts that keep that promise.  The first orders equal values by
    position (what [kind='mergesort'] does), the second by position
    backwards (an order the default [kind], which is not stable, is free
    to return). *)
Definition le_stable (x y : Z * nat) : Prop :=
  x.1 < y.1 ∨ (x.1 = y.1 ∧ (x.2 ≤ y.2)%nat).
Definition le_ties_last (x y : Z * nat) : Prop :=
  x.1 < y.1 ∨ (x.1 = y.1 ∧ (y.2 ≤ x.2)%nat).

#[global] Instance le_stable_dec x y : Decision (le_stable x y).
Proof. unfold le_stable. apply _. Defined.
#[global] Instance le_ties_last_dec x y : Decision (le_ties_last x y).
Proof. unfold le_ties_last. apply _. Defined.

Definition argsort_stable (a : list Z) : list nat :=
  (merge_sort le_stable (zip a (seq 0 (length a)))).*2.

(** Ties keep their original relative order under the permutation [o]. *)
Definition ties_preserved (a : list Z) (o : list nat) : Prop :=
  ∀ p q i j v, (p < q)%nat → o !! p = Some i → o !! q = Some j →
    a !! i = Some v → a !! j = Some v → (i < j)%nat.

End Numpy.

(** ** IndexSpace: from neuron ids to packed positions *)

Module IndexSpace.

(** One entry of [n_dict]: the attribute columns of a neuron model. *)
Record n_model := {
  ids : list Z;
  spiking : list bool;
  public : list bool;
  extern : list bool;
  selector : list string
}.

(** [self.n_list = n_dict.items()] *)
Definition n_list := list (string * n_model).

Definition n_id (nl : n_list) : list Z :=
  Numpy.int32 <$> concat ((λ p, ids p.2) <$> nl).
Definition n_is_spk (nl : n_list) : list bool := concat ((λ p, spiking p.2) <$> nl).
Definition n_is_pub (nl : n_list) : list bool := concat ((λ p, public p.2) <$> nl).
Definition n_has_in (nl : n_list) : list bool := concat ((λ p, extern p.2) <$> nl).

(** The three dictionaries built at lines 474-493, with the arrays they are
    built from. *)
Record index_space := {
  gpot_idx : list Z;
  spike_idx : list Z;
  idx : list Z;
  order_dict : gmap Z nat;
  gpot_order_dict : gmap Z nat;
  spike_order_dict : gmap Z nat
}.

Definition build_index (nl : n_list) : option index_space :=
  g ← Numpy.mask_select (n_id nl) (negb <$> n_is_spk nl);
  s ← Numpy.mask_select (n_id nl) (n_is_spk nl);
  Some {| gpot_idx := g;
          spike_idx := s;
          idx := g ++ s;
          order_dict := Numpy.enumerate_into 0 (g ++ s) ∅;
          gpot_order_dict := Numpy.enumerate_into 0 g ∅;
          spike_order_dict := Numpy.enumerate_into 0 s ∅ |}.

(** [order], [gpot_order], [spike_order] on one id: a missing key raises. *)
Definition order (sp : index_space) (ind : Z) : option nat := order_dict sp !! ind.
Definition gpot_order (sp : index_space) (ind : Z) : option nat := gpot_order_dict sp !! ind.
Definition spike_order (sp : index_space) (ind : Z) : option nat := spike_order_dict sp !! ind.

(** The same on an array of ids (the [except] branch of the methods). *)
Definition order_arr (sp : index_space) (ind : list Z) : option (list nat) :=
  mapM (order sp) ind.
Definition gpot_order_arr (sp : index_space) (ind : list Z) : option (list nat) :=
  mapM (gpot_order sp) ind.
Definition spike_order_arr (sp : index_space) (ind : list Z) : option (list nat) :=
  mapM (spike_order sp) ind.

(** Every model carries columns of one length. *)
Definition columns_ok (m : n_model) : Prop :=
  length (spiking m) = length (ids m) ∧
  length (public m) = length (ids m) ∧
  length (extern m) = length (ids m).

Definition ascending (l : list Z) : Prop := Sorted Z.le l.

(** All ids of the unit as the input gives them, model after model. *)
Definition all_ids (nl : n_list) : list Z := concat ((λ p, ids p.2) <$> nl).

(** An input the constructor is meant for: columns of one length, ids
    that fit the 32-bit array and are unique within the unit. *)
Definition valid_input (nl : n_list) : Prop :=
  Forall (λ p, columns_ok p.2) nl ∧
  Forall (λ z, - 2 ^ 31 ≤ z < 2 ^ 31) (all_ids nl) ∧
  NoDup (all_ids nl).

(** The ids of one model with spiking flag [flag], in column order. *)
Definition model_block (flag : bool) (m : n_model) : list Z :=
  (filter (λ r : Z * bool, r.2 = flag) (zip (ids m) (spiking m))).*1.

(** A dictionary [d] numbers the entries of [l]: ids to positions
    [0 .. length l - 1] and back. *)
Definition numbers (d : gmap Z nat) (l : list Z) : Prop :=
  ∀ id i, d !! id = Some i ↔ l !! i = Some id.

(** The layout as the specification words it: the numbering is a
    bijection, graded ids come first, and each block is ascending. *)
Definition claimed_layout (sp : index_space) : Prop :=
  numbers (order_dict sp) (idx sp) ∧
  idx sp = gpot_idx sp ++ spike_idx sp ∧
  ascending (gpot_idx sp) ∧ ascending (spike_idx sp).

(** The number of neurons flagged [extern]. *)
Definition num_extern (nl : n_list) : nat :=
  length (filter (λ b, b = true) (n_has_in nl)).

(** [self.nid_max = np.max(n_id) + 1] *)
Definition nid_max (nl : n_list) : option Z := (λ m, m + 1) <$> Numpy.max (n_id nl).

(** [in_id = n_id[n_has_in]; in_id.sort(); self.order(in_id)] *)
Definition input_neuron_list (nl : n_list) (sp : index_space) : option (list nat) :=
  in_id ← Numpy.mask_select (n_id nl) (n_has_in nl);
  order_arr sp (merge_sort Z.le in_id).

End IndexSpace.

(** ** GraphCompiler: the neuron half of [graph_to_dicts] *)

Module GraphCompiler.
Import IndexSpace.

Definition PORT_IN_GPOT : string := "port_in_gpot".
Definition PORT_IN_SPK : string := "port_in_spk".

(** A graph node that is a neuron: its key (already an integer) and the
    attributes the constructor reads.  [public] and [selector] may be
    missing from the node. *)
Record node := {
  node_id : Z;
  node_model : string;
  node_spiking : bool;
  node_public : option bool;
  node_extern : bool;
  node_selector : option string
}.

(** [neuron_cmp] on keys that convert to integers. *)
Definition neuron_le (x y : node) : Prop := node_id x ≤ node_id y.
#[global] Instance neuron_le_dec x y : Decision (neuron_le x y) := Z_le_dec _ _.

(** The per-node normalisation of lines 160-177; an assertion that fails
    gives [None]. *)
Definition normalise (neu : node) : option node :=
  let is_port :=
    bool_decide (node_model neu = PORT_IN_GPOT ∨ node_model neu = PORT_IN_SPK) in
  if is_port && bool_decide (node_selector neu = None) then None else
  let spk := if bool_decide (node_model neu = PORT_IN_GPOT) then false
             else if bool_decide (node_model neu = PORT_IN_SPK) then true
             else node_spiking neu in
  let pub := if is_port then Some false else node_public neu in
  if bool_decide (pub = Some true) && bool_decide (node_selector neu = None) then None else
  Some {| node_id := node_id neu;
          node_model := node_model neu;
          node_spiking := spk;
          node_public := Some (default false pub);
          node_extern := node_extern neu;
          node_selector := Some (default EmptyString (node_selector neu)) |}.

Definition new_columns (neu : node) : n_model :=
  {| ids := [node_id neu];
     spiking := [node_spiking neu];
     public := [default false (node_public neu)];
     extern := [node_extern neu];
     selector := [default EmptyString (node_selector neu)] |}.

Definition append_columns (m : n_model) (neu : node) : n_model :=
  {| ids := ids m ++ [node_id neu];
     spiking := spiking m ++ [node_spiking neu];
     public := public m ++ [default false (node_public neu)];
     extern := extern m ++ [node_extern neu];
     selector := selector m ++ [default EmptyString (node_selector neu)] |}.

(** [n_dict[model][key].append(...)], creating the entry of a new model.
    The dictionary is kept as an association list in insertion order. *)
Fixpoint add_neuron (d : n_list) (neu : node) : n_list :=
  match d with
  | [] => [(node_model neu, new_columns neu)]
  | (k, m) :: d' =>
      if decide (k = node_model neu) then (k, append_columns m neu) :: d'
      else (k, m) :: add_neuron d' neu
  end.

Definition graph_to_dicts_neurons (nodes : list node) : option n_list :=
  ns ← mapM normalise (merge_sort neuron_le nodes);
  Some (foldl add_neuron [] ns).

End GraphCompiler.

(** ** Synapse resolution, ordering and delay sizing (lines 512-575, 671-672) *)

Module Synapses.
Import IndexSpace.

(** A [post] entry is a neuron id or the key ["synapse-<sid>"] of another
    synapse; [int(nid[8:])] of the latter is [sid]. *)
Inductive post_target :=
| PostNeuron (nid : Z)
| PostSynapse (sid : Z).

(** One entry of [s_dict].  [reverse] and [delay] are columns a model may
    lack. *)
Record s_model := {
  s_ids : list Z;
  class : list Z;
  pre : list Z;
  post : list post_target;
  conductance : list bool;
  reverse : option (list Q);
  delay : option (list Q)
}.

Definition s_list := list (string * s_model).

(** The same entry once [pre] and [post] hold packed positions. *)
Record s_resolved := {
  r_ids : list Z;
  r_class : list Z;
  r_pre : list nat;
  r_post : list Z;
  r_conductance : list bool;
  r_reverse : option (list Q);
  r_delay : option (list Q)
}.

Definition neuron_targets (p : list post_target) : list Z :=
  omap (λ t, match t with PostNeuron n => Some n | PostSynapse _ => None end) p.
Definition synapse_targets (p : list post_target) : list Z :=
  omap (λ t, match t with PostSynapse k => Some k | PostNeuron _ => None end) p.

(** [s_neu_post] and [s_syn_post], lines 536-537. *)
Definition s_neu_post (sp : index_space) (p : list post_target) : option (list Z) :=
  mapM (λ nid, Z.of_nat <$> order sp nid) (neuron_targets p).
Definition s_syn_post (nid_max : Z) (p : list post_target) : list Z :=
  (λ sid, sid + nid_max) <$> synapse_targets p.

Abbreviation reindex := Numpy.reindex.
Abbreviation is_argsort := Numpy.is_argsort.

Definition resolve_pre (sp : index_space) (cls : Z) (nid : Z) : option nat :=
  if decide (cls ≤ 1) then spike_order sp nid else gpot_order sp nid.

Definition reindex_opt {A} (v : option (list A)) (order : list nat)
  : option (option (list A)) :=
  match v with
  | None => Some None
  | Some c => Some <$> reindex c order
  end.

(** Python 2 [round]: to the nearest integer, halves away from zero. *)
Definition py_round (q : Q) : Z :=
  if Qle_bool 0%Q q then Qfloor (q + (1 # 2))%Q else - Qfloor (- q + (1 # 2))%Q.

Definition Qmax (a b : Q) : Q := if Qle_bool a b then b else a.

(** [np.max] of a non-empty array of delays. *)
Definition np_max (l : list Q) : option Q :=
  match l with
  | [] => None
  | x :: l' => Some (foldl Qmax x l')
  end.

(** [np.where(mask)[0]] *)
Fixpoint where_from (i : nat) (mask : list bool) : list nat :=
  match mask with
  | [] => []
  | b :: m => if b then i :: where_from (S i) m else where_from (S i) m
  end.
Definition np_where (mask : list bool) : list nat := where_from 0 mask.

(** [range(a, a + n)] *)
Definition range (a n : nat) : list nat := seq a n.

(** The accumulators of the loop over [self.s_list]. *)
Record acc := {
  cond_pre : list nat;
  cond_post : list Z;
  reverse_acc : list Q;
  I_pre : list nat;
  I_post : list Z;
  count : nat;
  gpot_delay_steps : Q;
  spike_delay_steps : Q
}.

Definition acc0 : acc :=
  {| cond_pre := []; cond_post := []; reverse_acc := [];
     I_pre := []; I_post := []; count := 0%nat;
     gpot_delay_steps := 0%Q; spike_delay_steps := 0%Q |}.

(** [max_del if max_del > cur else cur] *)
Definition raise_to (cur max_del : Q) : Q :=
  if Qle_bool max_del cur then cur else max_del.

(** The delay update inside each branch: nothing without a [delay] column. *)
Definition delay_update (s : s_resolved) (ix : list nat) (cur : Q) : option Q :=
  match r_delay s with
  | None => Some cur
  | Some d =>
      sel ← reindex d ix;
      m ← np_max sel;
      Some (raise_to cur m)
  end.

(** Lines 550-555 and 557-561: the conductance-based synapses of a model. *)
Definition accumulate_cond (a : acc) (s : s_resolved) : option acc :=
  let ix := np_where (r_conductance s) in
  if decide (0 < length ix)%nat then
    p ← reindex (r_post s) ix;
    rv ← r_reverse s;
    r ← reindex rv ix;
    g ← delay_update s ix (gpot_delay_steps a);
    Some {| cond_pre := cond_pre a ++ range (count a) (length ix);
            cond_post := cond_post a ++ p;
            reverse_acc := reverse_acc a ++ r;
            I_pre := I_pre a; I_post := I_post a;
            count := (count a + length ix)%nat;
            gpot_delay_steps := g;
            spike_delay_steps := spike_delay_steps a |}
  else Some a.

(** Lines 563-573: the current-based synapses; [count] grows by the size
    of the whole [post] column here. *)
Definition accumulate_I (a : acc) (s : s_resolved) : option acc :=
  let ix := np_where (negb <$> r_conductance s) in
  if decide (0 < length ix)%nat then
    p ← reindex (r_post s) ix;
    sd ← delay_update s ix (spike_delay_steps a);
    Some {| cond_pre := cond_pre a; cond_post := cond_post a;
            reverse_acc := reverse_acc a;
            I_pre := I_pre a ++ range (count a) (length p);
            I_post := I_post a ++ p;
            count := (count a + length (r_post s))%nat;
            gpot_delay_steps := gpot_delay_steps a;
            spike_delay_steps := sd |}
  else Some a.

Section Compile.
(** [np.argsort] with the default [kind]. *)
Variable argsort : list Z → list nat.

(** Lines 528-542 for one model. *)
Definition resolve_model (sp : index_space) (nid_max : Z) (s : s_model)
  : option s_resolved :=
  cls ← head (class s);
  pre' ← mapM (resolve_pre sp cls) (pre s);
  neu ← s_neu_post sp (post s);
  let post' := neu ++ s_syn_post nid_max (post s) in
  let o := argsort post' in
  i' ← reindex (s_ids s) o;
  c' ← reindex (class s) o;
  pr' ← reindex pre' o;
  po' ← reindex post' o;
  cd' ← reindex (conductance s) o;
  rv' ← reindex_opt (reverse s) o;
  dl' ← reindex_opt (delay s) o;
  Some {| r_ids := i'; r_class := c'; r_pre := pr'; r_post := po';
          r_conductance := cd'; r_reverse := rv'; r_delay := dl' |}.

(** One turn of the loop at line 527. *)
Definition loop_body (sp : index_space) (nid_max : Z)
    (st : list (string * s_resolved) * acc) (e : string * s_model)
  : option (list (string * s_resolved) * acc) :=
  r ← resolve_model sp nid_max e.2;
  a1 ← accumulate_cond st.2 r;
  a2 ← accumulate_I a1 r;
  Some (st.1 ++ [(e.1, r)], a2).

Fixpoint loop (sp : index_space) (nid_max : Z) (sl : s_list)
    (st : list (string * s_resolved) * acc)
  : option (list (string * s_resolved) * acc) :=
  match sl with
  | [] => Some st
  | e :: sl' => st' ← loop_body sp nid_max st e; loop sp nid_max sl' st'
  end.

Definition compile_synapses (sp : index_space) (nid_max : Z) (sl : s_list)
  : option (list (string * s_resolved) * acc) :=
  loop sp nid_max sl ([], acc0).

End Compile.

(** [num_synapses] and [self.total_synapses], lines 526 and 575. *)
Definition num_synapses (sl : s_list) : list nat := (λ e, length (s_ids e.2)) <$> sl.
Definition total_synapses (sl : s_list) : nat := foldr Nat.add 0%nat (num_synapses sl).

(** Lines 671-672: [int(round(steps * 1e-3 / dt)) + 1], on exact rationals
    ([dt = 0] raises and is refused by the constructor below). *)
Definition delay_depth (dt : Q) (steps : Q) : Z :=
  py_round (steps * (1 # 1000) / dt)%Q + 1.

(** The columns of a synapse model agree in length. *)
Definition s_columns_ok (s : s_model) : Prop :=
  length (conductance s) = length (post s) ∧
  match delay s with Some d => length d = length (post s) | None => True end.

(** [synapse_cmp] on the targets of two edges, as an order: neuron
    targets come before synapse targets, each kind by its number. *)
Definition synapse_le (x y : post_target) : Prop :=
  match x, y with
  | PostNeuron a, PostNeuron b => a ≤ b
  | PostNeuron _, PostSynapse _ => True
  | PostSynapse _, PostNeuron _ => False
  | PostSynapse a, PostSynapse b => a ≤ b
  end.

(** The post column lists neuron targets before synapse targets, as it
    does when [graph_to_dicts] has sorted the edges with [synapse_cmp]. *)
Definition targets_partitioned (p : list post_target) : Prop :=
  ∃ ns ss, p = (PostNeuron <$> ns) ++ (PostSynapse <$> ss).

(** The columns of a model once [pre] and [post] are resolved, before
    they are reordered. *)
Definition resolved_columns (sp : index_space) (nid_max : Z) (s : s_model)
    (pre' : list nat) (post' : list Z) : Prop :=
  ∃ cls neu,
    head (class s) = Some cls ∧
    mapM (resolve_pre sp cls) (pre s) = Some pre' ∧
    s_neu_post sp (post s) = Some neu ∧
    post' = neu ++ s_syn_post nid_max (post s).

(** Every column of [r] is the column of [s] read in the order [o]. *)
Definition reordered_by (o : list nat) (s : s_model) (pre' : list nat)
    (post' : list Z) (r : s_resolved) : Prop :=
  reindex (s_ids s) o = Some (r_ids r) ∧
  reindex (class s) o = Some (r_class r) ∧
  reindex pre' o = Some (r_pre r) ∧
  reindex post' o = Some (r_post r) ∧
  reindex (conductance s) o = Some (r_conductance r) ∧
  reindex_opt (reverse s) o = Some (r_reverse r) ∧
  reindex_opt (delay s) o = Some (r_delay r).







End Synapses.

(** ** Exceptions, events and the monad of the run-time methods *)

Module Runtime.

Inductive exn :=
| AssertionError
| AttributeError
| IndexError
| KeyError
| ValueError.

(** What a method does besides changing the unit: log lines, kernel
    launches, calls into the plug-in models, file accesses. *)
Inductive event :=
| Log (msg : string)
| KernelSetInds (n : nat)
| KernelExtract (n : nat)
| NeuronUpdateI (k : nat)
| NeuronEval (k : nat)
| SynapseUpdateI (k : nat)
| SynapseUpdateState (k : nat)
| BufferWrite
| BufferStep
| FileRead (start stop : nat)
| DatasetAppend (name : string).

#[global] Instance event_eq_dec : EqDecision event.
Proof. solve_decision. Defined.

(** A method either raises or returns a value and the events it emitted. *)
Definition M (A : Type) : Type := exn + (A * list event).

Definition ret {A} (x : A) : M A := inr (x, []).
Definition raise {A} (e : exn) : M A := inl e.
Definition emit (ev : event) : M unit := inr (tt, [ev]).
Definition bind {A B} (m : M A) (k : A → M B) : M B :=
  match m with
  | inl e => inl e
  | inr (x, evs) =>
      match k x with
      | inl e => inl e
      | inr (y, evs') => inr (y, evs ++ evs')
      end
  end.


End Runtime.

Notation "x <- m ;; k" := (Runtime.bind m (λ x, k))
  (at level 100, m at next level, right associativity).
Notation "m ;;; k" := (Runtime.bind m (λ _, k))
  (at level 100, right associativity).

(** ** DelayBuffer: the class [CircularArray] *)

Module CircularArray.

(** [gpot_current] and [spike_current] exist only when there are neurons
    of the kind; the buffers are lists of rows. *)
Record t := {
  num_gpot_neurons : Z;
  gpot_delay_steps : Z;
  gpot_buffer : list (list Q);
  gpot_current : option Z;
  num_spike_neurons : Z;
  spike_delay_steps : Z;
  spike_buffer : list (list Q);
  spike_current : option Z
}.

(** [__init__]: the graded buffer holds [rest] in every row, the spike
    buffer zeros. *)
Definition init (num_gpot : Z) (gpot_delay : Z) (rest : list Q)
    (num_spike : Z) (spike_delay : Z) : t :=
  {| num_gpot_neurons := num_gpot;
     gpot_delay_steps := gpot_delay;
     gpot_buffer :=
       if decide (0 < num_gpot)
       then replicate (Z.to_nat gpot_delay) (take (Z.to_nat num_gpot) rest) else [];
     gpot_current := if decide (0 < num_gpot) then Some 0 else None;
     num_spike_neurons := num_spike;
     spike_delay_steps := spike_delay;
     spike_buffer :=
       if decide (0 < num_spike)
       then replicate (Z.to_nat spike_delay) (replicate (Z.to_nat num_spike) 0%Q) else [];
     spike_current := if decide (0 < num_spike) then Some 0 else None |}.

(** [cur += 1; if cur >= steps: cur = 0] *)
Definition advance (steps cur : Z) : Z :=
  if decide (steps ≤ cur + 1) then 0 else cur + 1.

Definition step (b : t) : t :=
  {| num_gpot_neurons := num_gpot_neurons b;
     gpot_delay_steps := gpot_delay_steps b;
     gpot_buffer := gpot_buffer b;
     gpot_current :=
       if decide (0 < num_gpot_neurons b)
       then advance (gpot_delay_steps b) <$> gpot_current b else gpot_current b;
     num_spike_neurons := num_spike_neurons b;
     spike_delay_steps := spike_delay_steps b;
     spike_buffer := spike_buffer b;
     spike_current :=
       if decide (0 < num_spike_neurons b)
       then advance (spike_delay_steps b) <$> spike_current b else spike_current b |}.

(** The two state kinds and the fields that belong to each. *)
Inductive kind := Gpot | Spike.

Definition count (k : kind) (b : t) : Z :=
  match k with Gpot => num_gpot_neurons b | Spike => num_spike_neurons b end.
Definition depth (k : kind) (b : t) : Z :=
  match k with Gpot => gpot_delay_steps b | Spike => spike_delay_steps b end.
Definition cursor (k : kind) (b : t) : option Z :=
  match k with Gpot => gpot_current b | Spike => spike_current b end.

(** [LPU._update_buffer]: the current state goes into the row under the
    cursor. *)
Definition write_row (buf : list (list Q)) (cur : option Z) (row : list Q)
  : list (list Q) :=
  match cur with
  | Some c => <[Z.to_nat c := row]> buf
  | None => buf
  end.

End CircularArray.

(** ** ExternalInputFeeder: [_read_external_input] and its set-up *)

Module Feeder.
Import Runtime.

(** The dataset ['/array'] of the input file: [frame x channel]. *)
Record h5array := { ncols : nat; frames : list (list Q) }.

Definition shape0 (a : h5array) : nat := length (frames a).

(** [array[lo:hi]] *)
Definition slice (a : h5array) (lo hi : nat) : list (list Q) :=
  take (hi - lo) (drop lo (frames a)).

Record t := {
  one_time_import : nat;
  input_h5file : h5array;
  input_eof : bool;
  file_pointer : nat;
  frame_count : nat;
  frames_in_buffer : nat;
  I_ext : list (list Q)
}.

(** The part of [_init_objects] run when an input file is given. *)
Definition open (w : nat) (file : h5array) : M t :=
  emit (FileRead 0 w);;;
  ret {| one_time_import := w;
         input_h5file := file;
         input_eof := false;
         file_pointer := w;
         frame_count := 0;
         frames_in_buffer := w;
         I_ext := slice file 0 w |}.

(** The device copy of one frame into the tail of [synapse_state]; a frame
    index past the window reads memory the model does not describe and
    leaves the array as it is. *)
Definition copy_frame (f : t) (total_synapses num_input : nat)
    (synapse_state : list Q) : list Q :=
  match I_ext f !! frame_count f with
  | Some row => list_inserts total_synapses (take num_input row) synapse_state
  | None => synapse_state
  end.

Definition with_frame_count (f : t) (n : nat) : t :=
  {| one_time_import := one_time_import f; input_h5file := input_h5file f;
     input_eof := input_eof f; file_pointer := file_pointer f;
     frame_count := n; frames_in_buffer := frames_in_buffer f;
     I_ext := I_ext f |}.

Definition with_eof (f : t) : t :=
  {| one_time_import := one_time_import f; input_h5file := input_h5file f;
     input_eof := true; file_pointer := file_pointer f;
     frame_count := frame_count f; frames_in_buffer := frames_in_buffer f;
     I_ext := I_ext f |}.

(** Lines 967-987: replenish the window once it has been read through. *)
Definition refill (f : t) : M t :=
  if bool_decide (one_time_import f ≤ frame_count f)%nat && negb (input_eof f) then
    let input_ld := shape0 (input_h5file f) in
    let w := one_time_import f in
    let hi := if decide (Z.of_nat input_ld - Z.of_nat (file_pointer f) < Z.of_nat w)
              then input_ld else (file_pointer f + w)%nat in
    let h_ext := slice (input_h5file f) (file_pointer f) hi in
    emit (FileRead (file_pointer f) hi);;;
    let f' :=
      if decide (length h_ext = length (I_ext f)) then
        {| one_time_import := w; input_h5file := input_h5file f;
           input_eof := input_eof f;
           file_pointer := (file_pointer f + w)%nat;
           frame_count := 0;
           frames_in_buffer := frames_in_buffer f;
           I_ext := h_ext |}
      else
        {| one_time_import := w; input_h5file := input_h5file f;
           input_eof := input_eof f;
           file_pointer := input_ld;
           frame_count := frame_count f;
           frames_in_buffer := length h_ext;
           I_ext := h_ext ++ replicate (w - length h_ext)
                               (replicate (ncols (input_h5file f)) 0%Q) |} in
    ret (if decide (file_pointer f' = input_ld) then with_eof f' else f')
  else ret f.

(** [_read_external_input] on the feeder state and [synapse_state]. *)
Definition read_external_input (total_synapses num_input : nat)
    (st : t * list Q) : M (t * list Q) :=
  let '(f, ss) := st in
  st1 <- (if negb (input_eof f) || bool_decide (frame_count f < frames_in_buffer f)%nat
          then ret (with_frame_count f (S (frame_count f)),
                    copy_frame f total_synapses num_input ss)
          else emit (Log "Input end of file reached. Subsequent behaviour is undefined.");;;
               ret (f, ss));;
  f' <- refill st1.1;;
  ret (f', st1.2).

(** [n] calls in a row. *)
Fixpoint read_n (n : nat) (total_synapses num_input : nat) (st : t * list Q)
  : M (t * list Q) :=
  match n with
  | O => ret st
  | S n' =>
      st' <- read_external_input total_synapses num_input st;;
      read_n n' total_synapses num_input st'
  end.

Definition is_file_read (ev : event) : bool :=
  match ev with FileRead _ _ => true | _ => false end.

End Feeder.

(** ** PortGateway: [set_inds] and the extract-projection kernel *)

Module Gateway.
Import Runtime.

Inductive dtype := float64 | float32 | int32 | int64.

#[global] Instance dtype_eq_dec : EqDecision dtype.
Proof. solve_decision. Defined.

(** A device array: its element type and its elements. *)
Record gpuarray := { dtype_of : dtype; data : list Q }.

(** [garray.zeros(n, dtype)] *)
Definition zeros (n : nat) (d : dtype) : gpuarray :=
  {| dtype_of := d; data := replicate n 0%Q |}.

(** The element-wise kernel [dest[i + dest_shift] = src[inds[i]]] over
    [range(len(inds))]; accesses outside an array are left out. *)
Fixpoint gather_from (i : nat) (src dest : list Q) (inds : list nat) (dest_shift : nat)
  : list Q :=
  match inds with
  | [] => dest
  | k :: inds' =>
      let dest' := match src !! k with
                   | Some v => <[(i + dest_shift)%nat := v]> dest
                   | None => dest
                   end in
      gather_from (S i) src dest' inds' dest_shift
  end.

Definition set_inds (src dest : gpuarray) (inds : list nat) (dest_shift : nat)
  : M gpuarray :=
  if decide (dtype_of src = dtype_of dest) then
    emit (KernelSetInds (length inds));;;
    ret {| dtype_of := dtype_of dest;
           data := gather_from 0 (data src) (data dest) inds dest_shift |}
  else raise AssertionError.

(** The kernel [extract_projection]:
    [projection_V[projection_index[i]] = all_V[all_index[i]]] for [i < N]. *)
Fixpoint scatter (all_V projection_V : list Q) (all_index projection_index : list nat)
    (n : nat) : list Q :=
  match n, all_index, projection_index with
  | S n', a :: ai, p :: pi =>
      let pv := match all_V !! a with
                | Some v => <[p := v]> projection_V
                | None => projection_V
                end in
      scatter all_V pv ai pi n'
  | _, _, _ => projection_V
  end.

(** One [prepared_async_call] of the function made by
    [_extract_projection_func(state_var)]: the kernel is compiled for the
    element type of [state_var] and receives the raw address of the
    destination, whose element type is not looked at. *)
Definition extract_projection (state_var projection : gpuarray)
    (all_index projection_index : list nat) (n : nat) : M gpuarray :=
  emit (KernelExtract n);;;
  ret {| dtype_of := dtype_of projection;
         data := scatter (data state_var) (data projection)
                   all_index projection_index n |}.


End Gateway.

(** ** Python helpers used when model classes are looked up *)

Module Python.

Definition is_space (c : ascii) : bool :=
  let n := nat_of_ascii c in
  bool_decide (n = 32 ∨ (9 ≤ n ∧ n ≤ 13))%nat.

Definition digit_val (c : ascii) : option Z :=
  let n := nat_of_ascii c in
  if bool_decide (48 ≤ n ∧ n ≤ 57)%nat then Some (Z.of_nat (n - 48)) else None.

Fixpoint lstrip (s : list ascii) : list ascii :=
  match s with
  | c :: s' => if is_space c then lstrip s' else s
  | [] => []
  end.

Definition strip (s : list ascii) : list ascii := rev (lstrip (rev (lstrip s))).

Fixpoint digits (acc : Z) (s : list ascii) : option Z :=
  match s with
  | [] => Some acc
  | c :: s' => d ← digit_val c; digits (10 * acc + d) s'
  end.

(** [int(t)] on a string: blanks around, an optional sign, decimal
    digits; [None] stands for [ValueError]. *)
Definition int (t : string) : option Z :=
  match strip (list_ascii_of_string t) with
  | [] => None
  | c :: ds =>
      if Ascii.eqb c "+" then (match ds with [] => None | _ => digits 0 ds end)
      else if Ascii.eqb c "-" then
        (match ds with [] => None | _ => Z.opp <$> digits 0 ds end)
      else digits 0 (c :: ds)
  end.

(** [names.index(t)] *)
Fixpoint index_from (i : nat) (names : list string) (t : string) : option nat :=
  match names with
  | [] => None
  | x :: names' => if decide (x = t) then Some i else index_from (S i) names' t
  end.
Definition index (names : list string) (t : string) : option nat := index_from 0 names t.

(** [l[i]] for a Python integer: negative positions count from the end. *)
Definition getitem {A} (l : list A) (i : Z) : option A :=
  if decide (0 ≤ i) then l !! Z.to_nat i
  else if decide (- Z.of_nat (length l) ≤ i) then l !! Z.to_nat (Z.of_nat (length l) + i)
  else None.

End Python.

(** ** The unit: construction, [pre_run] and [run_step] *)

Module LPU.
Import Runtime Gateway IndexSpace Synapses.

(** The index arrays [pm[...].ports_to_inds(...)] of the base class. *)
Record port_inds := {
  sel_in_gpot_ids : list nat;
  sel_out_gpot_ids : list nat;
  sel_in_spk_ids : list nat;
  sel_out_spk_ids : list nat
}.

(** What [__init__] leaves in the object.  The fan-in tables of lines
    576-669 are not part of the model. *)
Record config := {
  dt : Q;
  debug : bool;
  output : bool;
  input_file : option Feeder.h5array;
  one_time_import : nat;
  n_list_of : n_list;
  s_list_of : list (string * s_resolved);
  space : index_space;
  total_num_gpot_neurons : nat;
  total_num_spike_neurons : nat;
  input_neuron_list : list nat;
  num_input : nat;
  total_synapses : nat;
  out_ports_ids_gpot : list nat;
  out_ports_ids_spk : list nat;
  num_public_gpot : nat;
  num_public_spike : nat;
  ports_in_gpot_mem_ind : option nat;
  ports_in_spk_mem_ind : option nat;
  idx_start_gpot : list nat;
  idx_start_spike : list nat;
  idx_start_synapse : list nat;
  gpot_delay_steps : Z;
  spike_delay_steps : Z;
  ports : port_inds
}.

(** [np.cumsum] with a leading zero. *)
Fixpoint cumsum_from (s : nat) (l : list nat) : list nat :=
  match l with
  | [] => []
  | x :: l' => (s + x)%nat :: cumsum_from (s + x) l'
  end.
Definition idx_start (l : list nat) : list nat := 0%nat :: cumsum_from 0 l.

(** [np.array([id for _, n in n_list for id, pub, spk in zip(...)
    if pub and (not) spk], dtype=np.int32)] *)
Definition public_ids (want_spk : bool) (nl : n_list) : list Z :=
  concat ((λ e : string * n_model,
             (λ r : Z * (bool * bool), Numpy.int32 r.1) <$>
             filter (λ r : Z * (bool * bool),
                       r.2.1 = true ∧ r.2.2 = want_spk)
                    (zip (ids e.2) (zip (public e.2) (spiking e.2)))) <$> nl).

Definition model_names {A} (l : list (string * A)) : list string := fst <$> l.

Section Construct.
Variable argsort : list Z → list nat.

Definition init (dt0 : Q) (nl : n_list) (sl : s_list)
    (input : option Feeder.h5array) (out dbg : bool) (pinds : port_inds)
  : option config :=
  n_model_is_spk ← mapM (λ e : string * n_model, head (spiking e.2)) nl;
  let n_model_num := (λ e : string * n_model, length (ids e.2)) <$> nl in
  let num_gpot := zip_with (λ (b : bool) n, if b then 0%nat else n) n_model_is_spk n_model_num in
  let num_spike := zip_with (λ (b : bool) n, if b then n else 0%nat) n_model_is_spk n_model_num in
  sp ← build_index nl;
  inl ← IndexSpace.input_neuron_list nl sp;
  og ← gpot_order_arr sp (public_ids false nl);
  os ← spike_order_arr sp (public_ids true nl);
  nmax ← nid_max nl;
  '(rs, a) ← compile_synapses argsort sp nmax sl;
  if Qeq_bool dt0 0 then None else
  Some {| dt := dt0; debug := dbg; output := out; input_file := input;
          one_time_import := 10;
          n_list_of := nl; s_list_of := rs; space := sp;
          total_num_gpot_neurons := foldr Nat.add 0%nat num_gpot;
          total_num_spike_neurons := foldr Nat.add 0%nat num_spike;
          input_neuron_list := inl;
          num_input := length inl;
          total_synapses := Synapses.total_synapses sl;
          out_ports_ids_gpot := og;
          out_ports_ids_spk := os;
          num_public_gpot := length (public_ids false nl);
          num_public_spike := length (public_ids true nl);
          ports_in_gpot_mem_ind :=
            Python.index (model_names nl) GraphCompiler.PORT_IN_GPOT;
          ports_in_spk_mem_ind :=
            Python.index (model_names nl) GraphCompiler.PORT_IN_SPK;
          idx_start_gpot := idx_start num_gpot;
          idx_start_spike := idx_start num_spike;
          idx_start_synapse := idx_start (num_synapses sl);
          gpot_delay_steps := delay_depth dt0 (Synapses.gpot_delay_steps a);
          spike_delay_steps := delay_depth dt0 (Synapses.spike_delay_steps a);
          ports := pinds |}.
End Construct.


(** Device memory owned by the unit.  [V] is [None] and [spike_state] is
    not set when there is no neuron of the kind. *)
Record memory := {
  V : option gpuarray;
  spike_state : option gpuarray;
  synapse_state : gpuarray
}.

(** [_initialize_gpu_ds], the arrays. *)
Definition initialize_gpu_ds (c : config) : memory :=
  {| synapse_state :=
       zeros (Nat.max (total_synapses c + length (input_neuron_list c)) 1) float64;
     V := if decide (0 < total_num_gpot_neurons c)%nat
          then Some (zeros (total_num_gpot_neurons c) float64) else None;
     spike_state := if decide (0 < total_num_spike_neurons c)%nat
                    then Some (zeros (total_num_spike_neurons c) int32) else None |}.

(** Instances of the model classes, as far as the unit sees them. *)
Record neuron_obj := {
  n_class : nat;
  n_params : n_model;
  n_offset : nat
}.
Record synapse_obj := {
  s_class : nat;
  s_params : s_resolved;
  s_offset : nat
}.

(** The registered model classes ([BaseNeuron.__subclasses__()],
    [BaseSynapse.__subclasses__()]) and what their methods do to the
    device memory. *)
Class Plugins := {
  neuron_names : list string;
  synapse_names : list string;
  update_I_override : nat → bool;
  neuron_new : neuron_obj → memory → memory;
  neuron_update_I : neuron_obj → memory → memory;
  neuron_eval : neuron_obj → memory → memory;
  synapse_new : synapse_obj → memory → memory;
  synapse_has_update_I : nat → bool;
  synapse_update_I : synapse_obj → memory → memory;
  synapse_update_state : synapse_obj → CircularArray.t → memory → memory
}.

(** The unit while it runs. *)
Record lpu := {
  cfg : config;
  mem : memory;
  pm_gpot : gpuarray;
  pm_spike : gpuarray;
  neurons : list (option neuron_obj);
  synapses : list (option synapse_obj);
  buffer : CircularArray.t;
  feeder : option Feeder.t;
  first_step : bool
}.

Definition attr {A} (o : option A) : M A :=
  match o with Some x => ret x | None => raise AttributeError end.
Definition item {A} (o : option A) : M A :=
  match o with Some x => ret x | None => raise IndexError end.

Section Run.
Context {P : Plugins}.

(** The class position: the name among the registered ones, or else the
    name read as an integer. *)
Definition class_index (names : list string) (t : string) : option Z :=
  match Python.index names t with
  | Some k => Some (Z.of_nat k)
  | None => Python.int t
  end.

Definition instantiate_neuron (c : config) (m : memory) (i : nat) (t : string)
    (n : n_model) : M (option neuron_obj * memory) :=
  match class_index neuron_names t with
  | None =>
      emit (Log ("Error instantiating neurons of model '" ++ t ++ "'"));;;
      ret (None, m)
  | Some ind =>
      spk <- item (head (spiking n));;
      k <- item (Python.getitem (seq 0 (length neuron_names)) ind);;
      off <- (if spk : bool
              then (attr (spike_state m);;; item (idx_start_spike c !! i))
              else (attr (V m);;; item (idx_start_gpot c !! i)));;
      let o := {| n_class := k; n_params := n; n_offset := off |} in
      let m1 := neuron_new o m in
      (if update_I_override k then ret tt
       else (attr (V m1);;; item (idx_start_gpot c !! i);;; ret tt));;;
      ret (Some o, m1)
  end.

Definition instantiate_synapse (c : config) (m : memory) (i : nat) (t : string)
    (s : s_resolved) : M (option synapse_obj * memory) :=
  match class_index synapse_names t with
  | None =>
      emit (Log ("Error instantiating synapses of model '" ++ t ++ "'"));;;
      ret (None, m)
  | Some ind =>
      k <- item (Python.getitem (seq 0 (length synapse_names)) ind);;
      off <- item (idx_start_synapse c !! i);;
      let o := {| s_class := k; s_params := s; s_offset := off |} in
      ret (Some o, synapse_new o m)
  end.

(** The list comprehensions of [_init_objects]: every entry of the list
    that passes the filter contributes what the call returned. *)
Fixpoint make_neurons (c : config) (i : nat) (nl : n_list) (m : memory)
  : M (list (option neuron_obj) * memory) :=
  match nl with
  | [] => ret ([], m)
  | (t, n) :: nl' =>
      if bool_decide (t ≠ GraphCompiler.PORT_IN_GPOT ∧ t ≠ GraphCompiler.PORT_IN_SPK)
      then r <- instantiate_neuron c m i t n;;
           rest <- make_neurons c (S i) nl' r.2;;
           ret (r.1 :: rest.1, rest.2)
      else make_neurons c (S i) nl' m
  end.

Fixpoint make_synapses (c : config) (i : nat) (sl : list (string * s_resolved))
    (m : memory) : M (list (option synapse_obj) * memory) :=
  match sl with
  | [] => ret ([], m)
  | (t, s) :: sl' =>
      if bool_decide (t ≠ "pass")
      then r <- instantiate_synapse c m i t s;;
           rest <- make_synapses c (S i) sl' r.2;;
           ret (r.1 :: rest.1, rest.2)
      else make_synapses c (S i) sl' m
  end.

Definition array_data (a : option gpuarray) : list Q :=
  match a with Some g => data g | None => [] end.

(** [pre_run]: allocate, instantiate, open the input, arm [first_step].
    [pg] and [ps] are the port data arrays of the base class. *)
Definition pre_run (c : config) (pg ps : gpuarray) : M lpu :=
  let m0 := initialize_gpu_ds c in
  ns <- make_neurons c 0 (n_list_of c) m0;;
  ss <- make_synapses c 0 (s_list_of c) ns.2;;
  let m := ss.2 in
  let b := CircularArray.init (Z.of_nat (total_num_gpot_neurons c))
             (gpot_delay_steps c) (array_data (V m))
             (Z.of_nat (total_num_spike_neurons c)) (spike_delay_steps c) in
  f <- match input_file c with
       | Some file => (x <- Feeder.open (one_time_import c) file;; ret (Some x))
       | None => ret None
       end;;
  ret {| cfg := c; mem := m; pm_gpot := pg; pm_spike := ps;
         neurons := ns.1; synapses := ss.1; buffer := b; feeder := f;
         first_step := true |}.

Definition with_V (m : memory) (v : gpuarray) : memory :=
  {| V := Some v; spike_state := spike_state m; synapse_state := synapse_state m |}.
Definition with_spike_state (m : memory) (v : gpuarray) : memory :=
  {| V := V m; spike_state := Some v; synapse_state := synapse_state m |}.
Definition with_synapse_data (m : memory) (d : list Q) : memory :=
  {| V := V m; spike_state := spike_state m;
     synapse_state := {| dtype_of := dtype_of (synapse_state m); data := d |} |}.

(** [_read_LPU_input] *)
Definition read_LPU_input (c : config) (pg ps : gpuarray) (m : memory) : M memory :=
  m1 <- match ports_in_gpot_mem_ind c with
        | Some k =>
            v <- attr (V m);;
            sh <- item (idx_start_gpot c !! k);;
            v' <- set_inds pg v (sel_in_gpot_ids (ports c)) sh;;
            ret (with_V m v')
        | None => ret m
        end;;
  match ports_in_spk_mem_ind c with
  | Some k =>
      v <- attr (spike_state m1);;
      sh <- item (idx_start_spike c !! k);;
      v' <- set_inds ps v (sel_in_spk_ids (ports c)) sh;;
      ret (with_spike_state m1 v')
  | None => ret m1
  end.

(** The loop over [self.neurons] in [run_step]. *)
Fixpoint update_neurons (k : nat) (ns : list (option neuron_obj)) (m : memory)
  : M memory :=
  match ns with
  | [] => ret m
  | None :: _ => raise AttributeError
  | Some n :: ns' =>
      emit (NeuronUpdateI k);;;
      emit (NeuronEval k);;;
      update_neurons (S k) ns' (neuron_eval n (neuron_update_I n m))
  end.

(** The loop over [self.synapses]; [hasattr(None, 'update_I')] is false. *)
Fixpoint update_synapses (k : nat) (ss : list (option synapse_obj))
    (b : CircularArray.t) (m : memory) : M memory :=
  match ss with
  | [] => ret m
  | None :: _ => raise AttributeError
  | Some s :: ss' =>
      m1 <- (if synapse_has_update_I (s_class s)
             then emit (SynapseUpdateI k);;; ret (synapse_update_I s m)
             else ret m);;
      emit (SynapseUpdateState k);;;
      update_synapses (S k) ss' b (synapse_update_state s b m1)
  end.

(** [_update_buffer] *)
Definition update_buffer (c : config) (b : CircularArray.t) (m : memory)
  : CircularArray.t :=
  let g := if decide (0 < total_num_gpot_neurons c)%nat
           then CircularArray.write_row (CircularArray.gpot_buffer b)
                  (CircularArray.gpot_current b) (array_data (V m))
           else CircularArray.gpot_buffer b in
  let s := if decide (0 < total_num_spike_neurons c)%nat
           then CircularArray.write_row (CircularArray.spike_buffer b)
                  (CircularArray.spike_current b) (array_data (spike_state m))
           else CircularArray.spike_buffer b in
  {| CircularArray.num_gpot_neurons := CircularArray.num_gpot_neurons b;
     CircularArray.gpot_delay_steps := CircularArray.gpot_delay_steps b;
     CircularArray.gpot_buffer := g;
     CircularArray.gpot_current := CircularArray.gpot_current b;
     CircularArray.num_spike_neurons := CircularArray.num_spike_neurons b;
     CircularArray.spike_delay_steps := CircularArray.spike_delay_steps b;
     CircularArray.spike_buffer := s;
     CircularArray.spike_current := CircularArray.spike_current b |}.

(** [_extract_output] *)
Definition extract_output (c : config) (m : memory) (pg ps : gpuarray)
  : M (gpuarray * gpuarray) :=
  pg' <- (if decide (0 < num_public_gpot c)%nat
          then v <- attr (V m);;
               extract_projection v pg (out_ports_ids_gpot c)
                 (sel_out_gpot_ids (ports c)) (num_public_gpot c)
          else ret pg);;
  ps' <- (if decide (0 < num_public_spike c)%nat
          then v <- attr (spike_state m);;
               extract_projection v ps (out_ports_ids_spk c)
                 (sel_out_spk_ids (ports c)) (num_public_spike c)
          else ret ps);;
  ret (pg', ps').

Definition when (b : bool) (m : M unit) : M unit := if b then m else ret tt.

(** The debug appends of [run_step] and [_write_output]. *)
Definition debug_appends (c : config) : M unit :=
  when (debug c)
    (when (bool_decide (0 < total_num_gpot_neurons c)%nat)
          (emit (DatasetAppend "gpot_buffer"));;;
     when (bool_decide (0 < total_synapses c + num_input c)%nat)
          (emit (DatasetAppend "synapse_state"))).

Definition write_output (c : config) : M unit :=
  when (output c)
    (when (bool_decide (0 < total_num_gpot_neurons c)%nat)
          (emit (DatasetAppend "output_gpot"));;;
     when (bool_decide (0 < total_num_spike_neurons c)%nat)
          (emit (DatasetAppend "output_spike"))).

(** The call of [_read_external_input] when an input file is attached. *)
Definition external_input (c : config) (fd : option Feeder.t) (m : memory)
  : M (option Feeder.t * memory) :=
  match input_file c with
  | Some _ =>
      f <- attr fd;;
      r <- Feeder.read_external_input (total_synapses c) (num_input c)
             (f, data (synapse_state m));;
      ret (Some r.1, with_synapse_data m r.2)
  | None => ret (fd, m)
  end.

(** The branch [if not self.first_step] of [run_step]. *)
Definition evaluate_models (u : lpu) (m : memory) : M (memory * CircularArray.t) :=
  m2 <- update_neurons 0 (neurons u) m;;
  let b1 := update_buffer (cfg u) (buffer u) m2 in
  emit BufferWrite;;;
  m3 <- update_synapses 0 (synapses u) b1 m2;;
  emit BufferStep;;;
  ret (m3, CircularArray.step b1).

(** [run_step].  The base-class [run_step] called first is outside the
    source and leaves the fields below alone. *)
Definition run_step (u : lpu) : M lpu :=
  let c := cfg u in
  m1 <- read_LPU_input c (pm_gpot u) (pm_spike u) (mem u);;
  fm <- external_input c (feeder u) m1;;
  st <- (if first_step u then ret (fm.2, buffer u) else evaluate_models u fm.2);;
  debug_appends c;;;
  pm <- extract_output c st.1 (pm_gpot u) (pm_spike u);;
  write_output c;;;
  ret {| cfg := c; mem := st.1; pm_gpot := pm.1; pm_spike := pm.2;
         neurons := neurons u; synapses := synapses u;
         buffer := st.2; feeder := fm.1; first_step := false |}.

End Run.

(** The calls a tick makes into the neuron instances [k, k+1, ...]. *)
Definition neuron_calls (k n : nat) : list event :=
  flat_map (λ i, [NeuronUpdateI i; NeuronEval i]) (seq k n).

Definition is_model_event (ev : event) : bool :=
  match ev with
  | NeuronUpdateI _ | NeuronEval _ | SynapseUpdateI _ | SynapseUpdateState _ => true
  | _ => false
  end.
Definition is_neuron_eval (ev : event) : bool :=
  match ev with NeuronEval _ => true | _ => false end.
Definition is_buffer_event (ev : event) : bool :=
  match ev with BufferWrite | BufferStep => true | _ => false end.


(** Events that are neither model calls nor buffer operations. *)
Definition quiet (evs : list event) : Prop :=
  Forall (λ ev, is_model_event ev = false ∧ is_buffer_event ev = false) evs.

End LPU.

(** ** Concrete units used to exercise the statements below *)

Module Examples.
Import Runtime IndexSpace Synapses Gateway LPU.

(** Two registered neuron classes and one synapse class; [eval] adds one
    to every graded state so that an evaluation is visible. *)
Definition bump (a : option gpuarray) : option gpuarray :=
  (λ g, {| dtype_of := dtype_of g; data := (λ q, q + 1)%Q <$> data g |}) <$> a.

Definition plugins : Plugins :=
  {| neuron_names := ["LeakyIAF"; "MorrisLecar"]%string;
     synapse_names := ["AlphaSynapse"]%string;
     update_I_override := λ _, true;
     neuron_new := λ _ m, m;
     neuron_update_I := λ _ m, m;
     neuron_eval := λ _ m,
       {| V := bump (V m); spike_state := spike_state m;
          synapse_state := synapse_state m |};
     synapse_new := λ _ m, m;
     synapse_has_update_I := λ _, false;
     synapse_update_I := λ _ m, m;
     synapse_update_state := λ _ _ m, m |}.

Definition no_ports : port_inds :=
  {| sel_in_gpot_ids := []; sel_out_gpot_ids := [];
     sel_in_spk_ids := []; sel_out_spk_ids := [] |}.

(** Two graded neurons 0 and 1 of one model. *)
Definition graded_pair (model : string) : n_list :=
  [(model, {| ids := [0; 1]; spiking := [false; false];
              public := [false; false]; extern := [false; false];
              selector := [EmptyString; EmptyString] |})].

(** A unit made from [nl] without synapses or files, with time step
    0.1 ms, brought to the state [pre_run] leaves it in. *)
Definition primed (nl : n_list) (pinds : port_inds) (pg ps : gpuarray) : M lpu :=
  match LPU.init Numpy.argsort_stable (1 # 10000) nl [] None false false pinds with
  | Some c => pre_run (P := plugins) c pg ps
  | None => raise ValueError
  end.

Definition no_gpot_data : gpuarray := zeros 0 float64.
Definition no_spike_data : gpuarray := zeros 0 int32.

(** One graded input port fed from position 0 of the port data. *)
Definition in_port : n_list :=
  [(GraphCompiler.PORT_IN_GPOT,
    {| ids := [0]; spiking := [false]; public := [false]; extern := [false];
       selector := ["/lpu/in/0"]%string |})].
Definition in_port_inds : port_inds :=
  {| sel_in_gpot_ids := [0%nat]; sel_out_gpot_ids := [];
     sel_in_spk_ids := []; sel_out_spk_ids := [] |}.


(** Graph nodes 0 and 2 of model A and node 1 of model B, all graded. *)
Definition graded_node (i : Z) (model : string) : GraphCompiler.node :=
  {| GraphCompiler.node_id := i; GraphCompiler.node_model := model;
     GraphCompiler.node_spiking := false; GraphCompiler.node_public := None;
     GraphCompiler.node_extern := false; GraphCompiler.node_selector := None |}.
Definition interleaved : list GraphCompiler.node :=
  [graded_node 0 "A"; graded_node 1 "B"; graded_node 2 "A"].

(** The table [graph_to_dicts] makes of them. *)
Definition interleaved_table : n_list :=
  [("A"%string,
    {| ids := [0; 2]; spiking := [false; false]; public := [false; false];
       extern := [false; false]; selector := [EmptyString; EmptyString] |});
   ("B"%string,
    {| ids := [1]; spiking := [false]; public := [false];
       extern := [false]; selector := [EmptyString] |})].

(** Two spiking neurons 0 and 1. *)
Definition spiking_pair : n_list :=
  [("LeakyIAF"%string,
    {| ids := [0; 1]; spiking := [true; true];
       public := [false; false]; extern := [false; false];
       selector := [EmptyString; EmptyString] |})].

(** Their index space. *)
Definition pair_space : index_space :=
  {| gpot_idx := []; spike_idx := [0; 1]; idx := [0; 1];
     order_dict := <[1 := 1%nat]> (<[0 := 0%nat]> ∅);
     gpot_order_dict := ∅;
     spike_order_dict := <[1 := 1%nat]> (<[0 := 0%nat]> ∅) |}.



(** A synapse onto neuron 1 and one onto synapse 0. *)
Definition onto_synapse : s_model :=
  {| s_ids := [0; 1]; class := [0; 0]; pre := [0; 0];
     post := [PostNeuron 1; PostSynapse 0];
     conductance := [true; true]; reverse := Some [0%Q; 0%Q]; delay := None |}.

(** An input file of 25 frames with one channel, frame [i] holding [i]. *)
Definition ramp_file : Feeder.h5array :=
  {| Feeder.ncols := 1;
     Feeder.frames := (λ i : nat, [inject_Z (Z.of_nat i)]) <$> seq 0 25 |}.

End Examples.

(** ** Layout: what the constructor assumes of the table *)

Module Layout.
Import IndexSpace Synapses.

(** The [spiking] flag is the same for all neurons of the model. *)
Definition kind_fixed (m : n_model) : Prop :=
  ∀ b b', b ∈ spiking m → b' ∈ spiking m → b = b'.

(** [sum(l)] *)
Definition sum_list (l : list nat) : nat := foldr Nat.add 0%nat l.

(** The ids of the neurons flagged [extern], in the order of [n_id]. *)
Definition extern_ids (nl : n_list) : list Z :=
  (filter (λ r : Z * bool, r.2 = true) (zip (all_ids nl) (n_has_in nl))).*1.

(** The [conductance] flag is the same for all synapses of the model,
    and the [id] column is as long as the [post] column. *)
Definition one_kind (s : s_model) : Prop :=
  (∀ b b', b ∈ conductance s → b' ∈ conductance s → b = b') ∧
  length (s_ids s) = length (post s).

End Layout.

Module FeederInvariant.
Import Runtime Feeder.

Definition is_log (ev : event) : bool :=
  match ev with Log _ => true | _ => false end.

(** The feeder while window [j] of [w] frames is being read and [i] of
    its frames have been handed out. *)
Definition in_window (w : nat) (file : h5array) (j i : nat) : t :=
  {| one_time_import := w; input_h5file := file;
     input_eof := bool_decide (0 < j ∧ (j + 1) * w = shape0 file)%nat;
     file_pointer := ((j + 1) * w)%nat;
     frame_count := i;
     frames_in_buffer := w;
     I_ext := slice file (j * w) (j * w + w) |}.

(** Nothing is left to hand out. *)
Definition exhausted (f : t) : Prop :=
  input_eof f = true ∧ (frames_in_buffer f ≤ frame_count f)%nat.

(** The number of frames in whole windows. *)
Definition whole_windows (w : nat) (file : h5array) : nat :=
  (shape0 file / w * w)%nat.

End FeederInvariant.

Module DelayLine.
Import CircularArray Gateway LPU.

Definition rows (k : kind) (b : CircularArray.t) : list (list Q) :=
  match k with Gpot => gpot_buffer b | Spike => spike_buffer b end.
Definition state_of (k : kind) (m : memory) : list Q :=
  array_data (match k with Gpot => V m | Spike => spike_state m end).
Definition total_of (k : kind) (c : config) : nat :=
  match k with
  | Gpot => total_num_gpot_neurons c
  | Spike => total_num_spike_neurons c
  end.

(** What the evaluated ticks do to the buffer: [_update_buffer] on the
    state of the tick, then [buffer.step()]. *)
Definition buffer_ticks (c : config) (b : CircularArray.t) (ms : list memory)
  : CircularArray.t :=
  foldl (λ b m, CircularArray.step (update_buffer c b m)) b ms.

End DelayLine.

(** ** What [graph_to_dicts] keeps while it fills the table *)

Module GraphInvariant.
Import IndexSpace GraphCompiler.

(** The flags the input-port models force on their nodes. *)
Definition port_flags (t : string) (spk pub : bool) : Prop :=
  (t = PORT_IN_GPOT → spk = false ∧ pub = false) ∧
  (t = PORT_IN_SPK → spk = true ∧ pub = false).

(** An entry holds at least one neuron and flags that fit its model. *)
Definition entry_ok (t : string) (m : n_model) : Prop :=
  ids m ≠ [] ∧ Forall2 (port_flags t) (spiking m) (public m).

End GraphInvariant.

(** ** GraphCompiler: the synapse half of [graph_to_dicts] *)

Module GraphSynapses.
Import Synapses.

(** [list.sort(cmp=...)]: Python's sort keeps equal items in their
    order, as this insertion sort does. *)
Section Sort.
Context {A : Type} (le : A → A → Prop) `{!∀ x y, Decision (le x y)}.

Fixpoint insert_by (x : A) (l : list A) : list A :=
  match l with
  | [] => [x]
  | y :: l' => if decide (le x y) then x :: l else y :: insert_by x l'
  end.

Definition sort_by (l : list A) : list A := foldr insert_by [] l.
End Sort.

(** A graph edge [(pre, post, data)] with the attributes the method and
    the constructor read.  All but [model] and [class] may be missing. *)
Record edge := {
  edge_pre : Z;
  edge_post : post_target;
  edge_model : string;
  edge_class : Z;
  edge_conductance : option bool;
  edge_reverse : option Q;
  edge_reversal_pot : option Q;
  edge_delay : option Q;
  edge_id : option Z
}.

(** [synapse_cmp] compares the targets. *)
Definition edge_le (x y : edge) : Prop := synapse_le (edge_post x) (edge_post y).
#[global] Instance edge_le_dec x y : Decision (edge_le x y).
Proof. unfold edge_le, synapse_le. destruct (edge_post x), (edge_post y); apply _. Defined.

(** The attributes once lines 200-211 have run: [conductance] defaults
    to [True], [reversal_pot] is renamed to [reverse] when [reverse] is
    missing, and a missing [id] is the position of the edge. *)
Definition conductance_of (e : edge) : bool := default true (edge_conductance e).
Definition reverse_of (e : edge) : option Q :=
  match edge_reverse e with Some r => Some r | None => edge_reversal_pot e end.
Definition reversal_pot_of (e : edge) : option Q :=
  match edge_reverse e with Some _ => edge_reversal_pot e | None => None end.
Definition id_of (i : nat) (e : edge) : Z := default (Z.of_nat i) (edge_id e).

(** One entry of [s_dict]: the columns the constructor reads and the
    column [reversal_pot], which is left when an edge has both keys. *)
Record s_entry := {
  columns : s_model;
  reversal_pot : option (list Q)
}.

Definition s_table := list (string * s_entry).

(** [{k: [] for k in syn[2].keys() + ['pre', 'post']}] filled with the
    first edge of the model. *)
Definition new_entry (i : nat) (e : edge) : s_entry :=
  {| columns :=
       {| s_ids := [id_of i e]; class := [edge_class e]; pre := [edge_pre e];
          post := [edge_post e]; conductance := [conductance_of e];
          Synapses.reverse := (λ r, [r]) <$> reverse_of e;
          delay := (λ d, [d]) <$> edge_delay e |};
     reversal_pot := (λ r, [r]) <$> reversal_pot_of e |}.

(** An optional key has to be in the entry and in the edge, or in
    neither: the assertion on the key sets at line 218. *)
Definition append_column (c : option (list Q)) (v : option Q) : option (option (list Q)) :=
  match c, v with
  | Some l, Some x => Some (Some (l ++ [x]))
  | None, None => Some None
  | _, _ => None
  end.

Definition append_entry (t : s_entry) (i : nat) (e : edge) : option s_entry :=
  rv ← append_column (Synapses.reverse (columns t)) (reverse_of e);
  rp ← append_column (reversal_pot t) (reversal_pot_of e);
  dl ← append_column (delay (columns t)) (edge_delay e);
  Some {| columns :=
            {| s_ids := s_ids (columns t) ++ [id_of i e];
               class := class (columns t) ++ [edge_class e];
               pre := pre (columns t) ++ [edge_pre e];
               post := post (columns t) ++ [edge_post e];
               conductance := conductance (columns t) ++ [conductance_of e];
               Synapses.reverse := rv;
               delay := dl |};
          reversal_pot := rp |}.

(** One turn of the loop at line 196; the dictionary is kept as an
    association list in insertion order. *)
Fixpoint add_synapse (d : s_table) (i : nat) (e : edge) : option s_table :=
  match d with
  | [] => Some [(edge_model e, new_entry i e)]
  | (k, t) :: d' =>
      if decide (k = edge_model e)
      then t' ← append_entry t i e; Some ((k, t') :: d')
      else d'' ← add_synapse d' i e; Some ((k, t) :: d'')
  end.

(** [for id, syn in enumerate(synapses)], from position [i] on. *)
Fixpoint add_synapses (d : s_table) (i : nat) (es : list edge) : option s_table :=
  match es with
  | [] => Some d
  | e :: es' => d' ← add_synapse d i e; add_synapses d' (S i) es'
  end.

Definition graph_to_dicts_synapses (edges : list edge) : option s_table :=
  add_synapses [] 0 (sort_by edge_le edges).

(** The [s_dict] the constructor is given. *)
Definition s_list_of_table (d : s_table) : s_list :=
  (λ p : string * s_entry, (p.1, columns p.2)) <$> d.

(** The optional keys of an edge that decide the key set. *)
Definition key_set (e : edge) : bool * bool * bool :=
  (bool_decide (is_Some (reverse_of e)),
   bool_decide (is_Some (reversal_pot_of e)),
   bool_decide (is_Some (edge_delay e))).

(** The edges with their positions, and those of one model. *)
Definition indexed (i : nat) (es : list edge) : list (nat * edge) :=
  zip (seq i (length es)) es.
Definition rows_of (k : string) (ies : list (nat * edge)) : list (nat * edge) :=
  filter (λ p : nat * edge, edge_model p.2 = k) ies.

(** An optional column holds the values [vs]. *)
Definition option_column (c : option (list Q)) (vs : list (option Q)) : Prop :=
  match c with
  | Some l => vs = Some <$> l
  | None => Forall (λ v, v = None) vs
  end.

(** The entry holds the rows [rs], one after the other. *)
Definition represents (rs : list (nat * edge)) (t : s_entry) : Prop :=
  rs ≠ [] ∧
  s_ids (columns t) = (λ p : nat * edge, id_of p.1 p.2) <$> rs ∧
  class (columns t) = (λ p : nat * edge, edge_class p.2) <$> rs ∧
  pre (columns t) = (λ p : nat * edge, edge_pre p.2) <$> rs ∧
  post (columns t) = (λ p : nat * edge, edge_post p.2) <$> rs ∧
  conductance (columns t) = (λ p : nat * edge, conductance_of p.2) <$> rs ∧
  option_column (Synapses.reverse (columns t)) ((λ p : nat * edge, reverse_of p.2) <$> rs) ∧
  option_column (reversal_pot t) ((λ p : nat * edge, reversal_pot_of p.2) <$> rs) ∧
  option_column (delay (columns t)) ((λ p : nat * edge, edge_delay p.2) <$> rs).

(** Edges of one model carry the same optional keys. *)
Definition compatible (es : list edge) : Prop :=
  ∀ e1 e2, e1 ∈ es → e2 ∈ es → edge_model e1 = edge_model e2 →
    key_set e1 = key_set e2.

(** Every column of the entry has the length of [id]. *)
Definition entry_columns_ok (t : s_entry) : Prop :=
  let n := length (s_ids (columns t)) in
  length (class (columns t)) = n ∧ length (pre (columns t)) = n ∧
  length (post (columns t)) = n ∧ length (conductance (columns t)) = n ∧
  (∀ l, Synapses.reverse (columns t) = Some l → length l = n) ∧
  (∀ l, reversal_pot t = Some l → length l = n) ∧
  (∀ l, delay (columns t) = Some l → length l = n).

(** The table after some rows have been added. *)
Definition table_ok (done : list (nat * edge)) (d : s_table) : Prop :=
  NoDup d.*1 ∧
  (∀ k, k ∈ d.*1 ↔ ∃ p, p ∈ done ∧ edge_model p.2 = k) ∧
  Forall (λ p : string * s_entry, represents (rows_of p.1 done) p.2) d.

End GraphSynapses.

(** ** OutputFile: the rows [_write_output] appends *)

Module OutputFile.
Import Numpy IndexSpace.

Section Rows.
Variable argsort : list Z → list nat.

(** [self.gpot_order_l = np.argsort(gpot_idx)] and
    [self.spike_order_l = np.argsort(spike_idx)], lines 483-490. *)
Definition gpot_order_l (sp : index_space) : list nat := argsort (gpot_idx sp).
Definition spike_order_l (sp : index_space) : list nat := argsort (spike_idx sp).

(** [self.V.get()[self.gpot_order_l]] and
    [self.spike_state.get()[self.spike_order_l]]. *)
Definition output_gpot_row (sp : index_space) (v : list Q) : option (list Q) :=
  reindex v (gpot_order_l sp).
Definition output_spike_row (sp : index_space) (v : list Q) : option (list Q) :=
  reindex v (spike_order_l sp).
End Rows.

End OutputFile.

(** ** Selectors: the class methods [extract_*] *)

Module Selectors.
Import IndexSpace GraphCompiler.

(** [sep.join(l)] *)
Fixpoint join (sep : string) (l : list string) : string :=
  match l with
  | [] => EmptyString
  | x :: l' =>
      match l' with
      | [] => x
      | _ => String.append x (String.append sep (join sep l'))
      end
  end.

(** [filter(None, l)] on strings: the empty ones are dropped. *)
Definition truthy (l : list string) : list string :=
  filter (λ s, s ≠ EmptyString) l.

(** [','.join(filter(None, l))] *)
Definition comma_join (l : list string) : string := join "," (truthy l).

(** [n_dict[t]], with [None] when [t not in n_dict]. *)
Fixpoint lookup_model (nl : n_list) (t : string) : option n_model :=
  match nl with
  | [] => None
  | (k, m) :: nl' => if decide (k = t) then Some m else lookup_model nl' t
  end.

(** The [selector] column of an input-port model, if the model is there. *)
Definition in_selectors (t : string) (nl : n_list) : list string :=
  match lookup_model nl t with
  | Some m => selector m
  | None => []
  end.

(** [[sel for _, n in n_dict.items()
      for sel, pub, spk in zip(n['selector'], n['public'], n['spiking'])
      if pub and (not) spk]] *)
Definition out_selectors (want_spk : bool) (nl : n_list) : list string :=
  concat ((λ e : string * n_model,
             (λ r : string * (bool * bool), r.1) <$>
             filter (λ r : string * (bool * bool), r.2.1 = true ∧ r.2.2 = want_spk)
                    (zip (selector e.2) (zip (public e.2) (spiking e.2)))) <$> nl).

Definition extract_in_gpot (nl : n_list) : string :=
  match lookup_model nl PORT_IN_GPOT with
  | Some m => comma_join (selector m)
  | None => EmptyString
  end.
Definition extract_in_spk (nl : n_list) : string :=
  match lookup_model nl PORT_IN_SPK with
  | Some m => comma_join (selector m)
  | None => EmptyString
  end.
Definition extract_out_gpot (nl : n_list) : string := comma_join (out_selectors false nl).
Definition extract_out_spk (nl : n_list) : string := comma_join (out_selectors true nl).
Definition extract_in (nl : n_list) : string :=
  comma_join [extract_in_spk nl; extract_in_gpot nl].
Definition extract_out (nl : n_list) : string :=
  comma_join [extract_out_spk nl; extract_out_gpot nl].
Definition extract_all (nl : n_list) : string :=
  comma_join [extract_in nl; extract_out nl].

(** The selector strings the constructor hands to the base class, lines
    405-438. *)
Definition sel_in (nl : n_list) : string :=
  comma_join [extract_in_gpot nl; extract_in_spk nl].
Definition sel_out (nl : n_list) : string :=
  comma_join [extract_out_gpot nl; extract_out_spk nl].
Definition sel_gpot (nl : n_list) : string :=
  comma_join [extract_in_gpot nl; extract_out_gpot nl].
Definition sel_spk (nl : n_list) : string :=
  comma_join [extract_in_spk nl; extract_out_spk nl].
Definition sel (nl : n_list) : string := comma_join [sel_gpot nl; sel_spk nl].

End Selectors.

Module Instances.
Import Runtime IndexSpace Synapses Gateway LPU.

(** The entries of a table with their positions, as [enumerate] gives
    them. *)
Definition enumerate {A} (i : nat) (l : list A) : list (nat * A) :=
  zip (seq i (length l)) l.

Section Made.
Context {P : Plugins}.

(** What [_instantiate_neuron(i, t, n)] returned. *)
Definition neuron_made (c : config) (e : nat * (string * n_model))
    (o : option neuron_obj) : Prop :=
  match o with
  | Some ob =>
      n_params ob = e.2.2 ∧
      (e.2.1 ∈ neuron_names → neuron_names !! n_class ob = Some e.2.1) ∧
      ∃ spk, head (spiking e.2.2) = Some spk ∧
        (if spk : bool then idx_start_spike c else idx_start_gpot c) !! e.1
          = Some (n_offset ob)
  | None => (e.2.1 ∉ neuron_names) ∧ Python.int e.2.1 = None
  end.

(** What [_instantiate_synapse(i, t, s)] returned. *)
Definition synapse_made (c : config) (e : nat * (string * s_resolved))
    (o : option synapse_obj) : Prop :=
  match o with
  | Some ob =>
      s_params ob = e.2.2 ∧
      (e.2.1 ∈ synapse_names → synapse_names !! s_class ob = Some e.2.1) ∧
      idx_start_synapse c !! e.1 = Some (s_offset ob)
  | None => (e.2.1 ∉ synapse_names) ∧ Python.int e.2.1 = None
  end.
End Made.
End Instances.

(** ** More concrete units *)

Module Scenarios.
Import Runtime IndexSpace Synapses Gateway LPU GraphSynapses.

(** Two graded neurons 3 and 1 and two spiking neurons 0 and 2; neurons
    3 and 2 take input from the file, 3 and 2 are public. *)
Definition mixed : n_list :=
  [("MorrisLecar"%string,
    {| ids := [3; 1]; spiking := [false; false]; public := [true; false];
       extern := [true; false]; selector := ["/a/out/0"%string; EmptyString] |});
   ("LeakyIAF"%string,
    {| ids := [0; 2]; spiking := [true; true]; public := [false; true];
       extern := [false; true]; selector := [EmptyString; "/a/out/1"%string] |})].

(** Device arrays with the given elements. *)
Definition doubles (l : list Q) : gpuarray := {| dtype_of := float64; data := l |}.

(** The memory of a unit whose graded states are [v]. *)
Definition graded_memory (v : list Q) : memory :=
  {| V := Some (doubles v); spike_state := None; synapse_state := zeros 1 float64 |}.

(** Three edges without ids: one onto synapse 0 and two onto neurons; the
    reversal potential is given under the key [reversal_pot]. *)
Definition plain_edge (pre : Z) (post : post_target) (model : string) : edge :=
  {| edge_pre := pre; edge_post := post; edge_model := model; edge_class := 0;
     edge_conductance := None; edge_reverse := None;
     edge_reversal_pot := Some (- 80)%Q; edge_delay := None; edge_id := None |}.
Definition edges : list edge :=
  [plain_edge 0 (PostSynapse 0) "AlphaSynapse";
   plain_edge 0 (PostNeuron 1) "AlphaSynapse";
   plain_edge 1 (PostNeuron 0) "ExpSynapse"].

End Scenarios.

(** * Properties *)

(** ** The run-time monad *)

Module RuntimeFacts.
Import Runtime.

Lemma bind_inr {A B} (m : M A) (k : A → M B) y evs :
  bind m k = inr (y, evs) →
  ∃ x e1 e2, m = inr (x, e1) ∧ k x = inr (y, e2) ∧ evs = e1 ++ e2.
Proof.
  unfold bind. destruct m as [e|[x e1]]; [discriminate|].
  destruct (k x) as [e|[y' e2]] eqn:Hk; [discriminate|].
  intros [= <- <-]. eauto 6.
Qed.

Lemma ret_inr {A} (x y : A) evs : ret x = inr (y, evs) → y = x ∧ evs = [].
Proof. by intros [= <- <-]. Qed.

Lemma emit_inr ev u evs : emit ev = inr (u, evs) → evs = [ev].
Proof. by intros [= <- <-]. Qed.

Lemma raise_inr {A} e (y : A) evs : raise e = inr (y, evs) → False.
Proof. discriminate. Qed.
End RuntimeFacts.

(** Take apart a computation that is known to have returned. *)
Ltac inv_M :=
  repeat match goal with
  | H : Runtime.bind _ _ = inr _ |- _ =>
      apply RuntimeFacts.bind_inr in H;
      destruct H as (? & ? & ? & ? & H & ->)
  | H : Runtime.ret _ = inr _ |- _ =>
      apply RuntimeFacts.ret_inr in H; destruct H as [-> ->]
  | H : Runtime.emit _ = inr _ |- _ =>
      apply RuntimeFacts.emit_inr in H; subst
  | H : Runtime.raise _ = inr _ |- _ =>
      destruct (RuntimeFacts.raise_inr _ _ _ H)
  end.

(** ** numpy operations *)

Module NumpyFacts.
Import Numpy.

Lemma int32_small z : - 2 ^ 31 ≤ z < 2 ^ 31 → int32 z = z.
Proof. intros H. unfold int32. rewrite Z.mod_small; lia. Qed.

Lemma int32_fmap_small l : Forall (λ z, - 2 ^ 31 ≤ z < 2 ^ 31) l → int32 <$> l = l.
Proof.
  induction 1 as [|z l Hz _ IH]; [done|]. csimpl. by rewrite IH, int32_small.
Qed.

(** Mask indexing keeps the entries whose flag is set. *)
Lemma mask_select_filter {A} (a : list A) : ∀ mask,
  length mask = length a →
  mask_select a mask = Some (filter (λ r : A * bool, r.2 = true) (zip a mask)).*1.
Proof.
  induction a as [|x a IH]; intros [|b mask] H; simplify_eq/=; [done|].
  rewrite IH by done. simpl. rewrite filter_cons. by destruct b.
Qed.

Lemma mask_select_negb_filter {A} (a : list A) : ∀ mask,
  length mask = length a →
  mask_select a (negb <$> mask) =
    Some (filter (λ r : A * bool, r.2 = false) (zip a mask)).*1.
Proof.
  induction a as [|x a IH]; intros [|b mask] H; simplify_eq/=; [done|].
  rewrite IH by done. simpl. rewrite filter_cons. by destruct b.
Qed.

Lemma mask_select_length {A} (a : list A) : ∀ mask r,
  mask_select a mask = Some r → length r = length (filter (λ b, b = true) mask).
Proof.
  induction a as [|x a IH]; intros [|b mask] r H; simpl in H; simplify_eq; [done|].
  destruct (mask_select a mask) as [r'|] eqn:Hr; simpl in H; simplify_eq.
  rewrite filter_cons. destruct b; simpl; rewrite (IH _ _ Hr); done.
Qed.

Lemma mask_select_total {A} (a : list A) : ∀ mask,
  length mask = length a → is_Some (mask_select a mask).
Proof.
  intros mask H. rewrite mask_select_filter by done. by eexists.
Qed.

(** The two masks split the array. *)
Lemma zip_flag_split {A} (a : list A) (mask : list bool) :
  length mask = length a →
  (filter (λ r : A * bool, r.2 = false) (zip a mask)).*1 ++
  (filter (λ r : A * bool, r.2 = true) (zip a mask)).*1 ≡ₚ a.
Proof.
  intros H. rewrite <- fmap_app.
  rewrite <- (fst_zip a mask) at 3 by lia.
  apply fmap_Permutation.
  rewrite <- (filter_app_complement (λ r : A * bool, r.2 = false) (zip a mask)) at 3.
  f_equiv. erewrite list_filter_iff; [done|].
  intros [x []]; simpl; naive_solver.
Qed.

(** [enumerate_into] on a list without repetitions. *)
Lemma enumerate_into_lookup (l : list Z) : ∀ i d x p,
  NoDup l →
  (enumerate_into i l d) !! x = Some p ↔
  (∃ j, l !! j = Some x ∧ p = (i + j)%nat) ∨ ((x ∉ l) ∧ d !! x = Some p).
Proof.
  induction l as [|y l IH]; intros i d x p Hnd; simpl.
  - split; [intros H; right; split; [apply not_elem_of_nil|done]|].
    intros [(j & Hj & _)|[_ H]]; [by rewrite lookup_nil in Hj|done].
  - apply NoDup_cons in Hnd as [Hy Hnd]. rewrite IH by done. split.
    + intros [(j & Hj & ->)|[Hx Hd]].
      * left. exists (S j). split; [done|lia].
      * destruct (decide (x = y)) as [->|Hne].
        -- rewrite lookup_insert_eq in Hd. simplify_eq.
           left. exists 0%nat. split; [done|lia].
        -- rewrite lookup_insert_ne in Hd by done.
           right. split; [|done]. rewrite not_elem_of_cons. done.
    + intros [(j & Hj & ->)|[Hx Hd]].
      * destruct j as [|j]; simpl in Hj.
        -- simplify_eq. right. split; [done|].
           rewrite lookup_insert_eq. f_equal. lia.
        -- left. exists j. split; [done|lia].
      * apply not_elem_of_cons in Hx as [Hne Hx].
        right. split; [done|]. by rewrite lookup_insert_ne.
Qed.

Lemma enumerate_numbers (l : list Z) :
  NoDup l → IndexSpace.numbers (enumerate_into 0 l ∅) l.
Proof.
  intros Hnd id i. rewrite enumerate_into_lookup by done. split.
  - intros [(j & Hj & ->)|[_ H]]; [done|by rewrite lookup_empty in H].
  - intros H. left. eauto.
Qed.

Lemma foldl_max_spec (l : list Z) : ∀ x,
  (foldl Z.max x l = x ∨ foldl Z.max x l ∈ l) ∧
  x ≤ foldl Z.max x l ∧ Forall (λ y, y ≤ foldl Z.max x l) l.
Proof.
  induction l as [|y l IH]; intros x; simpl.
  - split; [by left|]. split; [lia|constructor].
  - destruct (IH (Z.max x y)) as (Hm & Hx & Hl). split; [|split].
    + destruct Hm as [Hm|Hm]; [|right; by right].
      rewrite Hm. destruct (Z.max_spec x y) as [[_ ->]|[_ ->]]; [right; by left|by left].
    + lia.
    + constructor; [lia|done].
Qed.

Lemma max_spec (l : list Z) m :
  Numpy.max l = Some m → m ∈ l ∧ Forall (λ y, y ≤ m) l.
Proof.
  destruct l as [|x l]; [done|]. simpl. intros [= <-].
  destruct (foldl_max_spec l x) as (Hm & Hx & Hl). split.
  - destruct Hm as [->|Hm]; [by left|by right].
  - by constructor.
Qed.
End NumpyFacts.

Module ArgsortFacts.
Import Numpy.

Lemma reindex_Some {A} (v : list A) o r :
  reindex v o = Some r ↔ Forall2 (λ i x, v !! i = Some x) o r.
Proof. apply mapM_Some. Qed.

Lemma reindex_length {A} (v : list A) o r : reindex v o = Some r → length r = length o.
Proof. intros H. symmetry. by eapply length_mapM. Qed.

Lemma reindex_omap {A} (v : list A) o r :
  reindex v o = Some r → r = omap (λ i, v !! i) o.
Proof.
  rewrite reindex_Some. induction 1 as [|i x o r Hi _ IH]; [done|].
  simpl. rewrite Hi. by f_equal.
Qed.

Lemma omap_lookup_seq {A} (v : list A) : ∀ pre,
  omap (λ i, (pre ++ v) !! i) (seq (length pre) (length v)) = v.
Proof.
  induction v as [|x v IH]; intros pre; [done|]. simpl.
  rewrite list_lookup_middle by done. f_equal.
  specialize (IH (pre ++ [x])). rewrite length_app, Nat.add_1_r in IH.
  by rewrite <- (assoc_L (++)) in IH.
Qed.

(** Indexing by a permutation of the positions permutes the array. *)
Lemma reindex_Permutation {A} (v : list A) o r :
  o ≡ₚ seq 0 (length v) → reindex v o = Some r → r ≡ₚ v.
Proof.
  intros Ho Hr. rewrite (reindex_omap _ _ _ Hr), Ho.
  pose proof (omap_lookup_seq v []) as H. simpl in H. by rewrite H.
Qed.

Lemma reindex_zip {A B} (c : list A) (d : list B) o c' d' :
  reindex c o = Some c' → reindex d o = Some d' →
  reindex (zip c d) o = Some (zip c' d').
Proof.
  rewrite !reindex_Some. intros Hc. revert d'.
  induction Hc as [|i x o c' Hi _ IH]; intros d' Hd.
  - apply Forall2_nil_inv_l in Hd as ->. constructor.
  - apply Forall2_cons_inv_l in Hd as (y & d'' & Hy & Hd & ->).
    simpl. constructor; [|by apply IH].
    apply lookup_zip_Some. done.
Qed.

Section MergeArgsort.
Context (R : relation (Z * nat)) `{!∀ x y, Decision (R x y)}.
Context `{!Total R}.
Hypothesis R_le : ∀ x y, R x y → x.1 ≤ y.1.

Lemma zip_seq_lookup (a : list Z) : ∀ k,
  Forall (λ p : Z * nat, (k ≤ p.2)%nat ∧ a !! (p.2 - k)%nat = Some p.1)
         (zip a (seq k (length a))).
Proof.
  induction a as [|x a IH]; intros k; simpl; constructor.
  - simpl. by rewrite Nat.sub_diag.
  - eapply Forall_impl; [apply (IH (S k))|]. intros [v i] [Hk Hi]. simpl in *.
    split; [lia|]. replace (i - k)%nat with (S (i - S k)) by lia. done.
Qed.

Lemma merge_argsort_spec (a : list Z) :
  is_argsort a (merge_sort R (zip a (seq 0 (length a)))).*2.
Proof.
  set (zs := zip a (seq 0 (length a))).
  assert (merge_sort R zs ≡ₚ zs) as Hp by apply merge_sort_Permutation.
  split.
  - rewrite Hp. unfold zs. rewrite snd_zip; [done|]. rewrite length_seq. lia.
  - exists (merge_sort R zs).*1. split.
    + apply reindex_Some. apply Forall2_fmap, Forall_Forall2_diag.
      rewrite Hp. eapply Forall_impl; [apply zip_seq_lookup|].
      intros [v i] [_ Hi]. simpl in *. by rewrite Nat.sub_0_r in Hi.
    + apply Sorted_fmap with (R1 := R); [done|]. by apply Sorted_merge_sort.
Qed.
End MergeArgsort.

#[local] Instance le_stable_total : Total le_stable.
Proof. intros [v i] [w j]. unfold le_stable. simpl. lia. Qed.
#[local] Instance le_ties_last_total : Total le_ties_last.
Proof. intros [v i] [w j]. unfold le_ties_last. simpl. lia. Qed.

Lemma argsort_stable_spec (a : list Z) : is_argsort a (argsort_stable a).
Proof. apply merge_argsort_spec; [apply _|]. unfold le_stable. intros ??; lia. Qed.


Lemma StronglySorted_lookup_2 {A} (R : relation A) (l : list A) : ∀ p q x y,
  StronglySorted R l → (p < q)%nat → l !! p = Some x → l !! q = Some y → R x y.
Proof.
  induction l as [|z l IH]; intros p q x y Hs Hpq Hp Hq; [done|].
  apply StronglySorted_inv in Hs as [Hs Hz].
  destruct q as [|q]; [lia|]. simpl in Hq. destruct p as [|p]; simpl in Hp.
  - simplify_eq. rewrite Forall_forall in Hz. apply Hz.
    by eapply list_elem_of_lookup_2.
  - apply (IH p q); [done|lia|done..].
Qed.

#[local] Instance le_stable_trans : Transitive le_stable.
Proof. intros [v i] [w j] [x k]. unfold le_stable. simpl. lia. Qed.

(** The sort that lists equal values by position keeps ties in their
    original order: that is what [kind='mergesort'] would give. *)
Lemma argsort_stable_ties_preserved (a : list Z) :
  ties_preserved a (argsort_stable a).
Proof.
  intros p q i j v Hpq Hp Hq Hi Hj. unfold argsort_stable in *.
  set (ms := merge_sort le_stable (zip a (seq 0 (length a)))) in *.
  assert (StronglySorted le_stable ms) as Hs
    by (apply StronglySorted_merge_sort; apply _).
  assert (Forall (λ r : Z * nat, a !! r.2 = Some r.1) ms) as Hrows.
  { unfold ms. rewrite merge_sort_Permutation.
    eapply Forall_impl; [apply (zip_seq_lookup a 0)|].
    intros [w k] [_ Hk]. simpl in *. by rewrite Nat.sub_0_r in Hk. }
  rewrite list_lookup_fmap in Hp, Hq.
  destruct (ms !! p) as [[vp ip]|] eqn:Ep; simplify_eq/=.
  destruct (ms !! q) as [[vq iq]|] eqn:Eq; simplify_eq/=.
  rewrite Forall_forall in Hrows.
  pose proof (Hrows _ (list_elem_of_lookup_2 _ _ _ Ep)) as H1.
  pose proof (Hrows _ (list_elem_of_lookup_2 _ _ _ Eq)) as H2.
  simpl in H1, H2. simplify_eq.
  pose proof (StronglySorted_lookup_2 _ _ _ _ _ _ Hs Hpq Ep Eq) as Hle.
  unfold le_stable in Hle. simpl in Hle.
  destruct (decide (i = j)) as [->|Hne]; [|lia].
  assert (NoDup ms.*2) as Hnd.
  { unfold ms. rewrite merge_sort_Permutation, snd_zip by (rewrite length_seq; lia).
    apply NoDup_seq. }
  assert (p = q); [|lia].
  eapply NoDup_lookup;
    [exact Hnd|rewrite list_lookup_fmap, Ep|rewrite list_lookup_fmap, Eq]; done.
Qed.
End ArgsortFacts.

(** ** IndexSpace *)

Module IndexSpaceFacts.
Import Numpy IndexSpace NumpyFacts.

Lemma StronglySorted_sublist {A} (R : relation A) (l1 l2 : list A) :
  l1 `sublist_of` l2 → StronglySorted R l2 → StronglySorted R l1.
Proof.
  induction 1 as [|x l1 l2 Hs IH|x l1 l2 Hs IH]; intros H2; [done|..].
  - apply StronglySorted_inv in H2 as [H2 Hx]. constructor; [auto|].
    rewrite Forall_forall in Hx |- *. intros y Hy. apply Hx.
    by eapply elem_of_sublist.
  - apply StronglySorted_inv in H2 as [H2 _]. auto.
Qed.

Lemma ascending_sublist (l1 l2 : list Z) :
  l1 `sublist_of` l2 → ascending l2 → ascending l1.
Proof.
  intros Hs H2. apply StronglySorted_Sorted.
  eapply StronglySorted_sublist; [done|].
  apply Sorted_StronglySorted; [|done]. intros ???; lia.
Qed.

Lemma model_block_sublist flag m : model_block flag m `sublist_of` ids m.
Proof.
  unfold model_block.
  transitivity ((zip (ids m) (spiking m)).*1).
  - apply fmap_sublist, sublist_filter.
  - generalize (spiking m). induction (ids m) as [|x l IH]; intros [|b k]; simpl;
      [done|done|apply sublist_nil_l|]. by apply sublist_skip.
Qed.

Lemma columns_lengths nl :
  Forall (λ p : string * n_model, columns_ok p.2) nl →
  length (n_is_spk nl) = length (all_ids nl) ∧
  length (n_has_in nl) = length (all_ids nl).
Proof.
  unfold n_is_spk, n_has_in, all_ids.
  induction 1 as [|[t m] nl (Hs & _ & He) _ [IH1 IH2]]; [done|].
  csimpl. rewrite !length_app. simpl in *. lia.
Qed.

(** Selecting by flag works model by model. *)
Lemma zip_concat_blocks flag nl :
  Forall (λ p : string * n_model, columns_ok p.2) nl →
  (filter (λ r : Z * bool, r.2 = flag) (zip (all_ids nl) (n_is_spk nl))).*1 =
  concat ((λ e : string * n_model, model_block flag e.2) <$> nl).
Proof.
  unfold all_ids, n_is_spk.
  induction 1 as [|[t m] nl (Hs & _ & _) _ IH]; [done|].
  csimpl. simpl in Hs.
  rewrite zip_with_app by done. rewrite filter_app, fmap_app.
  by rewrite IH.
Qed.

Lemma n_id_valid nl : valid_input nl → n_id nl = all_ids nl.
Proof. intros (_ & Hr & _). by apply int32_fmap_small. Qed.

Lemma build_index_valid nl :
  valid_input nl →
  ∃ sp, build_index nl = Some sp ∧
    gpot_idx sp = concat ((λ e : string * n_model, model_block false e.2) <$> nl) ∧
    spike_idx sp = concat ((λ e : string * n_model, model_block true e.2) <$> nl) ∧
    idx sp = gpot_idx sp ++ spike_idx sp ∧
    idx sp ≡ₚ all_ids nl ∧
    order_dict sp = enumerate_into 0 (idx sp) ∅ ∧
    gpot_order_dict sp = enumerate_into 0 (gpot_idx sp) ∅ ∧
    spike_order_dict sp = enumerate_into 0 (spike_idx sp) ∅.
Proof.
  intros Hv. pose proof Hv as (Hc & Hr & Hnd).
  destruct (columns_lengths nl Hc) as [Hls _].
  unfold build_index. rewrite (n_id_valid nl Hv).
  rewrite mask_select_negb_filter, mask_select_filter by done. simpl.
  eexists. split; [done|]. simpl.
  rewrite !zip_concat_blocks by done.
  repeat split; try done.
  rewrite <- !zip_concat_blocks by done. by apply zip_flag_split.
Qed.

(** C1 (amended): for every valid input (columns of one length, ids that
    fit 32 bits and are unique) the constructor builds the index space,
    and in it: [order_dict], [gpot_order_dict] and [spike_order_dict] map
    ids to the positions [0 .. N-1] of [idx], [gpot_idx] and [spike_idx]
    one to one and onto; [idx] holds every id of the unit, the graded ids
    first and the spiking ids after them; each block lists the neurons
    model after model in the order of [n_list], the neurons of one model in
    the order of its id column, so ascending within a model whose column is
    ascending; a block is ascending as a whole when the ids of the unit are
    ascending across the models. *)
Theorem packed_layout (nl : n_list) :
  valid_input nl →
  ∃ sp, build_index nl = Some sp ∧
    idx sp ≡ₚ all_ids nl ∧
    numbers (order_dict sp) (idx sp) ∧
    numbers (gpot_order_dict sp) (gpot_idx sp) ∧
    numbers (spike_order_dict sp) (spike_idx sp) ∧
    idx sp = gpot_idx sp ++ spike_idx sp ∧
    gpot_idx sp = concat ((λ e : string * n_model, model_block false e.2) <$> nl) ∧
    spike_idx sp = concat ((λ e : string * n_model, model_block true e.2) <$> nl) ∧
    (∀ e flag, e ∈ nl → ascending (ids e.2) → ascending (model_block flag e.2)) ∧
    (ascending (all_ids nl) → ascending (gpot_idx sp) ∧ ascending (spike_idx sp)).
Proof.
  intros Hv.
  destruct (build_index_valid nl Hv) as (sp & Hb & Hg & Hs & Hi & Hp & Ho & Hog & Hos).
  pose proof Hv as (Hc & _ & Hnd).
  assert (NoDup (idx sp)) as Hndi by (by rewrite Hp).
  assert (NoDup (gpot_idx sp) ∧ NoDup (spike_idx sp)) as [Hndg Hnds].
  { rewrite Hi in Hndi. apply NoDup_app in Hndi as (? & _ & ?). done. }
  exists sp. split; [done|]. split; [done|].
  split; [rewrite Ho; by apply enumerate_numbers|].
  split; [rewrite Hog; by apply enumerate_numbers|].
  split; [rewrite Hos; by apply enumerate_numbers|].
  split; [done|]. split; [done|]. split; [done|]. split.
  - intros e flag _ Ha. eapply ascending_sublist; [apply model_block_sublist|done].
  - intros Ha. rewrite Hg, Hs, <- !zip_concat_blocks by done.
    assert (∀ flag, (filter (λ r : Z * bool, r.2 = flag)
              (zip (all_ids nl) (n_is_spk nl))).*1 `sublist_of` all_ids nl) as Hsub.
    { intros flag. transitivity ((zip (all_ids nl) (n_is_spk nl)).*1).
      - apply fmap_sublist, sublist_filter.
      - rewrite fst_zip; [done|]. destruct (columns_lengths nl Hc). lia. }
    split; (eapply ascending_sublist; [apply Hsub|done]).
Qed.

Lemma packed_layout_witness :
  valid_input Examples.interleaved_table ∧
  ∃ sp, build_index Examples.interleaved_table = Some sp ∧
        numbers (order_dict sp) (idx sp) ∧
        idx sp = gpot_idx sp ++ spike_idx sp ∧
        gpot_idx sp = [0; 2] ++ [1].
Proof.
  assert (valid_input Examples.interleaved_table) as Hv.
  { split; [|split].
    - repeat constructor.
    - repeat constructor; lia.
    - compute_done. }
  split; [exact Hv|].
  destruct (packed_layout Examples.interleaved_table Hv)
    as (sp & Hb & _ & Hn & _ & _ & Hi & Hg & _).
  exists sp. split; [exact Hb|]. split; [exact Hn|]. split; [exact Hi|].
  rewrite Hg. reflexivity.
Defined.

(** C1 as stated fails: [graph_to_dicts] turns the graded nodes 0 (model
    A), 1 (model B), 2 (model A) into a table whose graded block is
    0, 2, 1, or 1, 0, 2 when the dictionary lists B first; neither is
    ascending. *)
Lemma interleaved_models_not_ascending :
  GraphCompiler.graph_to_dicts_neurons Examples.interleaved
    = Some Examples.interleaved_table ∧
  valid_input Examples.interleaved_table ∧
  valid_input (reverse Examples.interleaved_table) ∧
  ∃ sp sp',
    build_index Examples.interleaved_table = Some sp ∧
    build_index (reverse Examples.interleaved_table) = Some sp' ∧
    gpot_idx sp = [0; 2; 1] ∧ gpot_idx sp' = [1; 0; 2] ∧
    ¬ claimed_layout sp ∧ ¬ claimed_layout sp'.
Proof.
  split; [vm_compute; reflexivity|].
  split; [|split].
  - split; [|split]; [repeat constructor|repeat constructor; lia|compute_done].
  - split; [|split]; [repeat constructor|repeat constructor; lia|compute_done].
  - eexists _, _. split; [vm_compute; reflexivity|].
    split; [vm_compute; reflexivity|].
    split; [reflexivity|]. split; [reflexivity|]. split.
    + intros (_ & _ & Ha & _). simpl in Ha.
      apply Sorted_inv in Ha as [Ha _]. apply Sorted_inv in Ha as [_ Ha].
      apply HdRel_inv in Ha. lia.
    + intros (_ & _ & Ha & _). simpl in Ha.
      apply Sorted_inv in Ha as [_ Ha]. apply HdRel_inv in Ha. lia.
Qed.
End IndexSpaceFacts.

(** ** GraphCompiler *)

Module GraphCompilerFacts.
Import IndexSpace GraphCompiler.

#[local] Instance neuron_le_total : Total neuron_le.
Proof. intros x y. unfold neuron_le. lia. Qed.
#[local] Instance neuron_le_trans : Transitive neuron_le.
Proof. intros x y z. unfold neuron_le. lia. Qed.

Lemma normalise_id n n' : normalise n = Some n' → node_id n' = node_id n.
Proof.
  unfold normalise. intros H.
  repeat match type of H with (if ?b then _ else _) = _ => destruct b; [discriminate|] end.
  by simplify_eq.
Qed.

Lemma normalise_ids ns ns' : mapM normalise ns = Some ns' → node_id <$> ns' = node_id <$> ns.
Proof.
  intros H. apply mapM_Some_1 in H.
  induction H as [|n n' ns ns' Hn _ IH]; [done|]. csimpl.
  by rewrite IH, (normalise_id _ _ Hn).
Qed.

(** What one insertion does to the table. *)
Lemma add_neuron_spec d n :
  all_ids (add_neuron d n) ≡ₚ all_ids d ++ [node_id n] ∧
  (Forall (λ p : string * n_model, columns_ok p.2) d →
   Forall (λ p : string * n_model, columns_ok p.2) (add_neuron d n)) ∧
  (Forall (λ z, z ≤ node_id n) (all_ids d) →
   Forall (λ p : string * n_model, StronglySorted Z.le (ids p.2)) d →
   Forall (λ p : string * n_model, StronglySorted Z.le (ids p.2)) (add_neuron d n)).
Proof.
  unfold all_ids. induction d as [|[k m] d (IHp & IHc & IHs)]; simpl.
  - split; [done|]. split; intros; repeat constructor.
  - destruct (decide (k = node_model n)) as [->|Hne]; csimpl.
    + split; [|split].
      * rewrite <- !(assoc_L (++)). f_equiv. apply Permutation_app_comm.
      * intros Hc. apply Forall_cons in Hc as [(H1 & H2 & H3) Hc].
        constructor; [|done]. unfold columns_ok. simpl in *.
        rewrite !length_app. simpl. lia.
      * intros Hb Hs. apply Forall_cons in Hs as [H1 Hs]. simpl in H1.
        apply Forall_app in Hb as [Hb _].
        constructor; [|done]. simpl.
        apply StronglySorted_app_2; [|done|repeat constructor].
        intros x1 x2 Hx1 ->%list_elem_of_singleton.
        by apply (proj1 (Forall_forall _ _) Hb).
    + split; [|split].
      * rewrite IHp. by rewrite (assoc_L (++)).
      * intros Hc. apply Forall_cons in Hc as [H1 Hc]. constructor; auto.
      * intros Hb Hs. apply Forall_cons in Hs as [H1 Hs].
        apply Forall_app in Hb as [_ Hb]. constructor; auto.
Qed.

Lemma foldl_add_neuron_spec ns : ∀ d,
  StronglySorted Z.le (node_id <$> ns) →
  (∀ x n, x ∈ all_ids d → n ∈ ns → x ≤ node_id n) →
  Forall (λ p : string * n_model, columns_ok p.2) d →
  Forall (λ p : string * n_model, StronglySorted Z.le (ids p.2)) d →
  all_ids (foldl add_neuron d ns) ≡ₚ all_ids d ++ (node_id <$> ns) ∧
  Forall (λ p : string * n_model, columns_ok p.2) (foldl add_neuron d ns) ∧
  Forall (λ p : string * n_model, StronglySorted Z.le (ids p.2)) (foldl add_neuron d ns).
Proof.
  induction ns as [|n ns IH]; intros d Hs Hb Hc Ha; simpl.
  - by rewrite app_nil_r.
  - csimpl in Hs. apply StronglySorted_inv in Hs as [Hs Hn].
    destruct (add_neuron_spec d n) as (Hp & Hc' & Ha').
    destruct (IH (add_neuron d n)) as (Hp2 & Hc2 & Ha2); [done| |auto|..].
    + intros x n' Hx Hn'. rewrite Hp in Hx. apply elem_of_app in Hx as [Hx|Hx].
      * apply Hb; [done|]. by right.
      * apply list_elem_of_singleton in Hx as ->.
        rewrite Forall_fmap, Forall_forall in Hn. by apply Hn.
    + apply Ha'; [|done]. apply Forall_forall. intros x Hx. apply Hb; [done|by left].
    + split; [|done]. rewrite Hp2, Hp. by rewrite <- (assoc_L (++)).
Qed.

(** The table [graph_to_dicts] returns has columns of one length, holds
    every node id once and lists the ids of each model in ascending order. *)
Lemma graph_to_dicts_neurons_spec nodes nl :
  graph_to_dicts_neurons nodes = Some nl →
  Forall (λ p : string * n_model, columns_ok p.2) nl ∧
  all_ids nl ≡ₚ node_id <$> nodes ∧
  Forall (λ p : string * n_model, ascending (ids p.2)) nl.
Proof.
  unfold graph_to_dicts_neurons. intros H.
  apply bind_Some in H as (ns & Hm & [= <-]).
  pose proof (normalise_ids _ _ Hm) as Hids.
  destruct (foldl_add_neuron_spec ns []) as (Hp & Hc & Ha).
  - rewrite Hids. apply StronglySorted_fmap with (R1 := neuron_le); [done|].
    apply StronglySorted_merge_sort; apply _.
  - intros x n Hx. by apply elem_of_nil in Hx.
  - constructor.
  - constructor.
  - split; [done|]. split.
    + rewrite Hp, Hids. simpl. by rewrite merge_sort_Permutation.
    + eapply Forall_impl; [exact Ha|]. intros p. apply StronglySorted_Sorted.
Qed.

(** Graph nodes with distinct 32-bit keys give a valid input whose id
    columns are ascending, whatever order the dictionary lists the models
    in. *)
Lemma graph_to_dicts_valid nodes nl nl' :
  graph_to_dicts_neurons nodes = Some nl → nl' ≡ₚ nl →
  NoDup (node_id <$> nodes) →
  Forall (λ z, - 2 ^ 31 ≤ z < 2 ^ 31) (node_id <$> nodes) →
  valid_input nl' ∧ Forall (λ p : string * n_model, ascending (ids p.2)) nl'.
Proof.
  intros H Hp Hnd Hr.
  destruct (graph_to_dicts_neurons_spec nodes nl H) as (Hc & Hids & Ha).
  assert (all_ids nl' ≡ₚ node_id <$> nodes) as Hids'.
  { rewrite <- Hids. unfold all_ids. by rewrite Hp. }
  split; [|by rewrite Hp].
  split; [by rewrite Hp|]. split; by rewrite Hids'.
Qed.
End GraphCompilerFacts.

(** ** Synapse targets *)

Module SynapseFacts.
Import Numpy IndexSpace Synapses NumpyFacts IndexSpaceFacts.



(** A post column sorted by [synapse_cmp] is partitioned. *)
Lemma sorted_targets_partitioned (p : list post_target) :
  StronglySorted synapse_le p → targets_partitioned p.
Proof.
  induction 1 as [|t p Hs IH Ht].
  - exists [], []. done.
  - destruct IH as (ns & ss & ->). destruct t as [n|k].
    + exists (n :: ns), ss. done.
    + destruct ns as [|n ns].
      * exists [], (k :: ss). done.
      * apply Forall_cons in Ht as [Ht _]. destruct Ht.
Qed.



End SynapseFacts.

(** ** Synapse ordering *)

Module CompileFacts.
Import Numpy IndexSpace Synapses ArgsortFacts.

Lemma targets_length p :
  (length (neuron_targets p) + length (synapse_targets p) = length p)%nat.
Proof.
  unfold neuron_targets, synapse_targets.
  induction p as [|[n|k] p IH]; csimpl; lia.
Qed.

Lemma resolved_columns_length sp nmax s pre' post' :
  resolved_columns sp nmax s pre' post' →
  length post' = length (post s) ∧ length pre' = length (pre s).
Proof.
  intros (cls & neu & _ & Hpre & Hneu & ->).
  apply length_mapM in Hpre, Hneu. unfold s_syn_post.
  rewrite length_app, length_fmap, <- Hneu, targets_length. done.
Qed.

(** [resolve_model] resolves the columns and reads each in the order
    [argsort] returns for the resolved [post] column. *)
Lemma resolve_model_inv argsort sp nmax s r :
  resolve_model argsort sp nmax s = Some r →
  ∃ pre' post',
    resolved_columns sp nmax s pre' post' ∧
    reordered_by (argsort post') s pre' post' r.
Proof.
  unfold resolve_model. intros H.
  repeat match type of H with
  | mbind _ _ = Some _ => apply bind_Some in H as (? & ? & H)
  end.
  simplify_eq. eexists _, _. split.
  - eexists _, _. eauto.
  - repeat split; done.
Qed.




End CompileFacts.

(** ** Synaptic delays *)

Module DelayFacts.
Import Numpy IndexSpace Synapses ArgsortFacts CompileFacts.














(** The rows of a reordered model are the rows of the model. *)
Lemma reordered_rows o s pre' post' r :
  reordered_by o s pre' post' r → o ≡ₚ seq 0 (length post') →
  length post' = length (post s) → s_columns_ok s →
  length (r_conductance r) = length (post s) ∧
  r_conductance r ≡ₚ conductance s ∧
  match delay s with
  | None => r_delay r = None
  | Some d => ∃ d', r_delay r = Some d' ∧ length d' = length (post s) ∧
                    zip (r_conductance r) d' ≡ₚ zip (conductance s) d
  end.
Proof.
  intros (_ & _ & _ & _ & Hc & _ & Hd) Ho Hlen [Hlc Hld].
  assert (length o = length (post s)) as Hlo.
  { rewrite (Permutation_length Ho), length_seq. done. }
  split; [by rewrite (reindex_length _ _ _ Hc)|]. split.
  { eapply reindex_Permutation; [|done]. by rewrite Hlc, <- Hlen. }
  destruct (delay s) as [d|]; simpl in Hd; [|by simplify_eq].
  apply fmap_Some in Hd as (d' & Hd' & Hr). exists d'. split; [done|].
  split; [by rewrite (reindex_length _ _ _ Hd')|].
  eapply reindex_Permutation; [|by apply reindex_zip].
  rewrite length_zip_with, Hlc, Hld, Nat.min_id, <- Hlen. done.
Qed.




Section Accumulate.
Context (s : s_model) (r : s_resolved).
Hypothesis Hcond : r_conductance r ≡ₚ conductance s.
Hypothesis Hrows :
  match delay s with
  | None => r_delay r = None
  | Some d => ∃ d', r_delay r = Some d' ∧ length d' = length (r_conductance r) ∧
                    zip (r_conductance r) d' ≡ₚ zip (conductance s) d
  end.


End Accumulate.




End DelayFacts.

(** ** Construction of the unit *)

Module ConstructFacts.
Import Numpy IndexSpace Synapses Gateway LPU NumpyFacts ArgsortFacts DelayFacts.

Lemma input_neuron_list_length nl sp l :
  IndexSpace.input_neuron_list nl sp = Some l → length l = num_extern nl.
Proof.
  unfold IndexSpace.input_neuron_list, order_arr. intros H.
  apply bind_Some in H as (in_id & Hm & H).
  apply length_mapM in H. rewrite <- H.
  rewrite (Permutation_length (merge_sort_Permutation _ _)).
  by eapply mask_select_length.
Qed.

(** What a successful construction has computed. *)
Lemma init_fields argsort dt0 nl sl input out dbg pinds c :
  LPU.init argsort dt0 nl sl input out dbg pinds = Some c →
  ∃ sp nmax rs a,
    build_index nl = Some sp ∧
    IndexSpace.input_neuron_list nl sp = Some (input_neuron_list c) ∧
    nid_max nl = Some nmax ∧
    compile_synapses argsort sp nmax sl = Some (rs, a) ∧
    space c = sp ∧ s_list_of c = rs ∧
    total_synapses c = Synapses.total_synapses sl ∧
    gpot_delay_steps c = delay_depth dt0 (Synapses.gpot_delay_steps a) ∧
    spike_delay_steps c = delay_depth dt0 (Synapses.spike_delay_steps a) ∧
    dt c = dt0.
Proof.
  unfold LPU.init. intros H.
  repeat match type of H with
  | mbind _ _ = Some _ => apply bind_Some in H as (? & ? & H)
  end.
  match goal with
  | x : (list (string * s_resolved) * acc)%type |- _ => destruct x as [rs a]
  end.
  destruct (Qeq_bool dt0 0); [discriminate|].
  simplify_eq. eexists _, _, _, _. simpl. repeat split; eauto.
Qed.

(** C10: for every unit the constructor builds, the array
    [synapse_state] allocated by [_initialize_gpu_ds] has length
    [max(total_synapses + number of extern neurons, 1)], so at least 1
    whatever the unit holds. *)
Theorem synapse_state_never_empty (argsort : list Z → list nat) (dt0 : Q)
    (nl : n_list) (sl : s_list) (input : option Feeder.h5array)
    (out dbg : bool) (pinds : port_inds) (c : config) :
  LPU.init argsort dt0 nl sl input out dbg pinds = Some c →
  length (data (synapse_state (initialize_gpu_ds c))) =
    Nat.max (Synapses.total_synapses sl + num_extern nl) 1 ∧
  (1 ≤ length (data (synapse_state (initialize_gpu_ds c))))%nat.
Proof.
  intros H. destruct (init_fields _ _ _ _ _ _ _ _ _ H)
    as (sp & nmax & rs & a & _ & Hin & _ & _ & _ & _ & Hts & _).
  simpl. rewrite length_replicate, Hts, (input_neuron_list_length _ _ _ Hin).
  split; lia.
Qed.

Lemma synapse_state_never_empty_witness :
  ∃ c,
    LPU.init argsort_stable (1 # 10000) (Examples.graded_pair "MorrisLecar") []
      None false false Examples.no_ports = Some c ∧
    length (data (synapse_state (initialize_gpu_ds c))) = 1%nat.
Proof.
  eexists. split; [vm_compute; reflexivity|].
  match goal with |- context [initialize_gpu_ds ?c] =>
    destruct (synapse_state_never_empty argsort_stable (1 # 10000)
                (Examples.graded_pair "MorrisLecar") [] None false false
                Examples.no_ports c) as [Hlen _]; [vm_compute; reflexivity|]
  end.
  rewrite Hlen. reflexivity.
Defined.



End ConstructFacts.

(** ** DelayBuffer *)

Module CircularArrayFacts.
Import CircularArray.

Lemma advance_mod (d c : Z) : 0 ≤ c < d → advance d c = (c + 1) mod d.
Proof.
  intros Hc. unfold advance. destruct (decide (d ≤ c + 1)) as [Hw|Hw].
  - assert (c + 1 = d) as -> by lia. by rewrite Z.mod_same by lia.
  - by rewrite Z.mod_small by lia.
Qed.

Lemma step_count k b : count k (step b) = count k b.
Proof. by destruct k. Qed.
Lemma step_depth k b : depth k (step b) = depth k b.
Proof. by destruct k. Qed.

Lemma step_cursor k b :
  cursor k (step b) =
  if decide (0 < count k b) then advance (depth k b) <$> cursor k b else cursor k b.
Proof. by destruct k. Qed.

Lemma iter_count k n b : count k (Nat.iter n step b) = count k b.
Proof. induction n as [|n IH]; simpl; [done|]. by rewrite step_count. Qed.
Lemma iter_depth k n b : depth k (Nat.iter n step b) = depth k b.
Proof. induction n as [|n IH]; simpl; [done|]. by rewrite step_depth. Qed.

Lemma iter_cursor k n b c :
  0 < count k b → cursor k b = Some c → 0 ≤ c < depth k b →
  cursor k (Nat.iter n step b) = Some ((c + Z.of_nat n) mod depth k b).
Proof.
  intros Hn Hc Hr. induction n as [|n IH].
  - simpl. rewrite Hc, Z.add_0_r, Z.mod_small; done.
  - simpl. rewrite step_cursor, iter_count, iter_depth, IH.
    rewrite decide_True by done. simpl. f_equal.
    rewrite advance_mod by (apply Z.mod_pos_bound; lia).
    rewrite Zplus_mod_idemp_l. f_equal. lia.
Qed.

(** C5: for either kind with at least one neuron and a buffer of depth
    [d >= 1] whose cursor [c] lies in [0, d): one [step] moves the cursor to
    [(c + 1) mod d]; after any number of steps the cursor still lies in
    [0, d); and after exactly [d] steps it is [c] again. *)
Theorem step_cursor_wraparound (k : kind) (b : t) (c : Z) :
  1 ≤ depth k b → 0 < count k b → cursor k b = Some c → 0 ≤ c < depth k b →
  cursor k (step b) = Some ((c + 1) mod depth k b) ∧
  (∀ n, ∃ c', cursor k (Nat.iter n step b) = Some c' ∧ 0 ≤ c' < depth k b) ∧
  cursor k (Nat.iter (Z.to_nat (depth k b)) step b) = Some c.
Proof.
  intros Hd Hn Hc Hr. split; [|split].
  - rewrite step_cursor, decide_True, Hc by done. simpl.
    by rewrite advance_mod.
  - intros n. eexists. split; [by apply iter_cursor|].
    apply Z.mod_pos_bound. lia.
  - rewrite (iter_cursor k _ b c) by done. f_equal.
    rewrite Z2Nat.id by lia.
    rewrite <- (Z.mul_1_l (depth k b)) at 1.
    rewrite Z.mod_add by lia. apply Z.mod_small. done.
Qed.

(** The cursor of a freshly built buffer is 0, so the law above applies to
    every buffer the unit creates. *)
Lemma init_cursor k ng gd rest ns sd :
  0 < count k (init ng gd rest ns sd) →
  cursor k (init ng gd rest ns sd) = Some 0.
Proof. destruct k; simpl; intros H; by rewrite decide_True. Qed.

Lemma step_cursor_wraparound_witness :
  let b := init 2 3 [0%Q; 0%Q] 0 1 in
  cursor Gpot (step b) = Some ((0 + 1) mod depth Gpot b) ∧
  (∀ n, ∃ c', cursor Gpot (Nat.iter n step b) = Some c' ∧ 0 ≤ c' < depth Gpot b) ∧
  cursor Gpot (Nat.iter (Z.to_nat (depth Gpot b)) step b) = Some 0.
Proof.
  apply (step_cursor_wraparound Gpot (init 2 3 [0%Q; 0%Q] 0 1) 0);
    simpl; first [lia | reflexivity].
Defined.

End CircularArrayFacts.

(** ** ExternalInputFeeder *)

Module FeederFacts.
Import Runtime Feeder.

Lemma length_25 {A} (l : list A) :
  length l = 25%nat →
  ∃ a0 a1 a2 a3 a4 a5 a6 a7 a8 a9 b0 b1 b2 b3 b4 b5 b6 b7 b8 b9 c0 c1 c2 c3 c4,
    l = [a0; a1; a2; a3; a4; a5; a6; a7; a8; a9; b0; b1; b2; b3; b4; b5; b6; b7; b8; b9;
         c0; c1; c2; c3; c4].
Proof.
  intros H.
  do 25 (destruct l as [|? l]; [discriminate H|]).
  destruct l; [|discriminate H]. repeat eexists.
Qed.

(** C8: with an input file of 25 frames and the window of 10 frames,
    the set-up reads frames 0 .. 10; the next 20 calls of
    [_read_external_input] read from the file exactly twice (frames
    10 .. 20, then 20 .. 25), and leave in the window the last 5 frames
    followed by 5 frames of zeros, with [input_eof] set. *)
Theorem twenty_reads_of_25_frames (file : h5array) (total_synapses num_input : nat)
    (ss : list Q) :
  shape0 file = 25%nat →
  ∃ f0 f ss' evs,
    Feeder.open 10 file = inr (f0, [FileRead 0 10]) ∧
    read_n 20 total_synapses num_input (f0, ss) = inr ((f, ss'), evs) ∧
    filter is_file_read evs = [FileRead 10 20; FileRead 20 25] ∧
    I_ext f = drop 20 (frames file) ++ replicate 5 (replicate (ncols file) 0%Q) ∧
    input_eof f = true.
Proof.
  intros H. destruct file as [nc fr]. unfold shape0 in H. simpl in H.
  destruct (length_25 fr H) as (a0&a1&a2&a3&a4&a5&a6&a7&a8&a9&b0&b1&b2&b3&b4&b5&b6&b7&b8&b9&c0&c1&c2&c3&c4&->).
  eexists _, _, _, _. split; [reflexivity|].
  split; [vm_compute; reflexivity|].
  split; [reflexivity|]. split; reflexivity.
Qed.

Lemma twenty_reads_of_25_frames_witness :
  ∃ f0 f ss' evs,
    Feeder.open 10 Examples.ramp_file = inr (f0, [FileRead 0 10]) ∧
    read_n 20 0 1 (f0, [0%Q]) = inr ((f, ss'), evs) ∧
    filter is_file_read evs = [FileRead 10 20; FileRead 20 25] ∧
    I_ext f = drop 20 (frames Examples.ramp_file) ++
              replicate 5 (replicate (ncols Examples.ramp_file) 0%Q) ∧
    input_eof f = true.
Proof.
  apply (twenty_reads_of_25_frames Examples.ramp_file 0 1 [0%Q]). reflexivity.
Defined.

(** After those 20 calls the cursor still stands at the end of the
    window, so the next call copies nothing and logs the end of the
    input. *)
Lemma call_21_logs_end_of_input :
  ∃ f0 st st' evs,
    Feeder.open 10 Examples.ramp_file = inr (f0, [FileRead 0 10]) ∧
    read_n 20 0 1 (f0, [0%Q]) = inr (st, evs) ∧
    frame_count st.1 = 10%nat ∧ frames_in_buffer st.1 = 5%nat ∧
    read_external_input 0 1 st =
      inr (st', [Log "Input end of file reached. Subsequent behaviour is undefined."]) ∧
    st'.2 = st.2.
Proof.
  eexists _, _, _, _. split; [reflexivity|].
  split; [vm_compute; reflexivity|].
  split; [reflexivity|]. split; [reflexivity|].
  split; [vm_compute; reflexivity|reflexivity].
Qed.
End FeederFacts.

(** ** PortGateway *)

Module GatewayFacts.
Import Runtime Gateway LPU.

(** The gather refuses arrays of different element types before it
    launches anything. *)
Lemma set_inds_dtype_mismatch src dest inds dest_shift :
  dtype_of src ≠ dtype_of dest →
  set_inds src dest inds dest_shift = raise AssertionError.
Proof. intros H. unfold set_inds. by rewrite decide_False. Qed.

(** The scatter launches its kernel whatever the element types are. *)
Lemma extract_projection_launches state_var projection ai pi n :
  ∃ r, extract_projection state_var projection ai pi n = inr (r, [KernelExtract n]).
Proof. unfold extract_projection. simpl. eauto. Qed.

End GatewayFacts.

(** ** StepEngine *)

Module LPUFacts.
Import Runtime Gateway LPU.

Section WithPlugins.
Context {P : Plugins}.

Lemma quiet_nil : quiet [].
Proof. constructor. Qed.
Lemma quiet_app e1 e2 : quiet e1 → quiet e2 → quiet (e1 ++ e2).
Proof. apply Forall_app_2. Qed.
Lemma quiet_filter_model evs : quiet evs → filter is_model_event evs = [].
Proof.
  induction 1 as [|ev evs [Hm _] _ IH]; [done|].
  rewrite filter_cons, Hm. simpl. done.
Qed.
Lemma quiet_filter_buffer evs : quiet evs → filter is_buffer_event evs = [].
Proof.
  induction 1 as [|ev evs [_ Hb] _ IH]; [done|].
  rewrite filter_cons, Hb. simpl. done.
Qed.
Lemma quiet_filter_eval evs : quiet evs → filter is_neuron_eval evs = [].
Proof.
  induction 1 as [|ev evs [Hm _] _ IH]; [done|].
  rewrite filter_cons. destruct ev; simpl in *; try done.
Qed.

Lemma attr_inr {A} (o : option A) x evs : attr o = inr (x, evs) → o = Some x ∧ evs = [].
Proof. destruct o; [|discriminate]. by intros [= <- <-]. Qed.
Lemma item_inr {A} (o : option A) x evs : item o = inr (x, evs) → o = Some x ∧ evs = [].
Proof. destruct o; [|discriminate]. by intros [= <- <-]. Qed.

Lemma set_inds_inr src dest inds sh r evs :
  set_inds src dest inds sh = inr (r, evs) →
  dtype_of src = dtype_of dest ∧ evs = [KernelSetInds (length inds)].
Proof.
  unfold set_inds. destruct (decide _); [|discriminate].
  intros H. inv_M. done.
Qed.

Lemma read_LPU_input_quiet c pg ps m m' evs :
  read_LPU_input c pg ps m = inr (m', evs) → quiet evs.
Proof.
  unfold read_LPU_input. intros H. inv_M.
  apply quiet_app.
  - destruct (ports_in_gpot_mem_ind c); inv_M; [|apply quiet_nil].
    repeat match goal with
    | H : attr _ = inr _ |- _ => apply attr_inr in H; destruct H as [_ ->]
    | H : item _ = inr _ |- _ => apply item_inr in H; destruct H as [_ ->]
    | H : set_inds _ _ _ _ = inr _ |- _ => apply set_inds_inr in H; destruct H as [_ ->]
    end.
    simpl. repeat constructor.
  - destruct (ports_in_spk_mem_ind c); inv_M; [|apply quiet_nil].
    repeat match goal with
    | H : attr _ = inr _ |- _ => apply attr_inr in H; destruct H as [_ ->]
    | H : item _ = inr _ |- _ => apply item_inr in H; destruct H as [_ ->]
    | H : set_inds _ _ _ _ = inr _ |- _ => apply set_inds_inr in H; destruct H as [_ ->]
    end.
    simpl. repeat constructor.
Qed.

Ltac inv_step :=
  repeat (inv_M;
    match goal with
    | H : attr _ = inr _ |- _ => apply attr_inr in H; destruct H as [H ->]
    | H : item _ = inr _ |- _ => apply item_inr in H; destruct H as [H ->]
    | H : set_inds _ _ _ _ = inr _ |- _ => apply set_inds_inr in H; destruct H as [H ->]
    end); inv_M.

Ltac case_hyp :=
  match goal with
  | H : (if ?b then _ else _) = inr _ |- _ => destruct b eqn:?
  | H : match ?o with Some _ => _ | None => _ end = inr _ |- _ => destruct o eqn:?
  end.
Ltac unfold_M := repeat first [progress inv_step | case_hyp].
Ltac quiet_tac :=
  unfold_M; repeat apply quiet_app;
  first [apply quiet_nil | eassumption | by repeat constructor | idtac].

Lemma debug_appends_quiet c u evs : debug_appends c = inr (u, evs) → quiet evs.
Proof. unfold debug_appends, when. intros H. quiet_tac. Qed.

Lemma write_output_quiet c u evs : write_output c = inr (u, evs) → quiet evs.
Proof. unfold write_output, when. intros H. quiet_tac. Qed.

Lemma extract_output_quiet c m pg ps r evs :
  extract_output c m pg ps = inr (r, evs) → quiet evs.
Proof. unfold extract_output, extract_projection. intros H. quiet_tac. Qed.

Lemma read_external_input_quiet ts ni st st' evs :
  Feeder.read_external_input ts ni st = inr (st', evs) → quiet evs.
Proof.
  unfold Feeder.read_external_input, Feeder.refill. destruct st as [f ss].
  intros H. quiet_tac.
Qed.

Lemma update_neurons_events ns : ∀ k m m' evs,
  update_neurons k ns m = inr (m', evs) →
  evs = neuron_calls k (length ns) ∧ Forall is_Some ns.
Proof.
  induction ns as [|[n|] ns IH]; intros k m m' evs H; cbn [update_neurons] in H.
  - inv_M. done.
  - inv_M. apply IH in H as [-> Hs]. split; [done|].
    constructor; eauto.
  - discriminate.
Qed.

Lemma neuron_calls_eval k n :
  filter is_neuron_eval (neuron_calls k n) = NeuronEval <$> seq k n.
Proof.
  revert k. induction n as [|n IH]; intros k; [done|].
  unfold neuron_calls in *. simpl. rewrite filter_cons. simpl.
  rewrite filter_cons. simpl. by rewrite IH.
Qed.

Lemma neuron_calls_buffer k n : filter is_buffer_event (neuron_calls k n) = [].
Proof.
  revert k. induction n as [|n IH]; intros k; [done|].
  unfold neuron_calls in *. simpl. rewrite !filter_cons. simpl. by rewrite IH.
Qed.

Lemma update_synapses_events ss : ∀ k b m m' evs,
  update_synapses k ss b m = inr (m', evs) →
  filter is_neuron_eval evs = [] ∧ filter is_buffer_event evs = [] ∧
  Forall is_Some ss.
Proof.
  induction ss as [|[s|] ss IH]; intros k b m m' evs H; cbn [update_synapses] in H.
  - inv_M. done.
  - inv_M. apply IH in H as (He & Hb & Hs).
    rewrite !filter_app, He, Hb.
    destruct (synapse_has_update_I _); inv_M; simpl; rewrite ?filter_cons; simpl;
      (split; [done|split; [done|constructor; eauto]]).
  - discriminate.
Qed.

Lemma read_LPU_input_V c pg ps m m' evs :
  read_LPU_input c pg ps m = inr (m', evs) →
  (ports_in_gpot_mem_ind c = None → V m' = V m) ∧
  (ports_in_spk_mem_ind c = None → spike_state m' = spike_state m) ∧
  synapse_state m' = synapse_state m.
Proof.
  unfold read_LPU_input. intros H. unfold_M; simpl; done.
Qed.

Lemma external_input_quiet c fd m r evs :
  external_input c fd m = inr (r, evs) →
  quiet evs ∧ V r.2 = V m ∧ spike_state r.2 = spike_state m.
Proof.
  unfold external_input. intros H.
  destruct (input_file c); unfold_M; simpl; [|by split; [apply quiet_nil|]].
  split; [|done]. repeat apply quiet_app; try apply quiet_nil.
  by eapply read_external_input_quiet.
Qed.

Lemma evaluate_models_events u m r evs :
  evaluate_models u m = inr (r, evs) →
  Forall is_Some (neurons u) ∧ Forall is_Some (synapses u) ∧
  filter is_neuron_eval evs = NeuronEval <$> seq 0 (length (neurons u)) ∧
  filter is_buffer_event evs = [BufferWrite; BufferStep].
Proof.
  unfold evaluate_models. intros H. inv_M.
  match goal with H : update_neurons _ _ _ = _ |- _ =>
    apply update_neurons_events in H; destruct H as [-> Hn] end.
  match goal with H : update_synapses _ _ _ _ = _ |- _ =>
    apply update_synapses_events in H; destruct H as (Hse & Hsb & Hs) end.
  split; [done|]. split; [done|].
  rewrite !filter_app, neuron_calls_eval, neuron_calls_buffer, Hse, Hsb.
  simpl. by rewrite app_nil_r.
Qed.

(** The state a first tick is left with, seen from the end of the
    gather: only [synapse_state] can differ. *)
Lemma run_step_first (u u1 : lpu) e1 :
  first_step u = true → run_step u = inr (u1, e1) →
  quiet e1 ∧ buffer u1 = buffer u ∧ first_step u1 = false ∧
  ∃ m1 ev, read_LPU_input (cfg u) (pm_gpot u) (pm_spike u) (mem u) = inr (m1, ev) ∧
           V (mem u1) = V m1 ∧ spike_state (mem u1) = spike_state m1.
Proof.
  intros Hf H. unfold run_step in H. rewrite Hf in H. inv_M.
  match goal with H : read_LPU_input _ _ _ _ = _ |- _ =>
    pose proof (read_LPU_input_quiet _ _ _ _ _ _ H) as Hq; rename H into Hr end.
  match goal with H : external_input _ _ _ = _ |- _ =>
    apply external_input_quiet in H; destruct H as (He & HV & HS) end.
  match goal with H : debug_appends _ = _ |- _ => apply debug_appends_quiet in H end.
  match goal with H : write_output _ = _ |- _ => apply write_output_quiet in H end.
  match goal with H : extract_output _ _ _ _ = _ |- _ => apply extract_output_quiet in H end.
  simpl. split; [|split; [done|split; [done|]]].
  - repeat apply quiet_app; try done; apply quiet_nil.
  - eauto 6.
Qed.

Lemma run_step_later (w w' : lpu) e :
  first_step w = false → run_step w = inr (w', e) →
  Forall is_Some (neurons w) ∧ Forall is_Some (synapses w) ∧
  filter is_neuron_eval e = NeuronEval <$> seq 0 (length (neurons w)) ∧
  filter is_buffer_event e = [BufferWrite; BufferStep] ∧
  first_step w' = false.
Proof.
  intros Hf H. unfold run_step in H. rewrite Hf in H. inv_M.
  match goal with H : read_LPU_input _ _ _ _ = _ |- _ =>
    apply read_LPU_input_quiet in H; rename H into Hr end.
  match goal with H : external_input _ _ _ = _ |- _ =>
    apply external_input_quiet in H; destruct H as (He & _ & _) end.
  match goal with H : debug_appends _ = _ |- _ =>
    apply debug_appends_quiet in H; rename H into Hd end.
  match goal with H : write_output _ = _ |- _ =>
    apply write_output_quiet in H; rename H into Hw end.
  match goal with H : extract_output _ _ _ _ = _ |- _ =>
    apply extract_output_quiet in H; rename H into Hx end.
  match goal with H : evaluate_models _ _ = _ |- _ =>
    apply evaluate_models_events in H; destruct H as (Hn & Hs & Hev & Hbf) end.
  simpl. split; [done|]. split; [done|]. split; [|split; [|done]].
  - rewrite !filter_app, Hev.
    rewrite !quiet_filter_eval by done. simpl. by rewrite !app_nil_r.
  - rewrite !filter_app, Hbf.
    rewrite !quiet_filter_buffer by done. done.
Qed.

Lemma update_neurons_returns ns : ∀ k m,
  Forall is_Some ns → ∃ m', update_neurons k ns m = inr (m', neuron_calls k (length ns)).
Proof.
  induction ns as [|o ns IH]; intros k m Hs.
  - by eexists.
  - apply Forall_cons in Hs as [[n ->] Hs]. cbn [update_neurons].
    destruct (IH (S k) (neuron_eval n (neuron_update_I n m)) Hs) as [m' Hm'].
    exists m'. unfold bind, emit. rewrite Hm'. done.
Qed.

Lemma update_synapses_returns ss : ∀ k b m,
  Forall is_Some ss → ∃ r, update_synapses k ss b m = inr r.
Proof.
  induction ss as [|o ss IH]; intros k b m Hs.
  - by eexists.
  - apply Forall_cons in Hs as [[s ->] Hs]. cbn [update_synapses].
    destruct (synapse_has_update_I (s_class s)); unfold bind, emit, ret.
    + destruct (IH (S k) b (synapse_update_state s b (synapse_update_I s m)) Hs)
        as [[m' e] ->]. by eexists.
    + destruct (IH (S k) b (synapse_update_state s b m) Hs) as [[m' e] ->]. by eexists.
Qed.

(** A unit without input ports, input file and public neurons whose
    model names were all resolved completes every tick. *)
Lemma run_step_returns (u : lpu) :
  ports_in_gpot_mem_ind (cfg u) = None → ports_in_spk_mem_ind (cfg u) = None →
  input_file (cfg u) = None →
  num_public_gpot (cfg u) = 0%nat → num_public_spike (cfg u) = 0%nat →
  Forall is_Some (neurons u) → Forall is_Some (synapses u) →
  ∃ r, run_step u = inr r.
Proof.
  intros Hg Hs Hf Hpg Hps Hn Hsy. unfold run_step.
  unfold read_LPU_input, external_input, extract_output. rewrite Hg, Hs, Hf, Hpg, Hps.
  simpl. unfold debug_appends, write_output, when.
  destruct (first_step u).
  - simpl. destruct (debug (cfg u)), (output (cfg u)),
      (bool_decide (0 < total_num_gpot_neurons (cfg u))%nat),
      (bool_decide (0 < total_num_spike_neurons (cfg u))%nat),
      (bool_decide (0 < total_synapses (cfg u) + num_input (cfg u))%nat);
      simpl; by eexists.
  - unfold evaluate_models.
    destruct (update_neurons_returns (neurons u) 0 (mem u) Hn) as [m2 ->].
    simpl.
    destruct (update_synapses_returns (synapses u) 0
                (update_buffer (cfg u) (buffer u) m2) m2 Hsy) as [[m3 e3] ->].
    simpl. destruct (debug (cfg u)), (output (cfg u)),
      (bool_decide (0 < total_num_gpot_neurons (cfg u))%nat),
      (bool_decide (0 < total_num_spike_neurons (cfg u))%nat),
      (bool_decide (0 < total_synapses (cfg u) + num_input (cfg u))%nat);
      simpl; by eexists.
Qed.

(** C3 (amended): the first [run_step] after [pre_run] calls no neuron or
    synapse model and does not touch the delay buffer; it leaves the
    neuron state as the port-input gather at the start of the tick left
    it, hence unchanged for a kind without input ports.  Every later
    [run_step] that returns has called [eval] exactly once on each neuron
    instance, in order, and has advanced the buffer once. *)
Theorem first_tick_primes_later_ticks_update (u u1 : lpu) (e1 : list event) :
  first_step u = true → run_step u = inr (u1, e1) →
  (filter is_model_event e1 = [] ∧ filter is_buffer_event e1 = [] ∧
   buffer u1 = buffer u ∧ first_step u1 = false ∧
   (∃ m1 ev,
      read_LPU_input (cfg u) (pm_gpot u) (pm_spike u) (mem u) = inr (m1, ev) ∧
      V (mem u1) = V m1 ∧ spike_state (mem u1) = spike_state m1) ∧
   (ports_in_gpot_mem_ind (cfg u) = None → V (mem u1) = V (mem u)) ∧
   (ports_in_spk_mem_ind (cfg u) = None →
      spike_state (mem u1) = spike_state (mem u))) ∧
  (∀ w w' e, first_step w = false → run_step w = inr (w', e) →
     Forall is_Some (neurons w) ∧
     filter is_neuron_eval e = NeuronEval <$> seq 0 (length (neurons w)) ∧
     filter is_buffer_event e = [BufferWrite; BufferStep] ∧
     first_step w' = false).
Proof.
  intros Hf H. split.
  - destruct (run_step_first u u1 e1 Hf H) as (Hq & Hb & Hfs & m1 & ev & Hr & HV & HS).
    split; [by apply quiet_filter_model|].
    split; [by apply quiet_filter_buffer|].
    split; [done|]. split; [done|].
    split; [eauto 6|].
    destruct (read_LPU_input_V _ _ _ _ _ _ Hr) as (Hg & Hs & _).
    split; intros Hp; [rewrite HV; auto | rewrite HS; auto].
  - intros w w' e Hw Hrun.
    destruct (run_step_later w w' e Hw Hrun) as (? & ? & ? & ? & ?). done.
Qed.
End WithPlugins.

Lemma first_tick_primes_later_ticks_update_witness :
  ∃ u u1 u2,
    Examples.primed (Examples.graded_pair "MorrisLecar") Examples.no_ports
      Examples.no_gpot_data Examples.no_spike_data = inr (u, []) ∧
    first_step u = true ∧
    run_step (P := Examples.plugins) u = inr (u1, []) ∧
    V (mem u1) = V (mem u) ∧
    run_step (P := Examples.plugins) u1 =
      inr (u2, [NeuronUpdateI 0; NeuronEval 0; BufferWrite; BufferStep]) ∧
    filter is_neuron_eval [NeuronUpdateI 0; NeuronEval 0; BufferWrite; BufferStep] =
      NeuronEval <$> seq 0 (length (neurons u1)).
Proof.
  eexists _, _, _. split; [vm_compute; reflexivity|].
  split; [reflexivity|].
  split; [vm_compute; reflexivity|].
  match goal with |- V (mem ?u1) = V (mem ?u) ∧ run_step ?u1 = inr (?u2, ?e2) ∧ _ =>
    destruct (first_tick_primes_later_ticks_update (P := Examples.plugins) u u1 [])
      as [(_ & _ & _ & Hf & _ & HV & _) Hlater];
      [reflexivity|vm_compute; reflexivity|];
    split; [apply HV; reflexivity|];
    split; [vm_compute; reflexivity|];
    destruct (Hlater u1 u2 e2) as (_ & Hev & _);
      [reflexivity|vm_compute; reflexivity|exact Hev]
  end.
Defined.

(** C3 as stated fails on "leaving neuron state unchanged": in a unit
    with one graded input port the first tick copies the port value 5
    into the graded state, which held 0. *)
Lemma first_tick_gathers_port_input :
  ∃ u u1,
    Examples.primed Examples.in_port Examples.in_port_inds
      {| dtype_of := float64; data := [5%Q] |} Examples.no_spike_data = inr (u, []) ∧
    first_step u = true ∧
    run_step (P := Examples.plugins) u = inr (u1, [KernelSetInds 1]) ∧
    V (mem u) = Some {| dtype_of := float64; data := [0%Q] |} ∧
    V (mem u1) = Some {| dtype_of := float64; data := [5%Q] |} ∧
    V (mem u1) ≠ V (mem u).
Proof.
  eexists _, _. split; [vm_compute; reflexivity|].
  split; [reflexivity|]. split; [vm_compute; reflexivity|].
  split; [reflexivity|]. split; [reflexivity|]. discriminate.
Qed.

(** A tick over a list of instances that holds [None] raises. *)
Lemma update_neurons_None {P : Plugins} ns k m :
  None ∈ ns → update_neurons k ns m = raise AttributeError.
Proof.
  intros H. revert k m. induction ns as [|[n|] ns IH]; intros k m.
  - by apply elem_of_nil in H.
  - apply elem_of_cons in H as [H|H]; [discriminate|].
    cbn [update_neurons]. by rewrite (IH H).
  - reflexivity.
Qed.

(** C9 fails after construction: a model name that is neither registered
    nor an integer is logged and [None] is stored in [neurons]; the
    first tick passes, every later tick raises [AttributeError]. *)
Lemma unknown_model_breaks_second_tick :
  ∃ u u1,
    Examples.primed (Examples.graded_pair "NoSuchModel") Examples.no_ports
      Examples.no_gpot_data Examples.no_spike_data
      = inr (u, [Log "Error instantiating neurons of model 'NoSuchModel'"]) ∧
    neurons u = [None] ∧
    run_step (P := Examples.plugins) u = inr (u1, []) ∧
    neurons u1 = [None] ∧
    run_step (P := Examples.plugins) u1 = inl AttributeError.
Proof.
  eexists _, _. split; [vm_compute; reflexivity|].
  split; [reflexivity|]. split; [vm_compute; reflexivity|].
  split; [reflexivity|]. vm_compute; reflexivity.
Qed.
End LPUFacts.

(** ** The packed numbering, once more *)

Module IndexSpaceMore.
Import Numpy IndexSpace Synapses NumpyFacts IndexSpaceFacts.

(** The three dictionaries of a valid unit number their arrays. *)
Lemma index_numbers nl sp :
  valid_input nl → build_index nl = Some sp →
  idx sp = gpot_idx sp ++ spike_idx sp ∧
  idx sp ≡ₚ all_ids nl ∧
  numbers (order_dict sp) (idx sp) ∧
  numbers (gpot_order_dict sp) (gpot_idx sp) ∧
  numbers (spike_order_dict sp) (spike_idx sp).
Proof.
  intros Hv Hb.
  destruct (build_index_valid nl Hv) as (sp' & Hb' & _ & _ & Hi & Hp & Ho & Hog & Hos).
  rewrite Hb in Hb'. injection Hb' as <-.
  assert (NoDup (idx sp)) as Hnd by (rewrite Hp; apply Hv).
  pose proof Hnd as Hnd'. rewrite Hi in Hnd'. apply NoDup_app in Hnd' as (Hg & _ & Hs).
  split; [done|]. split; [done|].
  rewrite Ho, Hog, Hos. split; [|split]; by apply enumerate_numbers.
Qed.

(** X1: the dictionary of all neurons agrees with the two per-kind
    dictionaries: a graded id has the same position in both, a spiking id
    sits [len(gpot_idx)] further in [order_dict] than in
    [spike_order_dict], and no id is in both per-kind dictionaries. *)
Theorem order_splits_by_kind (nl : n_list) (sp : index_space) :
  valid_input nl → build_index nl = Some sp →
  ∀ id p, order sp id = Some p ↔
    (gpot_order sp id = Some p ∧ spike_order sp id = None) ∨
    (gpot_order sp id = None ∧
     ∃ q, spike_order sp id = Some q ∧ p = (length (gpot_idx sp) + q)%nat).
Proof.
  intros Hv Hb id p.
  destruct (index_numbers nl sp Hv Hb) as (Hi & Hp & Hn & Hg & Hs).
  assert (NoDup (gpot_idx sp ++ spike_idx sp)) as Hnd.
  { rewrite <- Hi, Hp. apply Hv. }
  apply NoDup_app in Hnd as (_ & Hdisj & _).
  unfold order, gpot_order, spike_order.
  assert (∀ x, x ∈ gpot_idx sp → spike_order_dict sp !! x = None) as Hgs.
  { intros x Hx. destruct (spike_order_dict sp !! x) as [q|] eqn:E; [|done].
    apply Hs in E. apply list_elem_of_lookup_2 in E. by destruct (Hdisj x). }
  assert (∀ x, x ∈ spike_idx sp → gpot_order_dict sp !! x = None) as Hsg.
  { intros x Hx. destruct (gpot_order_dict sp !! x) as [q|] eqn:E; [|done].
    apply Hg in E. apply list_elem_of_lookup_2 in E. by destruct (Hdisj x). }
  rewrite (Hn id p), Hi. rewrite lookup_app_Some. split.
  - intros [H|[Hlen H]].
    + left. split; [by apply Hg|]. apply Hgs. by eapply list_elem_of_lookup_2.
    + right. split; [apply Hsg; by eapply list_elem_of_lookup_2|].
      exists (p - length (gpot_idx sp))%nat. split; [by apply Hs|lia].
  - intros [[H _]|[_ (q & H & ->)]].
    + left. by apply Hg.
    + right. split; [lia|]. apply Hs in H.
      by replace (length (gpot_idx sp) + q - length (gpot_idx sp))%nat with q by lia.
Qed.


Lemma order_splits_by_kind_witness :
  ∃ sp, build_index Scenarios.mixed = Some sp ∧
    ∀ id p, order sp id = Some p ↔
      (gpot_order sp id = Some p ∧ spike_order sp id = None) ∨
      (gpot_order sp id = None ∧
       ∃ q, spike_order sp id = Some q ∧ p = (length (gpot_idx sp) + q)%nat).
Proof.
  eexists. split; [vm_compute; reflexivity|].
  apply (order_splits_by_kind Scenarios.mixed).
  - split; [|split]; [repeat constructor|repeat constructor; lia|compute_done].
  - vm_compute; reflexivity.
Defined.

End IndexSpaceMore.

(** ** Model offsets *)

Module OffsetFacts.
Import Numpy IndexSpace Synapses Gateway LPU NumpyFacts IndexSpaceFacts IndexSpaceMore Layout.

Lemma cumsum_from_lookup (l : list nat) : ∀ s i,
  (i < length l)%nat → cumsum_from s l !! i = Some (s + sum_list (take (S i) l))%nat.
Proof.
  induction l as [|x l IH]; intros s i Hi; simpl in Hi; [lia|].
  destruct i as [|i]; simpl.
  - f_equal. unfold sum_list. destruct l; simpl; lia.
  - rewrite IH by lia. f_equal. unfold sum_list. simpl. lia.
Qed.

Lemma idx_start_lookup (l : list nat) i :
  (i ≤ length l)%nat → idx_start l !! i = Some (sum_list (take i l)).
Proof.
  intros Hi. unfold idx_start. destruct i as [|i]; [done|]. simpl.
  rewrite cumsum_from_lookup by lia. done.
Qed.

Lemma length_concat_sum {A} (ls : list (list A)) :
  length (concat ls) = sum_list (length <$> ls).
Proof. induction ls as [|x ls IH]; [done|]. csimpl. rewrite length_app, IH. done. Qed.

Lemma concat_lookup {A} (ls : list (list A)) : ∀ i x j y,
  ls !! i = Some x → x !! j = Some y →
  concat ls !! (sum_list (length <$> take i ls) + j)%nat = Some y.
Proof.
  induction ls as [|z ls IH]; intros i x j y Hi Hj; [done|].
  destruct i as [|i].
  - simpl in *. simplify_eq. by apply lookup_app_l_Some.
  - simpl in Hi. specialize (IH i x j y Hi Hj).
    assert (sum_list (length <$> take (S i) (z :: ls)) =
            (length z + sum_list (length <$> take i ls))%nat) as -> by reflexivity.
    cbn [concat]. rewrite lookup_app_r by lia. rewrite <- IH. f_equal. lia.
Qed.

(** With a fixed flag a model belongs to one block as a whole. *)
Lemma model_block_fixed m b flag :
  columns_ok m → kind_fixed m → head (spiking m) = Some b →
  model_block flag m = if decide (flag = b) then ids m else [].
Proof.
  intros (Hl & _) Hk Hh. unfold model_block.
  assert (Forall (λ x, x = b) (spiking m)) as Hall.
  { apply Forall_forall. intros x Hx. apply Hk; [done|].
    destruct (spiking m); simplify_eq/=. by left. }
  clear Hk Hh. revert Hl Hall. generalize (spiking m) as fl.
  induction (ids m) as [|x l IH]; intros [|f fl] Hl Hall; simplify_eq/=.
  - by destruct (decide _).
  - apply Forall_cons in Hall as [-> Hall]. rewrite filter_cons. simpl.
    specialize (IH fl Hl Hall).
    destruct (decide (flag = b)) as [->|Hne].
    + rewrite decide_True by done. csimpl. by rewrite IH.
    + rewrite decide_False by done. done.
Qed.

Lemma block_lengths nl flags flag :
  Forall (λ p : string * n_model, columns_ok p.2) nl →
  Forall (λ p : string * n_model, kind_fixed p.2) nl →
  mapM (λ e : string * n_model, head (spiking e.2)) nl = Some flags →
  (λ e : string * n_model, length (model_block flag e.2)) <$> nl =
  zip_with (λ (b : bool) n, if decide (flag = b) then n else 0%nat) flags
    ((λ e : string * n_model, length (ids e.2)) <$> nl).
Proof.
  intros Hc Hk Hm. apply mapM_Some_1 in Hm. revert Hc Hk.
  induction Hm as [|[t m] b nl flags Hh _ IH]; intros Hc Hk; [done|].
  apply Forall_cons in Hc as [Hc1 Hc]. apply Forall_cons in Hk as [Hk1 Hk].
  csimpl. rewrite IH by done. f_equal.
  rewrite (model_block_fixed m b flag) by done. by destruct (decide _).
Qed.

(** What the constructor stores about the sizes of the models. *)
Lemma init_layout argsort dt0 nl sl input out dbg pinds c :
  LPU.init argsort dt0 nl sl input out dbg pinds = Some c →
  ∃ flags,
    mapM (λ e : string * n_model, head (spiking e.2)) nl = Some flags ∧
    build_index nl = Some (space c) ∧
    n_list_of c = nl ∧
    idx_start_gpot c =
      idx_start (zip_with (λ (b : bool) n, if b then 0%nat else n) flags
                   ((λ e : string * n_model, length (ids e.2)) <$> nl)) ∧
    idx_start_spike c =
      idx_start (zip_with (λ (b : bool) n, if b then n else 0%nat) flags
                   ((λ e : string * n_model, length (ids e.2)) <$> nl)) ∧
    total_num_gpot_neurons c =
      sum_list (zip_with (λ (b : bool) n, if b then 0%nat else n) flags
                   ((λ e : string * n_model, length (ids e.2)) <$> nl)) ∧
    total_num_spike_neurons c =
      sum_list (zip_with (λ (b : bool) n, if b then n else 0%nat) flags
                   ((λ e : string * n_model, length (ids e.2)) <$> nl)).
Proof.
  unfold LPU.init. intros H.
  repeat match type of H with
  | mbind _ _ = Some _ => apply bind_Some in H as (? & ? & H)
  end.
  match goal with
  | x : (list (string * s_resolved) * acc)%type |- _ => destruct x as [rs a]
  end.
  destruct (Qeq_bool dt0 0); [discriminate|].
  simplify_eq. eexists. simpl. repeat split; eauto.
Qed.

Lemma zip_with_flag_ext (flag : bool) flags (l : list nat) :
  zip_with (λ (b : bool) n, if decide (flag = b) then n else 0%nat) flags l =
  zip_with (λ (b : bool) n, if (if flag then b else negb b) then n else 0%nat) flags l.
Proof.
  revert l. induction flags as [|b flags IH]; intros [|n l]; simpl; try done.
  rewrite IH. f_equal. by destruct flag, b.
Qed.

(** X2: when the [spiking] flag is fixed within each model, the totals the
    constructor computes from the first flag of each model are the sizes of
    the two blocks, and [idx_start_gpot[i]] / [idx_start_spike[i]] is the
    position, within its block, of the first neuron of model [i]: the
    [j]-th neuron of the model has position [idx_start[i] + j] in
    [gpot_order_dict] / [spike_order_dict]. *)
Theorem idx_start_is_model_offset (argsort : list Z → list nat) (dt0 : Q)
    (nl : n_list) (sl : s_list) (input : option Feeder.h5array)
    (out dbg : bool) (pinds : port_inds) (c : config) :
  valid_input nl →
  Forall (λ p : string * n_model, kind_fixed p.2) nl →
  LPU.init argsort dt0 nl sl input out dbg pinds = Some c →
  total_num_gpot_neurons c = length (gpot_idx (space c)) ∧
  total_num_spike_neurons c = length (spike_idx (space c)) ∧
  ∀ i t m j id,
    nl !! i = Some (t, m) → ids m !! j = Some id →
    (head (spiking m) = Some false ∧
     ∃ off, idx_start_gpot c !! i = Some off ∧
            gpot_order (space c) id = Some (off + j)%nat) ∨
    (head (spiking m) = Some true ∧
     ∃ off, idx_start_spike c !! i = Some off ∧
            spike_order (space c) id = Some (off + j)%nat).
Proof.
  intros Hv Hk H. pose proof Hv as (Hc & _ & _).
  destruct (init_layout _ _ _ _ _ _ _ _ _ H)
    as (flags & Hm & Hb & _ & Hig & His & Htg & Hts).
  destruct (build_index_valid nl Hv) as (sp' & Hb' & Hg & Hs & _).
  rewrite Hb in Hb'. injection Hb' as <-.
  destruct (index_numbers nl _ Hv Hb) as (_ & _ & _ & Hng & Hns).
  pose proof (block_lengths nl flags false Hc Hk Hm) as Hlg.
  pose proof (block_lengths nl flags true Hc Hk Hm) as Hls.
  rewrite zip_with_flag_ext in Hlg, Hls. simpl in Hlg, Hls.
  assert (∀ l : list nat,
    zip_with (λ (b : bool) n, if negb b then n else 0%nat) flags l =
    zip_with (λ (b : bool) n, if b then 0%nat else n) flags l) as Hneg.
  { intros l. apply zip_with_ext; [|done..]. intros [] ?; done. }
  rewrite Hneg in Hlg.
  split; [|split].
  - rewrite Htg, Hg, length_concat_sum, <- list_fmap_compose. by rewrite <- Hlg.
  - rewrite Hts, Hs, length_concat_sum, <- list_fmap_compose. by rewrite <- Hls.
  - intros i t m j id Hi Hj.
    assert (i < length nl)%nat as Hlt by (by eapply lookup_lt_Some).
    pose proof (mapM_Some_1 _ _ _ Hm) as HF.
    destruct (Forall2_lookup_l _ _ _ _ _ HF Hi) as (b & Hfb & Hhead). simpl in Hhead.
    pose proof (proj1 (Forall_forall _ _) Hc _ (list_elem_of_lookup_2 _ _ _ Hi)) as Hcm.
    pose proof (proj1 (Forall_forall _ _) Hk _ (list_elem_of_lookup_2 _ _ _ Hi)) as Hkm.
    simpl in Hcm, Hkm.
    destruct b; [right|left]; (split; [done|]).
    + exists (sum_list (length <$>
                take i ((λ e : string * n_model, model_block true e.2) <$> nl))).
      split.
      * rewrite His, <- Hls. rewrite idx_start_lookup by (rewrite length_fmap; lia).
        do 2 f_equal. rewrite fmap_take, <- list_fmap_compose. done.
      * apply Hns. rewrite Hs.
        apply (concat_lookup _ i (model_block true m)).
        -- rewrite list_lookup_fmap. unfold n_list in *. by rewrite Hi.
        -- rewrite (model_block_fixed m true true) by done. by rewrite decide_True.
    + exists (sum_list (length <$>
                take i ((λ e : string * n_model, model_block false e.2) <$> nl))).
      split.
      * rewrite Hig, <- Hlg. rewrite idx_start_lookup by (rewrite length_fmap; lia).
        do 2 f_equal. rewrite fmap_take, <- list_fmap_compose. done.
      * apply Hng. rewrite Hg.
        apply (concat_lookup _ i (model_block false m)).
        -- rewrite list_lookup_fmap. unfold n_list in *. by rewrite Hi.
        -- rewrite (model_block_fixed m false false) by done. by rewrite decide_True.
Qed.

Lemma idx_start_is_model_offset_witness :
  ∃ c,
    LPU.init argsort_stable (1 # 10000) Scenarios.mixed [] None false false
      Examples.no_ports = Some c ∧
    total_num_gpot_neurons c = length (gpot_idx (space c)) ∧
    total_num_spike_neurons c = length (spike_idx (space c)) ∧
    idx_start_spike c !! 1%nat = Some 0%nat ∧
    spike_order (space c) 2 = Some 1%nat.
Proof.
  eexists. split; [vm_compute; reflexivity|].
  match goal with |- total_num_gpot_neurons ?c = _ ∧ _ =>
    destruct (idx_start_is_model_offset argsort_stable (1 # 10000) Scenarios.mixed []
                None false false Examples.no_ports c) as (Hg & Hs & Hoff)
  end.
  - split; [|split]; [repeat constructor|repeat constructor; lia|compute_done].
  - repeat constructor; intros b b' Hb Hb'; simpl in Hb, Hb';
      repeat (apply elem_of_cons in Hb as [->|Hb]);
      repeat (apply elem_of_cons in Hb' as [->|Hb']);
      try reflexivity; try (by apply elem_of_nil in Hb); by apply elem_of_nil in Hb'.
  - vm_compute; reflexivity.
  - split; [exact Hg|]. split; [exact Hs|].
    destruct (Hoff 1%nat _ _ 1%nat 2 eq_refl eq_refl)
      as [[Hh _]|[_ (off & Ho & Hp)]]; [discriminate Hh|].
    assert (off = 0%nat) as -> by (vm_compute in Ho; congruence).
    split; [exact Ho|exact Hp].
Defined.

End OffsetFacts.

(** ** Input channels, empty units, dangling references *)

Module ConstructMore.
Import Numpy IndexSpace Synapses Gateway LPU NumpyFacts IndexSpaceFacts IndexSpaceMore
  CompileFacts Layout.

Lemma Forall2_NoDup {A B} (R : A → B → Prop) xs ys :
  (∀ x x' y, R x y → R x' y → x = x') →
  Forall2 R xs ys → NoDup xs → NoDup ys.
Proof.
  intros Hinj HF. induction HF as [|x y xs ys Hxy HF IH]; intros Hnd; [constructor|].
  apply NoDup_cons in Hnd as [Hx Hnd]. constructor; [|auto].
  intros Hy. apply list_elem_of_lookup in Hy as [i Hi].
  destruct (Forall2_lookup_r _ _ _ _ _ HF Hi) as (x' & Hx' & HR).
  rewrite (Hinj x x' y Hxy HR) in Hx. apply Hx. by eapply list_elem_of_lookup_2.
Qed.

(** X3: on a valid input [input_neuron_list] is built, and its [k]-th entry
    is the packed position of the [extern] neuron with the [k]-th smallest
    id; no position occurs twice.  So channel [k] of the input file, which
    is copied to [synapse_state[total_synapses + k]], belongs to that
    neuron. *)
Theorem input_neuron_list_by_ascending_id (nl : n_list) (sp : index_space) :
  valid_input nl → build_index nl = Some sp →
  ∃ l, IndexSpace.input_neuron_list nl sp = Some l ∧
    Forall2 (λ id p, order sp id = Some p) (merge_sort Z.le (extern_ids nl)) l ∧
    Sorted Z.le (merge_sort Z.le (extern_ids nl)) ∧
    merge_sort Z.le (extern_ids nl) ≡ₚ extern_ids nl ∧
    NoDup l.
Proof.
  intros Hv Hb. pose proof Hv as (Hc & _ & Hnd).
  destruct (index_numbers nl sp Hv Hb) as (_ & Hp & Hn & _).
  destruct (columns_lengths nl Hc) as [_ Hle].
  assert (extern_ids nl `sublist_of` all_ids nl) as Hsub.
  { unfold extern_ids. transitivity ((zip (all_ids nl) (n_has_in nl)).*1).
    - apply fmap_sublist, sublist_filter.
    - rewrite fst_zip; [done|lia]. }
  assert (Forall (is_Some ∘ order sp) (merge_sort Z.le (extern_ids nl))) as Hall.
  { apply Forall_forall. intros id Hid. rewrite merge_sort_Permutation in Hid.
    apply (elem_of_sublist _ _ _ Hid) in Hsub. rewrite <- Hp in Hsub.
    apply list_elem_of_lookup in Hsub as [i Hi]. exists i. by apply Hn. }
  apply mapM_is_Some_2 in Hall as [l Hl].
  exists l. split.
  { unfold IndexSpace.input_neuron_list. rewrite (n_id_valid nl Hv).
    rewrite mask_select_filter by done. simpl. exact Hl. }
  pose proof (mapM_Some_1 _ _ _ Hl) as HF.
  split; [done|]. split.
  { apply Sorted_merge_sort. intros x y. lia. }
  split; [apply merge_sort_Permutation|].
  eapply Forall2_NoDup; [|exact HF|].
  - intros x x' p Hx Hx'. unfold order in *. apply Hn in Hx, Hx'. congruence.
  - rewrite merge_sort_Permutation. by eapply sublist_NoDup.
Qed.

(** X4: the constructor refuses a table without neurons, a model whose
    [spiking] column is empty and a time step of zero: a unit that was
    constructed has at least one model, at least one neuron id, a first
    [spiking] flag in every model, and a time step that is not zero. *)
Theorem constructed_unit_is_not_empty (argsort : list Z → list nat) (dt0 : Q)
    (nl : n_list) (sl : s_list) (input : option Feeder.h5array)
    (out dbg : bool) (pinds : port_inds) (c : config) :
  LPU.init argsort dt0 nl sl input out dbg pinds = Some c →
  nl ≠ [] ∧ all_ids nl ≠ [] ∧
  Forall (λ e : string * n_model, spiking e.2 ≠ []) nl ∧
  ¬ (dt0 == 0)%Q.
Proof.
  unfold LPU.init. intros H.
  repeat match type of H with
  | mbind _ _ = Some _ => apply bind_Some in H as (? & ? & H)
  end.
  match type of H with (let '(_, _) := ?p in _) = _ => destruct p as [rs a] end.
  destruct (Qeq_bool dt0 0) eqn:Hdt; [done|].
  match goal with Hm : nid_max nl = Some _ |- _ => rename Hm into Hmax end.
  assert (all_ids nl ≠ []) as Hne.
  { intros He. unfold nid_max, n_id in Hmax. fold (all_ids nl) in Hmax.
    rewrite He in Hmax. done. }
  split; [|split; [done|split]].
  - intros ->. by apply Hne.
  - match goal with Hm : mapM _ nl = Some _ |- _ => apply mapM_Some_1 in Hm; rename Hm into HF end.
    apply Forall_forall. intros e He.
    apply list_elem_of_lookup in He as [i Hi].
    destruct (Forall2_lookup_l _ _ _ _ _ HF Hi) as (b & _ & Hb).
    intros Hnil. rewrite Hnil in Hb. done.
  - intros Hq. apply Qeq_bool_iff in Hq. congruence.
Qed.

(** X5: a synapse model is resolved only if every [pre] id is a neuron of
    the kind its class names (spiking for classes 0 and 1, graded
    otherwise) and every neuron [post] id is a neuron of the unit. *)
Theorem resolved_references_exist (argsort : list Z → list nat) (nl : n_list)
    (sp : index_space) (nmax : Z) (s : s_model) (r : s_resolved) (cls : Z) :
  valid_input nl → build_index nl = Some sp →
  resolve_model argsort sp nmax s = Some r →
  head (class s) = Some cls →
  Forall (λ nid, nid ∈ (if decide (cls ≤ 1) then spike_idx sp else gpot_idx sp)) (pre s) ∧
  Forall (λ nid, nid ∈ all_ids nl) (neuron_targets (post s)).
Proof.
  intros Hv Hb Hr Hcls.
  destruct (index_numbers nl sp Hv Hb) as (_ & Hp & Hn & Hg & Hs).
  apply resolve_model_inv in Hr as (pre' & post' & (cls' & neu & Hc & Hpre & Hneu & _) & _).
  rewrite Hcls in Hc. injection Hc as <-. split.
  - apply mapM_Some_1 in Hpre. apply Forall_forall. intros nid Hin.
    apply list_elem_of_lookup in Hin as [i Hi].
    destruct (Forall2_lookup_l _ _ _ _ _ Hpre Hi) as (p & _ & Hres).
    unfold resolve_pre, spike_order, gpot_order in Hres.
    destruct (decide (cls ≤ 1)).
    + apply Hs in Hres. by eapply list_elem_of_lookup_2.
    + apply Hg in Hres. by eapply list_elem_of_lookup_2.
  - unfold s_neu_post in Hneu. apply mapM_Some_1 in Hneu.
    apply Forall_forall. intros nid Hin.
    apply list_elem_of_lookup in Hin as [i Hi].
    destruct (Forall2_lookup_l _ _ _ _ _ Hneu Hi) as (p & _ & Hres).
    apply fmap_Some in Hres as (q & Hq & _). unfold order in Hq.
    apply Hn in Hq. rewrite <- Hp. by eapply list_elem_of_lookup_2.
Qed.

Lemma input_neuron_list_by_ascending_id_witness :
  ∃ sp, build_index Scenarios.mixed = Some sp ∧
    IndexSpace.input_neuron_list Scenarios.mixed sp = Some [3%nat; 0%nat] ∧
    merge_sort Z.le (extern_ids Scenarios.mixed) = [2; 3].
Proof.
  eexists. split; [vm_compute; reflexivity|].
  match goal with |- IndexSpace.input_neuron_list _ ?sp = _ ∧ _ =>
    destruct (input_neuron_list_by_ascending_id Scenarios.mixed sp)
      as (l & Hl & _ & _ & _ & _)
  end.
  - split; [|split]; [repeat constructor|repeat constructor; lia|compute_done].
  - vm_compute; reflexivity.
  - split; [|vm_compute; reflexivity].
    rewrite Hl. vm_compute in Hl. congruence.
Defined.

Lemma constructed_unit_is_not_empty_witness :
  ∃ c,
    LPU.init argsort_stable (1 # 10000) Scenarios.mixed [] None false false
      Examples.no_ports = Some c ∧
    Scenarios.mixed ≠ [] ∧ ¬ ((1 # 10000) == 0)%Q.
Proof.
  eexists. split; [vm_compute; reflexivity|].
  match goal with |- _ =>
    destruct (constructed_unit_is_not_empty argsort_stable (1 # 10000) Scenarios.mixed []
                None false false Examples.no_ports _ eq_refl) as (Hn & _ & _ & Hd)
  end.
  split; [exact Hn|exact Hd].
Defined.

Lemma resolved_references_exist_witness :
  ∃ r,
    resolve_model argsort_stable Examples.pair_space 2 Examples.onto_synapse = Some r ∧
    Forall (λ nid, nid ∈ spike_idx Examples.pair_space) (pre Examples.onto_synapse) ∧
    Forall (λ nid, nid ∈ all_ids Examples.spiking_pair)
      (neuron_targets (post Examples.onto_synapse)).
Proof.
  destruct (resolve_model argsort_stable Examples.pair_space 2 Examples.onto_synapse)
    as [r|] eqn:Hr; [|vm_compute in Hr; discriminate Hr].
  exists r. split; [reflexivity|].
  destruct (resolved_references_exist argsort_stable Examples.spiking_pair
              Examples.pair_space 2 Examples.onto_synapse r 0) as [Hp Hq].
  - split; [|split]; [repeat constructor|repeat constructor; lia|compute_done].
  - vm_compute; reflexivity.
  - exact Hr.
  - reflexivity.
  - split; [exact Hp|exact Hq].
Defined.

End ConstructMore.

(** ** What the two kernels copy *)

Module GatewayMore.
Import Runtime Gateway.

Lemma gather_from_length src inds shift : ∀ i dest,
  length (gather_from i src dest inds shift) = length dest.
Proof.
  induction inds as [|k inds IH]; intros i dest; simpl; [done|].
  rewrite IH. destruct (src !! k); [by rewrite length_insert|done].
Qed.

Lemma gather_from_outside src inds shift : ∀ i dest j,
  (j < i + shift ∨ i + shift + length inds ≤ j)%nat →
  gather_from i src dest inds shift !! j = dest !! j.
Proof.
  induction inds as [|k inds IH]; intros i dest j Hj; simpl in *; [done|].
  rewrite IH by lia.
  destruct (src !! k); [|done]. apply list_lookup_insert_ne. lia.
Qed.

Lemma gather_from_inside src inds shift : ∀ i dest n k v,
  inds !! n = Some k → src !! k = Some v →
  (i + n + shift < length dest)%nat →
  gather_from i src dest inds shift !! (i + n + shift)%nat = Some v.
Proof.
  induction inds as [|k0 inds IH]; intros i dest n k v Hn Hk Hlt; [done|].
  destruct n as [|n]; simpl in *.
  - injection Hn as ->. rewrite Hk.
    rewrite gather_from_outside by lia.
    replace (i + 0 + shift)%nat with (i + shift)%nat by lia.
    apply list_lookup_insert_eq. lia.
  - replace (i + S n + shift)%nat with (S i + n + shift)%nat by lia.
    eapply IH; [done..|].
    destruct (src !! k0); [rewrite length_insert|]; lia.
Qed.

(** X6: [set_inds] on arrays of one element type, with every index inside
    [src] and the shifted window inside [dest], launches one kernel and
    returns [dest] with [dest[i + dest_shift] = src[inds[i]]] for every
    [i < len(inds)], every other element, the length and the element
    type as they were. *)
Theorem set_inds_gathers (src dest : gpuarray) (inds : list nat) (shift : nat) :
  dtype_of src = dtype_of dest →
  Forall (λ k, (k < length (data src))%nat) inds →
  (shift + length inds ≤ length (data dest))%nat →
  ∃ d, set_inds src dest inds shift = inr (d, [KernelSetInds (length inds)]) ∧
    dtype_of d = dtype_of dest ∧
    length (data d) = length (data dest) ∧
    (∀ i k, inds !! i = Some k → data d !! (i + shift)%nat = data src !! k) ∧
    (∀ j, (j < shift ∨ shift + length inds ≤ j)%nat → data d !! j = data dest !! j).
Proof.
  intros Hdt Hin Hlen. unfold set_inds. rewrite decide_True by done.
  eexists. split; [reflexivity|]. simpl.
  split; [done|]. split; [apply gather_from_length|]. split.
  - intros i k Hi.
    pose proof (proj1 (Forall_lookup _ _) Hin i k Hi) as Hk. simpl in Hk.
    destruct (lookup_lt_is_Some_2 (data src) k Hk) as [v Hv].
    rewrite Hv. apply (gather_from_inside _ _ _ 0%nat _ i k v Hi Hv).
    apply lookup_lt_Some in Hi. lia.
  - intros j Hj. apply gather_from_outside. lia.
Qed.






Lemma set_inds_gathers_witness :
  ∃ d,
    set_inds (Scenarios.doubles [1; 2; 3]%Q) (zeros 4 float64) [2%nat; 0%nat] 1
      = inr (d, [KernelSetInds 2]) ∧
    data d !! 1%nat = Some 3%Q ∧ data d !! 2%nat = Some 1%Q ∧
    data d !! 0%nat = Some 0%Q ∧ data d !! 3%nat = Some 0%Q.
Proof.
  destruct (set_inds_gathers (Scenarios.doubles [1; 2; 3]%Q) (zeros 4 float64)
              [2%nat; 0%nat] 1) as (d & Hd & _ & _ & Hin & Hout).
  - reflexivity.
  - repeat constructor; simpl; lia.
  - simpl; lia.
  - exists d. split; [exact Hd|].
    split; [exact (Hin 0%nat 2%nat eq_refl)|].
    split; [exact (Hin 1%nat 0%nat eq_refl)|].
    split; [apply (Hout 0%nat); simpl; lia|apply (Hout 3%nat); simpl; lia].
Defined.


End GatewayMore.

(** ** The delay buffer over many ticks *)

Module DelayLineFacts.
Import CircularArray Gateway LPU DelayLine CircularArrayFacts.

Lemma tick_count k c b m : count k (step (update_buffer c b m)) = count k b.
Proof. by destruct k. Qed.
Lemma tick_depth k c b m : depth k (step (update_buffer c b m)) = depth k b.
Proof. by destruct k. Qed.
Lemma tick_cursor k c b m :
  cursor k (step (update_buffer c b m)) =
    if decide (0 < count k b) then advance (depth k b) <$> cursor k b else cursor k b.
Proof. by destruct k. Qed.
Lemma tick_rows k c b m :
  rows k (step (update_buffer c b m)) =
    if decide (0 < total_of k c)%nat
    then write_row (rows k b) (cursor k b) (state_of k m) else rows k b.
Proof. by destruct k. Qed.

Lemma ticks_count k c ms : ∀ b, count k (buffer_ticks c b ms) = count k b.
Proof.
  induction ms as [|m ms IH]; intros b; simpl; [done|].
  by rewrite IH, tick_count.
Qed.
Lemma ticks_depth k c ms : ∀ b, depth k (buffer_ticks c b ms) = depth k b.
Proof.
  induction ms as [|m ms IH]; intros b; simpl; [done|].
  by rewrite IH, tick_depth.
Qed.

Lemma mod_shift_ne (a j d : Z) : 0 < j < d → (a - j) mod d ≠ a mod d.
Proof.
  intros Hj Heq.
  pose proof (Z.div_mod a d ltac:(lia)) as H1.
  pose proof (Z.div_mod (a - j) d ltac:(lia)) as H2.
  rewrite Heq in H2.
  assert (j = d * (a / d - (a - j) / d)) as Hd by lia.
  destruct (Z_le_gt_dec (a / d - (a - j) / d) 0); nia.
Qed.

(** X8: the delay buffer keeps the states of the last [depth] evaluated
    ticks.  Starting from a cursor inside a buffer of [depth] rows, after
    the ticks with states [ms] the cursor stands at
    [(cur + len(ms)) mod depth], and the row [j + 1] places behind it
    (cyclically) holds the state of the tick [j] before the last one, or
    what the buffer held at the start if fewer than [j + 1] ticks ran. *)
Theorem buffer_keeps_last_states (k : kind) (c : config) (b : CircularArray.t)
    (ms : list memory) (cur : Z) :
  (0 < total_of k c)%nat → 0 < count k b →
  cursor k b = Some cur → 0 ≤ cur < depth k b →
  length (rows k b) = Z.to_nat (depth k b) →
  let b' := buffer_ticks c b ms in
  let n := length ms in
  cursor k b' = Some ((cur + Z.of_nat n) mod depth k b) ∧
  length (rows k b') = Z.to_nat (depth k b) ∧
  ∀ j : nat, Z.of_nat j < depth k b →
    rows k b' !! Z.to_nat ((cur + Z.of_nat n - 1 - Z.of_nat j) mod depth k b) =
      if decide (j < n)%nat then state_of k <$> ms !! (n - 1 - j)%nat
      else rows k b !! Z.to_nat ((cur + Z.of_nat n - 1 - Z.of_nat j) mod depth k b).
Proof.
  intros Ht Hc Hcur Hin Hlen. cbv zeta.
  induction ms as [|m ms IH] using rev_ind.
  { simpl. rewrite Z.add_0_r, Z.mod_small by lia. split; [done|]. split; [done|].
    intros j Hj. reflexivity. }
  destruct IH as (IHc & IHl & IHr).
  unfold buffer_ticks in *. rewrite foldl_app. simpl.
  set (b1 := foldl (λ b m, step (update_buffer c b m)) b ms) in *.
  assert (depth k b1 = depth k b) as Hd by apply (ticks_depth k c ms b).
  assert (count k b1 = count k b) as Hn by apply (ticks_count k c ms b).
  rewrite length_app. simpl length.
  set (n := length ms) in *. set (d := depth k b) in *.
  assert (0 ≤ (cur + Z.of_nat n) mod d < d) as Hpos by (apply Z.mod_pos_bound; lia).
  rewrite tick_cursor, tick_rows, Hn, Hd, IHc.
  rewrite !decide_True by done. simpl.
  split; [|split].
  - rewrite advance_mod by done. f_equal.
    rewrite Zplus_mod_idemp_l. f_equal. lia.
  - by rewrite length_insert.
  - intros j Hj.
    replace (cur + Z.of_nat (n + 1) - 1 - Z.of_nat j)
      with (cur + Z.of_nat n - Z.of_nat j) by lia.
    destruct j as [|j].
    + rewrite decide_True by lia.
      replace (cur + Z.of_nat n - Z.of_nat 0) with (cur + Z.of_nat n) by lia.
      rewrite list_lookup_insert_eq by lia.
      replace (n + 1 - 1 - 0)%nat with n by lia.
      rewrite lookup_app_r by (unfold n; lia).
      replace (n - length ms)%nat with 0%nat by (unfold n; lia). done.
    + rewrite list_lookup_insert_ne; last first.
      { pose proof (mod_shift_ne (cur + Z.of_nat n) (Z.of_nat (S j)) d ltac:(lia)) as Hne.
        assert (0 ≤ (cur + Z.of_nat n - Z.of_nat (S j)) mod d < d)
          by (apply Z.mod_pos_bound; lia).
        lia. }
      replace (cur + Z.of_nat n - Z.of_nat (S j))
        with (cur + Z.of_nat n - 1 - Z.of_nat j) by lia.
      rewrite IHr by lia.
      destruct (decide (j < n)%nat) as [Hjn|Hjn].
      * rewrite decide_True by lia.
        rewrite lookup_app_l by (unfold n in *; lia).
        do 2 f_equal. lia.
      * rewrite decide_False by lia. done.
Qed.

Lemma buffer_keeps_last_states_witness :
  ∃ c,
    LPU.init Numpy.argsort_stable (1 # 10000) (Examples.graded_pair "MorrisLecar")
      [] None false false Examples.no_ports = Some c ∧
    let b := CircularArray.init 2 3 [0%Q; 0%Q] 0 1 in
    let ms := [Scenarios.graded_memory [1; 1]%Q; Scenarios.graded_memory [2; 2]%Q] in
    cursor Gpot (buffer_ticks c b ms) = Some 2 ∧
    rows Gpot (buffer_ticks c b ms) !! 1%nat = Some [2; 2]%Q ∧
    rows Gpot (buffer_ticks c b ms) !! 0%nat = Some [1; 1]%Q ∧
    rows Gpot (buffer_ticks c b ms) !! 2%nat = Some [0; 0]%Q.
Proof.
  eexists. split; [vm_compute; reflexivity|].
  match goal with |- let b := ?b0 in let ms := ?ms0 in cursor Gpot (buffer_ticks ?c _ _) = _ ∧ _ =>
    destruct (buffer_keeps_last_states Gpot c b0 ms0 0) as (Hc & _ & Hr)
  end.
  - simpl; lia.
  - simpl; lia.
  - reflexivity.
  - simpl; lia.
  - reflexivity.
  - cbv zeta. split; [exact Hc|].
    split; [exact (Hr 0%nat ltac:(simpl; lia))|].
    split; [exact (Hr 1%nat ltac:(simpl; lia))|].
    exact (Hr 2%nat ltac:(simpl; lia)).
Defined.

End DelayLineFacts.

(** ** The input file over many calls *)

Module FeederMore.
Import Runtime Feeder FeederInvariant.

Lemma bind_ret_r {A} (m : M A) : Runtime.bind m ret = m.
Proof. destruct m as [e|[x evs]]; simpl; [done|]. by rewrite app_nil_r. Qed.

Lemma bind_assoc {A B C} (m : M A) (k : A → M B) (h : B → M C) :
  Runtime.bind (Runtime.bind m k) h = Runtime.bind m (λ x, Runtime.bind (k x) h).
Proof.
  destruct m as [e|[x evs]]; simpl; [done|].
  destruct (k x) as [e|[y evs']]; simpl; [done|].
  destruct (h y) as [e|[z evs'']]; simpl; [done|]. by rewrite app_assoc.
Qed.

Lemma read_n_snoc n ts ni : ∀ st,
  read_n (S n) ts ni st =
    Runtime.bind (read_n n ts ni st) (read_external_input ts ni).
Proof.
  induction n as [|n IH]; intros st.
  - simpl. rewrite bind_ret_r.
    destruct (read_external_input ts ni st) as [e|[x evs]]; simpl; [done|done].
  - change (read_n (S (S n)) ts ni st)
      with (Runtime.bind (read_external_input ts ni st) (read_n (S n) ts ni)).
    change (read_n (S n) ts ni st)
      with (Runtime.bind (read_external_input ts ni st) (read_n n ts ni)).
    rewrite bind_assoc.
    destruct (read_external_input ts ni st) as [e|[x evs]]; [done|].
    cbn [Runtime.bind]. rewrite IH. reflexivity.
Qed.

Lemma list_inserts_overwrite {A} (i : nat) (k1 k2 l : list A) :
  length k1 = length k2 →
  list_inserts i k1 (list_inserts i k2 l) = list_inserts i k1 l.
Proof.
  intros Hk. apply list_eq. intros j.
  destruct (decide (i ≤ j < i + length k1)%nat) as [Hin|Hout].
  - destruct (decide (j < length l)%nat) as [Hl|Hl].
    + rewrite !list_lookup_inserts by (rewrite ?length_inserts; lia). done.
    + rewrite !lookup_ge_None_2 by (rewrite ?length_inserts; lia). done.
  - destruct (decide (j < i)%nat).
    + by rewrite !list_lookup_inserts_lt by lia.
    + by rewrite !list_lookup_inserts_ge by lia.
Qed.

Lemma slice_lookup file lo w i :
  (i < w)%nat → slice file lo (lo + w) !! i = frames file !! (lo + i)%nat.
Proof.
  intros Hi. unfold slice. replace (lo + w - lo)%nat with w by lia.
  rewrite lookup_take_lt by done. by rewrite lookup_drop.
Qed.

Lemma slice_length file lo hi :
  (hi ≤ shape0 file)%nat → length (slice file lo hi) = (hi - lo)%nat.
Proof.
  intros H. unfold slice, shape0 in *. rewrite length_take, length_drop. lia.
Qed.

Lemma exhausted_call ts ni f ss :
  exhausted f →
  read_external_input ts ni (f, ss) =
    inr ((f, ss), [Log "Input end of file reached. Subsequent behaviour is undefined."]).
Proof.
  intros [He Hf]. unfold read_external_input. rewrite He. simpl.
  rewrite bool_decide_eq_false_2 by lia. simpl.
  unfold refill. rewrite He. rewrite andb_false_r. reflexivity.
Qed.

(** One call while a whole window is being read. *)
Lemma in_window_call w file ts ni ss j i row :
  (0 < w)%nat → (i < w)%nat → ((j + 1) * w ≤ shape0 file)%nat →
  frames file !! (j * w + i)%nat = Some row →
  ∃ f evs,
    read_external_input ts ni (in_window w file j i, ss) =
      inr ((f, list_inserts ts (take ni row) ss), evs) ∧
    filter is_log evs = [] ∧
    (if decide (S i < w)%nat then f = in_window w file j (S i)
     else if decide ((j + 2) * w ≤ shape0 file)%nat then f = in_window w file (S j) 0
     else exhausted f).
Proof.
  intros Hw Hi Hj Hrow.
  unfold read_external_input.
  assert (copy_frame (in_window w file j i) ts ni ss = list_inserts ts (take ni row) ss) as Hcopy.
  { unfold copy_frame. simpl. rewrite slice_lookup by done. by rewrite Hrow. }
  assert (negb (input_eof (in_window w file j i))
          || bool_decide (frame_count (in_window w file j i)
                          < frames_in_buffer (in_window w file j i))%nat = true) as ->.
  { simpl. rewrite (bool_decide_eq_true_2 (i < w)%nat) by done. apply orb_true_r. }
  rewrite Hcopy. clear Hcopy.
  cbn [Runtime.bind ret fst snd].
  unfold refill.
  cbn [with_frame_count one_time_import frame_count input_eof in_window
       input_h5file file_pointer I_ext frames_in_buffer].
  destruct (decide (S i < w)%nat) as [Hlt|Hge].
  { rewrite bool_decide_eq_false_2 by lia. cbn.
    eexists _, _. split; [reflexivity|]. split; [done|]. reflexivity. }
  rewrite bool_decide_eq_true_2 by lia.
  destruct (bool_decide (0 < j ∧ (j + 1) * w = shape0 file)%nat) eqn:Heof.
  { apply bool_decide_eq_true in Heof as [Hj0 HjN]. cbn.
    eexists _, _. split; [reflexivity|]. split; [done|].
    rewrite decide_False by lia. split; simpl.
    - apply bool_decide_eq_true. lia.
    - lia. }
  apply bool_decide_eq_false in Heof.
  cbn [negb andb].
  destruct (decide ((j + 2) * w ≤ shape0 file)%nat) as [Hmore|Hend].
  - rewrite decide_False by lia.
    replace (slice file ((j + 1) * w) ((j + 1) * w + w))
      with (slice file (S j * w) (S j * w + w)) by (f_equal; lia).
    match goal with |- context [decide (length ?a = length ?b)] =>
      destruct (decide (length a = length b)) as [Hl|Hl]
    end; [|exfalso; apply Hl; rewrite !slice_length; lia].
    cbn [Runtime.bind emit ret app file_pointer].
    eexists _, _. split; [reflexivity|]. split; [done|].
    unfold in_window.
    destruct (decide (((j + 1) * w + w)%nat = shape0 file)) as [HN|HN]; unfold with_eof; simpl.
    + f_equal; try lia. symmetry. apply bool_decide_eq_true. lia.
    + f_equal; try lia. symmetry. apply bool_decide_eq_false. lia.
  - rewrite decide_True by lia.
    match goal with |- context [decide (length ?a = length ?b)] =>
      destruct (decide (length a = length b)) as [Hl|Hl]
    end; [exfalso; rewrite !slice_length in Hl; lia|].
    cbn [Runtime.bind emit ret app file_pointer].
    rewrite decide_True by done.
    eexists _, _. split; [reflexivity|]. split; [done|].
    split; simpl; [done|].
    rewrite slice_length by lia. lia.
Qed.

Lemma whole_windows_bounds w file :
  (0 < w)%nat → (w ≤ shape0 file)%nat →
  (w ≤ whole_windows w file ≤ shape0 file)%nat.
Proof.
  intros Hw HN. unfold whole_windows.
  pose proof (Nat.div_mod (shape0 file) w ltac:(lia)) as Hdm.
  pose proof (Nat.mod_upper_bound (shape0 file) w ltac:(lia)).
  assert (1 ≤ shape0 file / w)%nat by (apply Nat.div_le_lower_bound; lia).
  nia.
Qed.

Lemma read_n_invariant w file ts ni ss :
  (0 < w)%nat → (w ≤ shape0 file)%nat →
  Forall (λ r : list Q, (ni ≤ length r)%nat) (frames file) →
  ∀ n, ∃ f ss' evs,
    read_n n ts ni (in_window w file 0 0, ss) = inr ((f, ss'), evs) ∧
    length (filter is_log evs) = (n - whole_windows w file)%nat ∧
    (∀ row, (0 < n)%nat →
       frames file !! (Nat.min n (whole_windows w file) - 1)%nat = Some row →
       ss' = list_inserts ts (take ni row) ss) ∧
    (n = 0%nat → ss' = ss) ∧
    (if decide (n < whole_windows w file)%nat
     then f = in_window w file (n / w) (n mod w)
     else exhausted f).
Proof.
  intros Hw HN Hrows.
  pose proof (whole_windows_bounds w file Hw HN) as HQ.
  induction n as [|n IH].
  { eexists _, _, _. split; [reflexivity|]. simpl.
    split; [lia|]. split; [lia|]. split; [done|].
    rewrite decide_True by lia.
    rewrite Nat.Div0.div_0_l, Nat.Div0.mod_0_l. done. }
  destruct IH as (f & ss' & evs & Hrun & Hlog & Hss & Hss0 & Hst).
  rewrite read_n_snoc, Hrun. cbn [Runtime.bind].
  destruct (decide (n < whole_windows w file)%nat) as [Hlt|Hge].
  - subst f.
    pose proof (Nat.div_mod n w ltac:(lia)) as Hdm.
    pose proof (Nat.mod_upper_bound n w ltac:(lia)) as Hmod.
    set (j := (n / w)%nat) in *. set (i := (n mod w)%nat) in *.
    assert (j < shape0 file / w)%nat as Hj.
    { unfold whole_windows in Hlt. nia. }
    assert ((j + 1) * w ≤ whole_windows w file)%nat as HjQ.
    { unfold whole_windows. nia. }
    assert (is_Some (frames file !! n)) as [row Hrow].
    { apply lookup_lt_is_Some. unfold shape0 in *. lia. }
    destruct (in_window_call w file ts ni ss' j i row) as (f & evs' & Hcall & Hnolog & Hnext);
      [lia|lia|lia|by replace (j * w + i)%nat with n by lia|].
    rewrite Hcall.
    eexists _, _, _. split; [reflexivity|].
    rewrite filter_app, Hnolog, app_nil_r.
    split; [lia|]. split; [|split; [lia|]].
    + intros row' _. replace (S n `min` whole_windows w file - 1)%nat with n by lia.
      rewrite Hrow. intros [= <-].
      destruct (decide (n = 0)%nat) as [->|Hn0]; [by rewrite Hss0|].
      assert (is_Some (frames file !! (Nat.min n (whole_windows w file) - 1)%nat)) as [r0 Hr0].
      { apply lookup_lt_is_Some. unfold shape0 in *. lia. }
      rewrite (Hss r0) by (done || lia).
      apply list_inserts_overwrite.
      rewrite !length_take.
      pose proof (proj1 (Forall_lookup _ _) Hrows _ _ Hrow) as H1.
      pose proof (proj1 (Forall_lookup _ _) Hrows _ _ Hr0) as H2.
      simpl in *. lia.
    + destruct (decide (S i < w)%nat) as [Hi|Hi].
      * rewrite decide_True by lia. subst f. f_equal.
        -- apply (Nat.div_unique (S n) w j (S i)); lia.
        -- apply (Nat.mod_unique (S n) w j (S i)); lia.
      * destruct (decide ((j + 2) * w ≤ shape0 file)%nat) as [Hmore|Hend].
        -- assert (j + 2 ≤ shape0 file / w)%nat.
           { apply Nat.div_le_lower_bound; lia. }
           rewrite decide_True by (unfold whole_windows; nia).
           subst f. f_equal.
           ++ apply (Nat.div_unique (S n) w (S j) 0%nat); lia.
           ++ apply (Nat.mod_unique (S n) w (S j) 0%nat); lia.
        -- assert (shape0 file / w < j + 2)%nat.
           { apply Nat.Div0.div_lt_upper_bound. lia. }
           rewrite decide_False by (unfold whole_windows; nia). done.
  - rewrite (exhausted_call ts ni f ss' Hst).
    eexists _, _, _. split; [reflexivity|].
    rewrite filter_app, length_app, Hlog. simpl.
    split; [lia|]. split; [|split; [lia|]].
    + intros row _ Hrow. apply Hss; [lia|].
      by replace (n `min` whole_windows w file - 1)%nat
        with (S n `min` whole_windows w file - 1)%nat by lia.
    + by rewrite decide_False by lia.
Qed.

(** X9: with a window of [w > 0] frames and a file of at least [w]
    frames, [n] calls hand out the file's frames in order, one per call,
    but only those in whole windows: after call [n] the input slots hold
    frame [min n (N / w * w) - 1], and each call past [N / w * w] only
    logs the end of the input.  The last [N mod w] frames of the file are
    read into the window and never handed out. *)
Theorem only_whole_windows_are_delivered (w : nat) (file : h5array) (ts ni : nat)
    (ss : list Q) (n : nat) :
  (0 < w)%nat → (w ≤ shape0 file)%nat →
  Forall (λ r : list Q, (ni ≤ length r)%nat) (frames file) →
  ∃ f0 f ss' evs,
    Feeder.open w file = inr (f0, [FileRead 0 w]) ∧
    read_n n ts ni (f0, ss) = inr ((f, ss'), evs) ∧
    length (filter is_log evs) = (n - whole_windows w file)%nat ∧
    (∀ row, (0 < n)%nat →
       frames file !! (Nat.min n (whole_windows w file) - 1)%nat = Some row →
       ss' = list_inserts ts (take ni row) ss) ∧
    ((whole_windows w file ≤ n)%nat → exhausted f).
Proof.
  intros Hw HN Hrows.
  destruct (read_n_invariant w file ts ni ss Hw HN Hrows n)
    as (f & ss' & evs & Hrun & Hlog & Hss & _ & Hst).
  exists (in_window w file 0 0), f, ss', evs. split.
  { unfold Feeder.open, in_window. simpl. do 3 f_equal; lia. }
  split; [done|]. split; [done|]. split; [done|].
  intros Hn. by rewrite decide_False in Hst by lia.
Qed.


Lemma only_whole_windows_are_delivered_witness :
  ∃ f0 f ss' evs,
    Feeder.open 10 Examples.ramp_file = inr (f0, [FileRead 0 10]) ∧
    read_n 23 0 1 (f0, [0%Q]) = inr ((f, ss'), evs) ∧
    length (filter is_log evs) = 3%nat ∧
    ss' = [19%Q] ∧ exhausted f.
Proof.
  destruct (only_whole_windows_are_delivered 10 Examples.ramp_file 0 1 [0%Q] 23)
    as (f0 & f & ss' & evs & Ho & Hr & Hl & Hs & He).
  - lia.
  - vm_compute; lia.
  - vm_compute. repeat constructor.
  - exists f0, f, ss', evs. split; [exact Ho|]. split; [exact Hr|].
    split; [exact Hl|]. split; [|apply He; vm_compute; lia].
    apply (Hs [19%Q]); [lia|reflexivity].
Defined.

End FeederMore.

(** ** The neuron table of [graph_to_dicts] *)

Module GraphCompilerMore.
Import IndexSpace GraphCompiler GraphCompilerFacts IndexSpaceFacts GraphInvariant.

Lemma normalise_model n n' : normalise n = Some n' → node_model n' = node_model n.
Proof.
  unfold normalise. intros H.
  repeat match type of H with (if ?b then _ else _) = _ => destruct b; [discriminate|] end.
  by simplify_eq.
Qed.

Lemma normalise_models ns ns' :
  mapM normalise ns = Some ns' → node_model <$> ns' = node_model <$> ns.
Proof.
  intros H. apply mapM_Some_1 in H.
  induction H as [|n n' ns ns' Hn _ IH]; [done|]. csimpl.
  by rewrite IH, (normalise_model _ _ Hn).
Qed.

Lemma normalise_None n :
  normalise n = None ↔
  node_selector n = None ∧
  (node_model n = PORT_IN_GPOT ∨ node_model n = PORT_IN_SPK ∨ node_public n = Some true).
Proof.
  unfold normalise.
  destruct (node_selector n) as [s|].
  { rewrite (bool_decide_eq_false_2 (Some s = None)) by done.
    rewrite !andb_false_r. split; [done|]. by intros [? _]. }
  rewrite (bool_decide_eq_true_2 (None = None)) by done.
  rewrite !andb_true_r.
  destruct (bool_decide (node_model n = PORT_IN_GPOT ∨ node_model n = PORT_IN_SPK)) eqn:Hp.
  { apply bool_decide_eq_true in Hp. split; [intros _|done]. split; [done|tauto]. }
  apply bool_decide_eq_false in Hp.
  destruct (bool_decide (node_public n = Some true)) eqn:Hb.
  { apply bool_decide_eq_true in Hb. split; [intros _|done]. split; [done|tauto]. }
  apply bool_decide_eq_false in Hb.
  split; [done|]. intros [_ [?|[?|?]]]; tauto.
Qed.

(** X10: on nodes that carry [model], [spiking] and [extern] (and at most
    [public] and [selector] besides), the neuron half of [graph_to_dicts]
    raises exactly when some node without a selector is an input port or
    is public. *)
Theorem graph_to_dicts_raises_for_missing_selector (nodes : list node) :
  graph_to_dicts_neurons nodes = None ↔
  ∃ n, n ∈ nodes ∧ node_selector n = None ∧
    (node_model n = PORT_IN_GPOT ∨ node_model n = PORT_IN_SPK ∨
     node_public n = Some true).
Proof.
  unfold graph_to_dicts_neurons.
  destruct (mapM normalise (merge_sort neuron_le nodes)) as [ns|] eqn:Hm; simpl.
  - split; [done|]. intros (n & Hin & Hn).
    assert (is_Some (mapM normalise (merge_sort neuron_le nodes))) as Hs by (by rewrite Hm).
    apply mapM_is_Some_1 in Hs. rewrite Forall_forall in Hs.
    rewrite <- (merge_sort_Permutation neuron_le) in Hin.
    destruct (Hs n Hin) as [n' Hn']. simpl in Hn'.
    apply normalise_None in Hn. congruence.
  - split; [intros _|done].
    destruct (decide (Forall (is_Some ∘ normalise) (merge_sort neuron_le nodes)))
      as [HF|HF].
    { apply mapM_is_Some_2 in HF as [x Hx]. congruence. }
    apply not_Forall_Exists in HF; [|apply _].
    apply Exists_exists in HF as (n & Hin & Hn).
    exists n. split; [by rewrite merge_sort_Permutation in Hin|].
    apply normalise_None. simpl in Hn.
    destruct (normalise n); [|done]. exfalso. apply Hn. eauto.
Qed.

Lemma normalise_flags n n' :
  normalise n = Some n' →
  port_flags (node_model n') (node_spiking n') (default false (node_public n')).
Proof.
  unfold normalise, port_flags. intros H.
  repeat match type of H with
  | (if ?b then _ else _) = _ => destruct b; [discriminate|]
  end.
  injection H as <-. simpl.
  split; intros Ht; rewrite Ht.
  - rewrite (bool_decide_eq_true_2 (PORT_IN_GPOT = PORT_IN_GPOT)) by done.
    rewrite (bool_decide_eq_true_2 (_ ∨ _)) by auto. done.
  - rewrite (bool_decide_eq_false_2 (PORT_IN_SPK = PORT_IN_GPOT)) by done.
    rewrite (bool_decide_eq_true_2 (PORT_IN_SPK = PORT_IN_SPK)) by done.
    rewrite (bool_decide_eq_true_2 (_ ∨ _)) by auto. done.
Qed.

Lemma add_neuron_names d n :
  (add_neuron d n).*1 =
    if decide (node_model n ∈ d.*1) then d.*1 else d.*1 ++ [node_model n].
Proof.
  induction d as [|[k m] d IH].
  - destruct (decide (node_model n ∈ ([] : n_list).*1)) as [Hin|Hin]; [|done].
    by apply elem_of_nil in Hin.
  - cbn [add_neuron].
    destruct (decide (node_model n ∈ ((k, m) :: d).*1)) as [Hin|Hin];
      destruct (decide (k = node_model n)) as [Heq|Hne]; csimpl in *.
    + done.
    + rewrite IH. apply elem_of_cons in Hin as [?|Hin]; [congruence|].
      by rewrite decide_True.
    + exfalso. apply Hin. rewrite Heq. by left.
    + rewrite IH. rewrite decide_False; [done|].
      intros ?. apply Hin. by right.
Qed.

Lemma add_neuron_Forall (P : string → n_model → Prop) d n :
  Forall (λ p, P p.1 p.2) d →
  P (node_model n) (new_columns n) →
  (∀ m, P (node_model n) m → P (node_model n) (append_columns m n)) →
  Forall (λ p, P p.1 p.2) (add_neuron d n).
Proof.
  intros Hd Hnew Happ.
  induction Hd as [|[k m] d Hkm Hd IH]; simpl.
  - by repeat constructor.
  - destruct (decide (k = node_model n)) as [->|Hne].
    + constructor; [|done]. by apply Happ.
    + constructor; done.
Qed.

Lemma foldl_add_neuron_entries ns : ∀ d,
  Forall (λ n, port_flags (node_model n) (node_spiking n)
                 (default false (node_public n))) ns →
  NoDup d.*1 → Forall (λ p, entry_ok p.1 p.2) d →
  NoDup (foldl add_neuron d ns).*1 ∧
  Forall (λ p, entry_ok p.1 p.2) (foldl add_neuron d ns) ∧
  (∀ t, t ∈ (foldl add_neuron d ns).*1 ↔ t ∈ d.*1 ∨ t ∈ node_model <$> ns).
Proof.
  induction ns as [|n ns IH]; intros d Hf Hnd Hok; simpl.
  - split; [done|]. split; [done|]. intros t. rewrite elem_of_nil. tauto.
  - apply Forall_cons in Hf as [Hn Hf].
    destruct (IH (add_neuron d n)) as (IH1 & IH2 & IH3); [done| | |].
    + rewrite add_neuron_names. destruct (decide _); [done|].
      apply NoDup_app. split; [done|]. split; [|apply NoDup_singleton].
      intros x Hx ->%list_elem_of_singleton. done.
    + apply (add_neuron_Forall entry_ok); [done| |].
      * split; simpl; [done|]. constructor; [exact Hn|constructor].
      * intros m [H1 H2]. split; simpl.
        -- intros Heq. by apply app_eq_nil in Heq as [_ ?].
        -- apply Forall2_app; [done|]. constructor; [exact Hn|constructor].
    + split; [done|]. split; [done|]. intros t. rewrite IH3, add_neuron_names.
      rewrite elem_of_cons.
      destruct (decide (node_model n ∈ d.*1)) as [Hin|Hin].
      * split; [tauto|]. intros [?|[->|?]]; auto.
      * rewrite elem_of_app, list_elem_of_singleton. tauto.
Qed.

(** X11: the table [graph_to_dicts] returns has one entry for each model
    that occurs among the nodes and no other; every entry holds at least
    one neuron; the nodes of the model [port_in_gpot] are stored as graded
    and not public, those of [port_in_spk] as spiking and not public,
    whatever flags the graph gives them. *)
Theorem table_groups_nodes_by_model (nodes : list node) (nl : n_list) :
  graph_to_dicts_neurons nodes = Some nl →
  NoDup nl.*1 ∧
  (∀ t, t ∈ nl.*1 ↔ ∃ n, n ∈ nodes ∧ node_model n = t) ∧
  Forall (λ p : string * n_model, ids p.2 ≠ []) nl ∧
  (∀ m, (PORT_IN_GPOT, m) ∈ nl →
     Forall (λ b, b = false) (spiking m) ∧ Forall (λ b, b = false) (public m)) ∧
  (∀ m, (PORT_IN_SPK, m) ∈ nl →
     Forall (λ b, b = true) (spiking m) ∧ Forall (λ b, b = false) (public m)).
Proof.
  unfold graph_to_dicts_neurons. intros H.
  apply bind_Some in H as (ns & Hm & [= <-]).
  destruct (foldl_add_neuron_entries ns []) as (Hnd & Hok & Hnames).
  - apply mapM_Some_1 in Hm. apply Forall_forall. intros n' Hn'.
    apply list_elem_of_lookup in Hn' as [i Hi].
    destruct (Forall2_lookup_r _ _ _ _ _ Hm Hi) as (n & _ & Hn).
    by apply normalise_flags in Hn.
  - constructor.
  - constructor.
  - split; [done|]. split; [|split; [|split]].
    + intros t. rewrite Hnames, (normalise_models _ _ Hm).
      rewrite elem_of_nil, list_elem_of_fmap.
      setoid_rewrite (merge_sort_Permutation neuron_le nodes).
      split; [intros [[]|(y & -> & Hy)]; eauto|intros (n & Hn & <-); right; eauto].
    + eapply Forall_impl; [exact Hok|]. by intros p [? _].
    + intros m Hin. rewrite Forall_forall in Hok.
      destruct (Hok _ Hin) as [_ HF]. simpl in HF.
      split; apply Forall_forall; intros b Hb;
        apply list_elem_of_lookup in Hb as [i Hi].
      * destruct (Forall2_lookup_l _ _ _ _ _ HF Hi) as (b' & _ & [Hg _]).
        by destruct (Hg eq_refl).
      * destruct (Forall2_lookup_r _ _ _ _ _ HF Hi) as (b' & _ & [Hg _]).
        by destruct (Hg eq_refl).
    + intros m Hin. rewrite Forall_forall in Hok.
      destruct (Hok _ Hin) as [_ HF]. simpl in HF.
      split; apply Forall_forall; intros b Hb;
        apply list_elem_of_lookup in Hb as [i Hi].
      * destruct (Forall2_lookup_l _ _ _ _ _ HF Hi) as (b' & _ & [_ Hg]).
        by destruct (Hg eq_refl).
      * destruct (Forall2_lookup_r _ _ _ _ _ HF Hi) as (b' & _ & [_ Hg]).
        by destruct (Hg eq_refl).
Qed.

(** X12: a graph whose node keys are distinct and fit 32 bits compiles to a
    table the constructor can index: every column of a model has one
    length, the ids of each model ascend, the ids of the unit are the node
    keys, and the packed numbering is built and covers exactly those keys. *)
Theorem graph_table_is_indexed (nodes : list node) (nl : n_list) :
  graph_to_dicts_neurons nodes = Some nl →
  NoDup (node_id <$> nodes) →
  Forall (λ z, - 2 ^ 31 ≤ z < 2 ^ 31) (node_id <$> nodes) →
  valid_input nl ∧
  Forall (λ p : string * n_model, ascending (ids p.2)) nl ∧
  ∃ sp, build_index nl = Some sp ∧ idx sp ≡ₚ node_id <$> nodes ∧
    ∀ n, n ∈ nodes → is_Some (order sp (node_id n)).
Proof.
  intros H Hnd Hr.
  destruct (graph_to_dicts_neurons_spec nodes nl H) as (Hc & Hids & Ha).
  assert (valid_input nl) as Hv.
  { split; [done|]. split; by rewrite Hids. }
  split; [done|]. split; [done|].
  destruct (build_index_valid nl Hv) as (sp & Hb & _ & _ & _ & Hp & Ho & _).
  exists sp. split; [done|]. split; [by rewrite Hp|].
  intros n Hn.
  assert (node_id n ∈ idx sp) as Hin.
  { rewrite Hp, Hids. apply list_elem_of_fmap. eauto. }
  apply list_elem_of_lookup in Hin as [i Hi].
  exists i. unfold order. rewrite Ho.
  apply NumpyFacts.enumerate_numbers; [|done].
  rewrite Hp, Hids. done.
Qed.


Lemma table_groups_nodes_by_model_witness :
  graph_to_dicts_neurons Examples.interleaved = Some Examples.interleaved_table ∧
  NoDup Examples.interleaved_table.*1 ∧
  Forall (λ p : string * n_model, ids p.2 ≠ []) Examples.interleaved_table.
Proof.
  split; [vm_compute; reflexivity|].
  destruct (table_groups_nodes_by_model Examples.interleaved Examples.interleaved_table)
    as (Hnd & _ & Hne & _).
  - vm_compute; reflexivity.
  - split; [exact Hnd|exact Hne].
Defined.

Lemma graph_table_is_indexed_witness :
  valid_input Examples.interleaved_table ∧
  ∃ sp, build_index Examples.interleaved_table = Some sp ∧
    idx sp ≡ₚ node_id <$> Examples.interleaved.
Proof.
  destruct (graph_table_is_indexed Examples.interleaved Examples.interleaved_table)
    as (Hv & _ & sp & Hb & Hp & _).
  - vm_compute; reflexivity.
  - compute_done.
  - repeat constructor; simpl; lia.
  - split; [exact Hv|]. exists sp. split; [exact Hb|exact Hp].
Defined.

End GraphCompilerMore.

(** ** The synapse table of [graph_to_dicts] *)

Module GraphSynapsesFacts.
Import Synapses GraphSynapses SynapseFacts IndexSpaceFacts.

Section SortFacts.
Context {A : Type} (le : A → A → Prop) `{!∀ x y, Decision (le x y)}.

Lemma insert_by_Permutation x l : insert_by le x l ≡ₚ x :: l.
Proof.
  induction l as [|y l IH]; simpl; [done|].
  destruct (decide (le x y)); [done|]. rewrite IH. apply Permutation_swap.
Qed.

Lemma sort_by_Permutation l : sort_by le l ≡ₚ l.
Proof.
  induction l as [|x l IH]; simpl; [done|].
  by rewrite insert_by_Permutation, IH.
Qed.

Context `{!Total le, !Transitive le}.

Lemma insert_by_StronglySorted x l :
  StronglySorted le l → StronglySorted le (insert_by le x l).
Proof.
  induction 1 as [|y l Hs IH Hy]; simpl; [by repeat constructor|].
  destruct (decide (le x y)) as [Hxy|Hxy].
  - constructor; [by constructor|]. constructor; [done|].
    eapply Forall_impl; [exact Hy|]. intros z Hz. by transitivity y.
  - constructor; [done|]. rewrite insert_by_Permutation.
    constructor; [|done]. by destruct (total le x y).
Qed.

Lemma sort_by_StronglySorted l : StronglySorted le (sort_by le l).
Proof.
  induction l as [|x l IH]; simpl; [constructor|]. by apply insert_by_StronglySorted.
Qed.
End SortFacts.

#[local] Instance edge_le_total : Total edge_le.
Proof.
  intros x y. unfold edge_le, synapse_le.
  destruct (edge_post x), (edge_post y); try lia; auto.
Qed.
#[local] Instance edge_le_trans : Transitive edge_le.
Proof.
  intros x y z. unfold edge_le, synapse_le.
  destruct (edge_post x), (edge_post y), (edge_post z); try lia; auto.
Qed.

Lemma option_column_length c vs l :
  option_column c vs → c = Some l → length l = length vs.
Proof. intros H ->. simpl in H. rewrite H. by rewrite length_fmap. Qed.

Lemma represents_columns_ok rs t : represents rs t → entry_columns_ok t.
Proof.
  intros (_ & Hi & Hc & Hp & Hq & Hd & Hr & Hrp & Hdl).
  unfold entry_columns_ok. rewrite Hi, Hc, Hp, Hq, Hd, !length_fmap.
  repeat split; try done.
  - intros l Hl. rewrite (option_column_length _ _ _ Hr Hl). by rewrite length_fmap.
  - intros l Hl. rewrite (option_column_length _ _ _ Hrp Hl). by rewrite length_fmap.
  - intros l Hl. rewrite (option_column_length _ _ _ Hdl Hl). by rewrite length_fmap.
Qed.

Lemma option_column_start v : option_column ((λ x, [x]) <$> v) [v].
Proof. destruct v; simpl; [done|]. by repeat constructor. Qed.

Lemma option_column_append c vs v c' :
  option_column c vs → append_column c v = Some c' → option_column c' (vs ++ [v]).
Proof.
  destruct c as [l|], v as [x|]; simpl; intros Hc [= <-]; simpl.
  - by rewrite Hc, fmap_app.
  - apply Forall_app. split; [done|]. by repeat constructor.
Qed.

(** The assertion passes when the edge has the key as the rows before it
    have. *)
Lemma append_column_is_Some c vs v :
  option_column c vs → vs ≠ [] →
  is_Some (append_column c v) ↔
  Forall (λ u, bool_decide (is_Some u) = bool_decide (is_Some v)) vs.
Proof.
  intros Hc Hne. destruct c as [l|], v as [x|]; simpl in *.
  - split; [intros _|eauto]. rewrite Hc. apply Forall_fmap, Forall_true. done.
  - split; [by intros [? ?]|]. intros HF. exfalso.
    rewrite Hc in HF, Hne. destruct l as [|y l]; [done|].
    apply Forall_cons in HF as [HF _]. done.
  - split; [by intros [? ?]|]. intros HF. exfalso.
    destruct vs as [|u vs]; [done|].
    apply Forall_cons in Hc as [-> _]. apply Forall_cons in HF as [HF _]. done.
  - split; [intros _|eauto]. eapply Forall_impl; [exact Hc|]. by intros u ->.
Qed.

Lemma new_entry_represents i e : represents [(i, e)] (new_entry i e).
Proof.
  unfold represents, new_entry. simpl.
  split; [done|]. do 5 (split; [done|]).
  split; [|split]; apply option_column_start.
Qed.

Lemma append_entry_represents rs t i e t' :
  represents rs t → append_entry t i e = Some t' →
  represents (rs ++ [(i, e)]) t'.
Proof.
  intros (Hne & Hi & Hc & Hp & Hq & Hd & Hr & Hrp & Hdl) H.
  unfold append_entry in H.
  apply bind_Some in H as (rv & Hrv & H).
  apply bind_Some in H as (rp & Hrp' & H).
  apply bind_Some in H as (dl & Hdl' & H).
  injection H as <-. unfold represents. simpl. rewrite !fmap_app. simpl.
  split; [by destruct rs|].
  rewrite Hi, Hc, Hp, Hq, Hd. do 5 (split; [done|]).
  split; [|split]; by eapply option_column_append.
Qed.

Lemma append_entry_is_Some rs t i e :
  represents rs t →
  is_Some (append_entry t i e) ↔
  Forall (λ p : nat * edge, key_set p.2 = key_set e) rs.
Proof.
  intros (Hne & _ & _ & _ & _ & _ & Hr & Hrp & Hdl).
  assert (∀ f : edge → option Q, (λ p : nat * edge, f p.2) <$> rs ≠ []) as Hne'.
  { intros f. by destruct rs. }
  pose proof (append_column_is_Some _ _ (reverse_of e) Hr (Hne' _)) as H1.
  pose proof (append_column_is_Some _ _ (reversal_pot_of e) Hrp (Hne' _)) as H2.
  pose proof (append_column_is_Some _ _ (edge_delay e) Hdl (Hne' _)) as H3.
  rewrite Forall_fmap in H1, H2, H3.
  unfold append_entry, key_set. split.
  - intros [t' Ht'].
    apply bind_Some in Ht' as (rv & Hrv & Ht').
    apply bind_Some in Ht' as (rp & Hrp' & Ht').
    apply bind_Some in Ht' as (dl & Hdl' & Ht').
    assert (is_Some (append_column (Synapses.reverse (columns t)) (reverse_of e))) as I1 by eauto.
    assert (is_Some (append_column (reversal_pot t) (reversal_pot_of e))) as I2 by eauto.
    assert (is_Some (append_column (delay (columns t)) (edge_delay e))) as I3 by eauto.
    apply H1 in I1. apply H2 in I2. apply H3 in I3.
    rewrite Forall_forall in I1, I2, I3. apply Forall_forall. intros p Hp.
    specialize (I1 p Hp). specialize (I2 p Hp). specialize (I3 p Hp).
    unfold compose in I1, I2, I3. cbv beta in I1, I2, I3.
    f_equal; [f_equal; [exact I1|exact I2]|exact I3].
  - intros HF.
    assert (is_Some (append_column (Synapses.reverse (columns t)) (reverse_of e))) as [rv ->].
    { apply H1. eapply Forall_impl; [exact HF|]. intros p Hk. injection Hk as Hk1 Hk2 Hk3. exact Hk1. }
    assert (is_Some (append_column (reversal_pot t) (reversal_pot_of e))) as [rp ->].
    { apply H2. eapply Forall_impl; [exact HF|]. intros p Hk. injection Hk as Hk1 Hk2 Hk3. exact Hk2. }
    assert (is_Some (append_column (delay (columns t)) (edge_delay e))) as [dl ->].
    { apply H3. eapply Forall_impl; [exact HF|]. intros p Hk. injection Hk as Hk1 Hk2 Hk3. exact Hk3. }
    simpl. eauto.
Qed.

Lemma rows_of_snoc k rs i e :
  rows_of k (rs ++ [(i, e)]) =
    if decide (edge_model e = k) then rows_of k rs ++ [(i, e)] else rows_of k rs.
Proof.
  unfold rows_of. rewrite filter_app, filter_cons, filter_nil. simpl.
  destruct (decide (edge_model e = k)); [done|]. by rewrite app_nil_r.
Qed.

Lemma add_synapse_names d i e d' :
  add_synapse d i e = Some d' →
  d'.*1 = if decide (edge_model e ∈ d.*1) then d.*1 else d.*1 ++ [edge_model e].
Proof.
  revert d'. induction d as [|[k t] d IH]; intros d' H.
  - injection H as <-.
    destruct (decide (edge_model e ∈ ([] : s_table).*1)) as [Hin|Hin]; [|done].
    by apply elem_of_nil in Hin.
  - cbn [add_synapse] in H.
    destruct (decide (edge_model e ∈ ((k, t) :: d).*1)) as [Hin|Hin];
      destruct (decide (k = edge_model e)) as [Heq|Hne]; csimpl in *.
    + apply bind_Some in H as (t' & _ & [= <-]). done.
    + apply bind_Some in H as (d'' & Hd'' & [= <-]). csimpl.
      rewrite (IH _ Hd''). apply elem_of_cons in Hin as [?|Hin]; [congruence|].
      by rewrite decide_True.
    + exfalso. apply Hin. rewrite Heq. by left.
    + apply bind_Some in H as (d'' & Hd'' & [= <-]). csimpl.
      rewrite (IH _ Hd''). rewrite decide_False; [done|].
      intros ?. apply Hin. by right.
Qed.

Lemma add_synapse_represents done d i e d' :
  NoDup d.*1 →
  Forall (λ p : string * s_entry, represents (rows_of p.1 done) p.2) d →
  (edge_model e ∉ d.*1 → rows_of (edge_model e) done = []) →
  add_synapse d i e = Some d' →
  Forall (λ p : string * s_entry, represents (rows_of p.1 (done ++ [(i, e)])) p.2) d'.
Proof.
  revert d'. induction d as [|[k t] d IH]; intros d' Hnd HF Hnew H.
  - injection H as <-. constructor; [|constructor]. simpl.
    rewrite rows_of_snoc, decide_True by done.
    rewrite Hnew by apply not_elem_of_nil. apply new_entry_represents.
  - cbn [add_synapse] in H. apply Forall_cons in HF as [Hkt HF]. simpl in Hkt.
    csimpl in Hnd. apply NoDup_cons in Hnd as [Hk Hnd].
    assert (Forall (λ p : string * s_entry, p.1 ≠ edge_model e →
              represents (rows_of p.1 (done ++ [(i, e)])) p.2) d) as Hrest.
    { eapply Forall_impl; [exact HF|]. intros p Hp Hne.
      rewrite rows_of_snoc, decide_False by done. done. }
    destruct (decide (k = edge_model e)) as [Heq|Hne].
    + apply bind_Some in H as (t' & Ht' & [= <-]).
      constructor.
      * simpl. rewrite rows_of_snoc, decide_True by done.
        by eapply append_entry_represents.
      * rewrite Forall_forall in Hrest |- *. intros p Hp. apply Hrest; [done|].
        intros Hpe. apply Hk. rewrite Heq, <- Hpe. apply list_elem_of_fmap. eauto.
    + apply bind_Some in H as (d'' & Hd'' & [= <-]).
      constructor.
      * simpl. rewrite rows_of_snoc, decide_False by done. done.
      * apply IH; [done|done| |done]. intros Hin. apply Hnew.
        csimpl. intros [?|?]%elem_of_cons; done.
Qed.

Lemma add_synapse_is_Some done d i e :
  NoDup d.*1 →
  Forall (λ p : string * s_entry, represents (rows_of p.1 done) p.2) d →
  (edge_model e ∉ d.*1 → rows_of (edge_model e) done = []) →
  is_Some (add_synapse d i e) ↔
  Forall (λ p : nat * edge, key_set p.2 = key_set e) (rows_of (edge_model e) done).
Proof.
  induction d as [|[k t] d IH]; intros Hnd HF Hnew.
  - simpl. rewrite Hnew by apply not_elem_of_nil. split; [constructor|eauto].
  - cbn [add_synapse]. apply Forall_cons in HF as [Hkt HF]. simpl in Hkt.
    csimpl in Hnd. apply NoDup_cons in Hnd as [Hk Hnd].
    destruct (decide (k = edge_model e)) as [Heq|Hne].
    + rewrite <- Heq. rewrite <- (append_entry_is_Some _ t i e Hkt).
      split.
      * intros [d' Hd']. apply bind_Some in Hd' as (t' & Ht' & _). eauto.
      * intros [t' ->]. simpl. eauto.
    + rewrite <- IH; [|done|done|].
      * split.
        -- intros [d' Hd']. apply bind_Some in Hd' as (d'' & Hd'' & _). eauto.
        -- intros [d'' ->]. simpl. eauto.
      * intros Hin. apply Hnew. csimpl. intros [?|?]%elem_of_cons; done.
Qed.

Lemma table_ok_new done d e :
  table_ok done d → edge_model e ∉ d.*1 → rows_of (edge_model e) done = [].
Proof.
  intros (_ & Hn & _) Hin.
  destruct (rows_of (edge_model e) done) as [|p rs] eqn:Hrows; [done|].
  assert (p ∈ rows_of (edge_model e) done) as Hp by (rewrite Hrows; by left).
  apply list_elem_of_filter in Hp as [Hm Hp].
  exfalso. apply Hin, Hn. eauto.
Qed.

Lemma add_synapse_ok done d i e d' :
  table_ok done d → add_synapse d i e = Some d' → table_ok (done ++ [(i, e)]) d'.
Proof.
  intros Hok H. pose proof Hok as (Hnd & Hn & HF).
  pose proof (add_synapse_names _ _ _ _ H) as Hnames.
  split; [|split].
  - rewrite Hnames. destruct (decide _) as [|Hin]; [done|].
    apply NoDup_app. split; [done|]. split; [|apply NoDup_singleton].
    intros x Hx ->%list_elem_of_singleton. done.
  - intros k. rewrite Hnames.
    setoid_rewrite elem_of_app. setoid_rewrite list_elem_of_singleton.
    destruct (decide (edge_model e ∈ d.*1)) as [Hin|Hin].
    + rewrite Hn. split.
      * intros (p & Hp & Hm). eauto.
      * intros (p & [Hp| ->] & Hm); [eauto|]. simpl in Hm. subst k. by apply Hn.
    + rewrite elem_of_app, list_elem_of_singleton, Hn. split.
      * intros [(p & Hp & Hm)| ->]; [eauto|]. exists (i, e). auto.
      * intros (p & [Hp| ->] & Hm); [left; eauto|]. by right.
  - eapply add_synapse_represents; [done|done| |done].
    by apply table_ok_new.
Qed.

Lemma add_synapses_ok es : ∀ done d i d',
  table_ok done d → add_synapses d i es = Some d' →
  table_ok (done ++ indexed i es) d'.
Proof.
  induction es as [|e es IH]; intros done d i d' Hok H; simpl in H.
  - injection H as <-. unfold indexed. simpl. by rewrite app_nil_r.
  - apply bind_Some in H as (d1 & Hd1 & H).
    apply (IH (done ++ [(i, e)]) d1 (S i) d') in H; [|by eapply add_synapse_ok].
    unfold indexed in *. simpl. by rewrite <- (assoc_L (++)) in H.
Qed.

Lemma option_column_uniform c vs u v :
  option_column c vs → u ∈ vs → v ∈ vs →
  bool_decide (is_Some u) = bool_decide (is_Some v).
Proof.
  destruct c as [l|]; simpl.
  - intros -> (x & -> & _)%list_elem_of_fmap (y & -> & _)%list_elem_of_fmap. done.
  - intros HF Hu Hv. rewrite Forall_forall in HF.
    by rewrite (HF u Hu), (HF v Hv).
Qed.

Lemma represents_uniform rs t p q :
  represents rs t → p ∈ rs → q ∈ rs → key_set p.2 = key_set q.2.
Proof.
  intros (_ & _ & _ & _ & _ & _ & Hr & Hrp & Hdl) Hp Hq. unfold key_set.
  f_equal; [f_equal|].
  - eapply (option_column_uniform _ _ _ _ Hr); apply list_elem_of_fmap; eauto.
  - eapply (option_column_uniform _ _ _ _ Hrp); apply list_elem_of_fmap; eauto.
  - eapply (option_column_uniform _ _ _ _ Hdl); apply list_elem_of_fmap; eauto.
Qed.

Lemma table_ok_compatible done d :
  table_ok done d → compatible done.*2.
Proof.
  intros (_ & Hn & HF) e1 e2 H1 H2 Hm.
  apply list_elem_of_fmap in H1 as (p1 & -> & H1).
  apply list_elem_of_fmap in H2 as (p2 & -> & H2).
  assert (edge_model p1.2 ∈ d.*1) as Hin by (apply Hn; eauto).
  apply list_elem_of_fmap in Hin as ([k t] & Hk & Hkt). simpl in Hk. subst k.
  rewrite Forall_forall in HF. specialize (HF _ Hkt). simpl in HF.
  eapply represents_uniform; [exact HF|..]; apply list_elem_of_filter; auto.
Qed.

Lemma add_synapses_is_Some es : ∀ done d i,
  table_ok done d →
  is_Some (add_synapses d i es) ↔ compatible (done.*2 ++ es).
Proof.
  induction es as [|e es IH]; intros done d i Hok; simpl.
  - rewrite app_nil_r. split; [intros _; by eapply table_ok_compatible|eauto].
  - pose proof Hok as (Hnd & Hn & HF). split.
    + intros [d' Hd']. apply bind_Some in Hd' as (d1 & Hd1 & Hd').
      pose proof (add_synapse_ok _ _ _ _ _ Hok Hd1) as Hok1.
      assert (is_Some (add_synapses d1 (S i) es)) as Hs by eauto.
      apply (IH _ _ _ Hok1) in Hs.
      by rewrite fmap_app, <- (assoc_L (++)) in Hs.
    + intros Hc.
      assert (is_Some (add_synapse d i e)) as [d1 Hd1].
      { eapply add_synapse_is_Some; [done|done|by eapply table_ok_new|].
        apply Forall_forall. intros p [Hm Hp]%list_elem_of_filter.
        apply Hc; [|apply elem_of_app; right; by left|done].
        apply elem_of_app. left. apply list_elem_of_fmap. eauto. }
      rewrite Hd1. simpl.
      apply (IH (done ++ [(i, e)])); [by eapply add_synapse_ok|].
      by rewrite fmap_app, <- (assoc_L (++)).
Qed.

Lemma table_ok_nil : table_ok [] [].
Proof.
  split; [constructor|]. split; [|constructor].
  intros k. split; [by intros ?%elem_of_nil|]. by intros (p & ?%elem_of_nil & _).
Qed.

(** X13: on edges that carry [model] and [class], the synapse half of
    [graph_to_dicts] returns a table exactly when the edges of each model
    agree on which of the keys [reverse] (or, in its place,
    [reversal_pot]), a left-over [reversal_pot] and [delay] they carry;
    otherwise the assertion on the key sets raises. *)
Theorem s_dict_needs_one_key_set_per_model (edges : list edge) :
  is_Some (graph_to_dicts_synapses edges) ↔ compatible edges.
Proof.
  unfold graph_to_dicts_synapses.
  rewrite (add_synapses_is_Some _ [] [] 0%nat table_ok_nil). simpl.
  unfold compatible. setoid_rewrite (sort_by_Permutation edge_le edges). done.
Qed.

Lemma indexed_snd i es : (indexed i es).*2 = es.
Proof. unfold indexed. apply snd_zip. by rewrite length_seq. Qed.
Lemma indexed_fst i es : (indexed i es).*1 = seq i (length es).
Proof. unfold indexed. apply fst_zip. by rewrite length_seq. Qed.

Lemma concat_rows_cons (ks : list string) p (l : list (nat * edge)) :
  NoDup ks → edge_model p.2 ∈ ks →
  concat ((λ k, rows_of k (p :: l)) <$> ks) ≡ₚ p :: concat ((λ k, rows_of k l) <$> ks).
Proof.
  intros Hnd Hin. induction ks as [|k ks IH]; [by apply elem_of_nil in Hin|].
  apply NoDup_cons in Hnd as [Hk Hnd]. csimpl.
  unfold rows_of at 1. rewrite filter_cons. fold (rows_of k l).
  destruct (decide (edge_model p.2 = k)) as [Heq|Hne].
  - simpl. do 2 f_equiv.
    assert (Forall (λ k', rows_of k' (p :: l) = rows_of k' l) ks) as Hext.
    { apply Forall_forall. intros k' Hk'. unfold rows_of. rewrite filter_cons.
      rewrite decide_False; [done|]. congruence. }
    clear -Hext. induction Hext as [|k' ks Hk' _ IH']; csimpl; [done|].
    by rewrite Hk', IH'.
  - apply elem_of_cons in Hin as [?|Hin]; [done|].
    rewrite (IH Hnd Hin). by rewrite Permutation_middle.
Qed.

Lemma concat_rows_Permutation (ks : list string) (l : list (nat * edge)) :
  NoDup ks → (∀ p, p ∈ l → edge_model p.2 ∈ ks) →
  concat ((λ k, rows_of k l) <$> ks) ≡ₚ l.
Proof.
  intros Hnd. induction l as [|p l IH]; intros Hin.
  - clear. induction ks as [|k ks IH]; csimpl; [done|]. by rewrite IH.
  - rewrite concat_rows_cons; [|done|apply Hin; by left].
    f_equiv. apply IH. intros q Hq. apply Hin. by right.
Qed.

Lemma table_ids done d :
  table_ok done d →
  concat ((λ p : string * s_entry, s_ids (columns p.2)) <$> d) ≡ₚ
    (λ p : nat * edge, id_of p.1 p.2) <$> done.
Proof.
  intros (Hnd & Hn & HF).
  transitivity ((λ p : nat * edge, id_of p.1 p.2) <$>
                  concat ((λ k, rows_of k done) <$> d.*1)).
  - clear Hnd Hn. induction HF as [|[k t] d Hkt _ IH]; csimpl; [done|].
    destruct Hkt as (_ & Hi & _). simpl in Hi. rewrite Hi, fmap_app. by rewrite IH.
  - apply fmap_Permutation, concat_rows_Permutation; [done|].
    intros p Hp. apply Hn. eauto.
Qed.

(** X14: the table of synapses has one entry for each model among the
    edges; all columns of an entry have one length and at least one row;
    the [post] column of every entry lists its targets in the order of
    [synapse_cmp], so neuron targets come before synapse targets; and the
    entries hold as many synapses as the graph has edges. *)
Theorem s_dict_columns_are_sorted_by_target (edges : list edge) (d : s_table) :
  graph_to_dicts_synapses edges = Some d →
  NoDup d.*1 ∧
  (∀ k, k ∈ d.*1 ↔ ∃ e, e ∈ edges ∧ edge_model e = k) ∧
  Forall (λ p : string * s_entry,
            entry_columns_ok p.2 ∧ s_ids (columns p.2) ≠ [] ∧
            StronglySorted synapse_le (post (columns p.2)) ∧
            targets_partitioned (post (columns p.2))) d ∧
  total_synapses (s_list_of_table d) = length edges.
Proof.
  unfold graph_to_dicts_synapses. intros H.
  apply (add_synapses_ok _ [] [] 0%nat d table_ok_nil) in H. simpl in H.
  pose proof H as (Hnd & Hn & HF).
  pose proof (sort_by_Permutation edge_le edges) as Hperm.
  split; [done|]. split; [|split].
  - intros k. rewrite Hn. split.
    + intros (p & Hp & Hm). exists p.2. split; [|done].
      rewrite <- Hperm, <- (indexed_snd 0 (sort_by edge_le edges)).
      apply list_elem_of_fmap. eauto.
    + intros (e & He & Hm). rewrite <- Hperm, <- (indexed_snd 0 (sort_by edge_le edges)) in He.
      apply list_elem_of_fmap in He as (p & -> & Hp). eauto.
  - eapply Forall_impl; [exact HF|]. intros [k t] Hkt. simpl in *.
    split; [by eapply represents_columns_ok|].
    destruct Hkt as (Hne & Hi & _ & _ & Hq & _).
    split; [rewrite Hi; by destruct (rows_of k _)|].
    assert (StronglySorted synapse_le (post (columns t))) as Hs.
    { rewrite Hq.
      apply (StronglySorted_sublist _ _
               ((λ p : nat * edge, edge_post p.2) <$> indexed 0 (sort_by edge_le edges))).
      - apply fmap_sublist, sublist_filter.
      - assert ((λ p : nat * edge, edge_post p.2) <$> indexed 0 (sort_by edge_le edges)
                = edge_post <$> sort_by edge_le edges) as ->.
        { rewrite <- (indexed_snd 0 (sort_by edge_le edges)) at 2.
          by rewrite <- list_fmap_compose. }
        apply StronglySorted_fmap with (R1 := edge_le); [done|].
        apply sort_by_StronglySorted; apply _. }
    split; [done|]. by apply sorted_targets_partitioned.
  - unfold total_synapses, num_synapses, s_list_of_table.
    rewrite <- list_fmap_compose.
    assert (∀ ls : list (list Z), foldr Nat.add 0%nat (length <$> ls) = length (concat ls)) as Hsum.
    { induction ls as [|x ls IH]; csimpl; [done|]. by rewrite length_app, IH. }
    rewrite (list_fmap_compose (λ p : string * s_entry, s_ids (columns p.2)) length).
    rewrite Hsum, (table_ids _ _ H), length_fmap.
    rewrite <- (length_fmap snd), indexed_snd. by rewrite Hperm.
Qed.

(** X15: when no edge carries an [id], the synapses are numbered by their
    place in the sorted edge list: the ids of the table are
    [0 .. len(edges) - 1], each once, and ascend within every model. *)
Theorem missing_synapse_ids_are_positions (edges : list edge) (d : s_table) :
  Forall (λ e, edge_id e = None) edges →
  graph_to_dicts_synapses edges = Some d →
  concat ((λ p : string * s_entry, s_ids (columns p.2)) <$> d) ≡ₚ
    Z.of_nat <$> seq 0 (length edges) ∧
  Forall (λ p : string * s_entry, StronglySorted Z.lt (s_ids (columns p.2))) d.
Proof.
  unfold graph_to_dicts_synapses. intros Hid H.
  apply (add_synapses_ok _ [] [] 0%nat d table_ok_nil) in H. simpl in H.
  pose proof (sort_by_Permutation edge_le edges) as Hperm.
  assert ((λ p : nat * edge, id_of p.1 p.2) <$> indexed 0 (sort_by edge_le edges) =
          Z.of_nat <$> seq 0 (length edges)) as Hids.
  { rewrite <- (Permutation_length Hperm), <- (indexed_fst 0 (sort_by edge_le edges)).
    rewrite <- list_fmap_compose. apply Forall_fmap_ext, Forall_forall.
    intros p Hp. unfold id_of. simpl.
    assert (p.2 ∈ edges) as He.
    { rewrite <- Hperm, <- (indexed_snd 0 (sort_by edge_le edges)).
      apply list_elem_of_fmap. eauto. }
    rewrite Forall_forall in Hid. by rewrite (Hid _ He). }
  split.
  - by rewrite (table_ids _ _ H), Hids.
  - destruct H as (_ & _ & HF). eapply Forall_impl; [exact HF|].
    intros [k t] (_ & Hi & _). simpl in *. rewrite Hi.
    apply (StronglySorted_sublist _ _
             ((λ p : nat * edge, id_of p.1 p.2) <$> indexed 0 (sort_by edge_le edges))).
    + apply fmap_sublist, sublist_filter.
    + rewrite Hids. clear. generalize 0%nat.
      induction (length edges) as [|n IH]; intros s; simpl; constructor; [apply IH|].
      apply Forall_forall. intros z (x & -> & Hx)%list_elem_of_fmap.
      apply elem_of_seq in Hx. lia.
Qed.


Lemma s_dict_columns_are_sorted_by_target_witness :
  ∃ d,
    graph_to_dicts_synapses Scenarios.edges = Some d ∧
    d.*1 = ["ExpSynapse"; "AlphaSynapse"]%string ∧
    Forall (λ p : string * s_entry, targets_partitioned (post (columns p.2))) d ∧
    total_synapses (s_list_of_table d) = 3%nat.
Proof.
  destruct (graph_to_dicts_synapses Scenarios.edges) as [d|] eqn:Hd;
    [|vm_compute in Hd; discriminate Hd].
  exists d. split; [reflexivity|].
  destruct (s_dict_columns_are_sorted_by_target Scenarios.edges d Hd)
    as (_ & _ & HF & Ht).
  split; [vm_compute in Hd; injection Hd as <-; reflexivity|].
  split; [|exact Ht].
  eapply Forall_impl; [exact HF|]. intros p (_ & _ & _ & Hp). exact Hp.
Defined.

Lemma missing_synapse_ids_are_positions_witness :
  ∃ d,
    graph_to_dicts_synapses Scenarios.edges = Some d ∧
    concat ((λ p : string * s_entry, s_ids (columns p.2)) <$> d) ≡ₚ [0; 1; 2].
Proof.
  destruct (graph_to_dicts_synapses Scenarios.edges) as [d|] eqn:Hd;
    [|vm_compute in Hd; discriminate Hd].
  exists d. split; [reflexivity|].
  destruct (missing_synapse_ids_are_positions Scenarios.edges d) as [Hp _].
  - repeat constructor.
  - exact Hd.
  - exact Hp.
Defined.

End GraphSynapsesFacts.

(** ** The rows of the output files *)

Module OutputFileFacts.
Import Numpy IndexSpace OutputFile NumpyFacts ArgsortFacts IndexSpaceFacts IndexSpaceMore.

Lemma row_by_ascending_id (ids : list Z) (d : gmap Z nat) (o : list nat) (v : list Q) :
  numbers d ids → NoDup ids → is_argsort ids o → length v = length ids →
  ∃ row sorted,
    reindex v o = Some row ∧
    StronglySorted Z.lt sorted ∧ sorted ≡ₚ ids ∧
    Forall2 (λ id x, ∃ p, d !! id = Some p ∧ v !! p = Some x) sorted row.
Proof.
  intros Hn Hnd [Hperm (b & Hb & Hs)] Hlen.
  assert (b ≡ₚ ids) as Hbp by (by eapply reindex_Permutation).
  assert (is_Some (reindex v o)) as [row Hrow].
  { apply mapM_is_Some_2, Forall_forall. intros i Hi.
    rewrite Hperm in Hi. apply elem_of_seq in Hi.
    apply lookup_lt_is_Some. lia. }
  exists row, b. split; [done|]. split; [|split; [done|]].
  - assert (NoDup b) as Hndb by (by rewrite Hbp).
    clear -Hs Hndb. apply Sorted_StronglySorted in Hs; [|intros x y z; lia].
    induction Hs as [|x l Hs IH Hx]; [constructor|].
    apply NoDup_cons in Hndb as [Hx' Hndb]. constructor; [auto|].
    rewrite Forall_forall in Hx |- *. intros y Hy.
    specialize (Hx y Hy). assert (x ≠ y) by (intros ->; done). lia.
  - apply reindex_Some in Hb, Hrow.
    apply Forall2_same_length_lookup. split.
    { rewrite <- (Forall2_length _ _ _ Hb). by apply Forall2_length in Hrow. }
    intros i id x Hid Hx.
    destruct (Forall2_lookup_r _ _ _ _ _ Hb Hid) as (p & Hp & Hidp).
    destruct (Forall2_lookup_l _ _ _ _ _ Hrow Hp) as (x' & Hx' & Hv).
    rewrite Hx in Hx'. injection Hx' as <-.
    exists p. split; [by apply Hn|done].
Qed.

(** X16: whatever sort stands for [np.argsort], the row appended to the
    output file of graded states lists the states by ascending neuron id:
    its [k]-th entry is the state, at its packed position, of the graded
    neuron with the [k]-th smallest id.  The same holds for the row of
    spike states. *)
Theorem output_rows_by_ascending_id (argsort : list Z → list nat) (nl : n_list)
    (sp : index_space) (v s : list Q) :
  (∀ l, is_argsort l (argsort l)) →
  valid_input nl → build_index nl = Some sp →
  length v = length (gpot_idx sp) → length s = length (spike_idx sp) →
  (∃ row sorted,
     output_gpot_row argsort sp v = Some row ∧
     StronglySorted Z.lt sorted ∧ sorted ≡ₚ gpot_idx sp ∧
     Forall2 (λ id x, ∃ p, gpot_order sp id = Some p ∧ v !! p = Some x) sorted row) ∧
  (∃ row sorted,
     output_spike_row argsort sp s = Some row ∧
     StronglySorted Z.lt sorted ∧ sorted ≡ₚ spike_idx sp ∧
     Forall2 (λ id x, ∃ p, spike_order sp id = Some p ∧ s !! p = Some x) sorted row).
Proof.
  intros Harg Hv Hb Hlv Hls.
  destruct (index_numbers nl sp Hv Hb) as (Hidx & Hp & _ & Hg & Hs).
  assert (NoDup (idx sp)) as Hnd by (rewrite Hp; apply Hv).
  rewrite Hidx in Hnd. apply NoDup_app in Hnd as (Hndg & _ & Hnds).
  split.
  - by apply row_by_ascending_id.
  - by apply row_by_ascending_id.
Qed.


Lemma output_rows_by_ascending_id_witness :
  ∃ sp, build_index Scenarios.mixed = Some sp ∧
    gpot_idx sp = [3; 1] ∧
    output_gpot_row argsort_stable sp [30; 10]%Q = Some [10; 30]%Q ∧
    output_spike_row argsort_stable sp [0; 1]%Q = Some [0; 1]%Q.
Proof.
  destruct (build_index Scenarios.mixed) as [sp|] eqn:Hb;
    [|vm_compute in Hb; discriminate Hb].
  exists sp. split; [reflexivity|].
  destruct (output_rows_by_ascending_id argsort_stable Scenarios.mixed sp
              [30; 10]%Q [0; 1]%Q) as [(r1 & s1 & H1 & _) (r2 & s2 & H2 & _)].
  - apply argsort_stable_spec.
  - split; [|split]; [repeat constructor|repeat constructor; lia|compute_done].
  - exact Hb.
  - vm_compute in Hb. injection Hb as <-. reflexivity.
  - vm_compute in Hb. injection Hb as <-. reflexivity.
  - vm_compute in Hb. injection Hb as <-.
    split; [reflexivity|]. split; [rewrite H1|rewrite H2].
    + vm_compute in H1. congruence.
    + vm_compute in H2. congruence.
Defined.

End OutputFileFacts.

(** ** Rounding of the buffer depth *)

Module DelayDepthFacts.
Import Synapses.




End DelayDepthFacts.

(** ** Selector strings *)

Module SelectorFacts.
Import IndexSpace GraphCompiler Selectors.

Lemma append_assoc (a b c : string) :
  String.append (String.append a b) c = String.append a (String.append b c).
Proof.
  induction a as [|x a IH]; [done|].
  change (String x (String.append (String.append a b) c) =
          String x (String.append a (String.append b c))).
  by f_equal.
Qed.

Lemma append_nonempty (a b : string) : a ≠ EmptyString → String.append a b ≠ EmptyString.
Proof. by destruct a. Qed.

Lemma join_nonempty sep l :
  Forall (λ s, s ≠ EmptyString) l → l ≠ [] → join sep l ≠ EmptyString.
Proof.
  intros HF Hne. destruct HF as [|x l Hx HF]; [done|]. simpl.
  destruct l; [done|]. by apply append_nonempty.
Qed.

Lemma join_app sep a b :
  a ≠ [] → b ≠ [] →
  join sep (a ++ b) = String.append (join sep a) (String.append sep (join sep b)).
Proof.
  intros Ha Hb. induction a as [|x a IH]; [done|].
  destruct a as [|y a].
  - simpl. by destruct b.
  - change (join sep ((x :: y :: a) ++ b))
      with (String.append x (String.append sep (join sep ((y :: a) ++ b)))).
    rewrite IH by done.
    change (join sep (x :: y :: a))
      with (String.append x (String.append sep (join sep (y :: a)))).
    by rewrite !append_assoc.
Qed.

Lemma truthy_Forall l : Forall (λ s, s ≠ EmptyString) (truthy l).
Proof. apply Forall_forall. by intros s [? _]%list_elem_of_filter. Qed.

Lemma truthy_app a b : truthy (a ++ b) = truthy a ++ truthy b.
Proof. apply filter_app. Qed.

(** Joining two joined lists is joining their concatenation. *)
Lemma comma_join_nested a b :
  comma_join [comma_join a; comma_join b] = comma_join (a ++ b).
Proof.
  unfold comma_join. rewrite truthy_app.
  pose proof (truthy_Forall a) as Ha. pose proof (truthy_Forall b) as Hb.
  set (A := truthy a) in *. set (B := truthy b) in *.
  unfold truthy at 1. rewrite !filter_cons, filter_nil.
  destruct A as [|x A], B as [|y B].
  - done.
  - rewrite decide_False by (simpl; tauto).
    rewrite decide_True by (by apply join_nonempty). done.
  - rewrite decide_True by (by apply join_nonempty).
    rewrite decide_False by (simpl; tauto). by rewrite app_nil_r.
  - rewrite !decide_True by (by apply join_nonempty).
    by rewrite join_app.
Qed.

(** X18: [extract_all] is the comma-separated list of the non-empty
    selectors of the unit in this order: spiking input ports, graded
    input ports, public spiking neurons, public graded neurons.  The
    nested joins add no separator for a group that is empty. *)
Theorem extract_all_lists_ports_in_order (nl : n_list) :
  extract_all nl =
    comma_join (in_selectors PORT_IN_SPK nl ++ in_selectors PORT_IN_GPOT nl ++
                out_selectors true nl ++ out_selectors false nl) ∧
  extract_in nl =
    comma_join (in_selectors PORT_IN_SPK nl ++ in_selectors PORT_IN_GPOT nl) ∧
  extract_out nl = comma_join (out_selectors true nl ++ out_selectors false nl).
Proof.
  assert (∀ t, match lookup_model nl t with
               | Some m => comma_join (selector m)
               | None => EmptyString
               end = comma_join (in_selectors t nl)) as Hin.
  { intros t. unfold in_selectors. by destruct (lookup_model nl t). }
  assert (extract_in nl =
    comma_join (in_selectors PORT_IN_SPK nl ++ in_selectors PORT_IN_GPOT nl)) as Hi.
  { unfold extract_in, extract_in_spk, extract_in_gpot.
    rewrite !Hin. apply comma_join_nested. }
  assert (extract_out nl = comma_join (out_selectors true nl ++ out_selectors false nl))
    as Ho.
  { unfold extract_out, extract_out_spk, extract_out_gpot. apply comma_join_nested. }
  split; [|done]. unfold extract_all. rewrite Hi, Ho, comma_join_nested.
  by rewrite <- (assoc_L (++)).
Qed.

Lemma extract_in_selectors nl :
  extract_in_gpot nl = comma_join (in_selectors PORT_IN_GPOT nl) ∧
  extract_in_spk nl = comma_join (in_selectors PORT_IN_SPK nl).
Proof.
  unfold extract_in_gpot, extract_in_spk, in_selectors.
  split; by destruct (lookup_model nl _).
Qed.

(** X19: the selector strings the constructor hands to the base class group
    the ports by kind, graded before spiking: [sel] lists graded input
    ports, public graded neurons, spiking input ports, public spiking
    neurons.  This is another order than that of [extract_all], which
    lists spiking before graded and inputs before outputs; both hold the
    same selectors. *)
Theorem constructor_selectors_group_by_kind (nl : n_list) :
  sel nl =
    comma_join (in_selectors PORT_IN_GPOT nl ++ out_selectors false nl ++
                in_selectors PORT_IN_SPK nl ++ out_selectors true nl) ∧
  sel_in nl = comma_join (in_selectors PORT_IN_GPOT nl ++ in_selectors PORT_IN_SPK nl) ∧
  sel_out nl = comma_join (out_selectors false nl ++ out_selectors true nl) ∧
  in_selectors PORT_IN_GPOT nl ++ out_selectors false nl ++
    in_selectors PORT_IN_SPK nl ++ out_selectors true nl ≡ₚ
  in_selectors PORT_IN_SPK nl ++ in_selectors PORT_IN_GPOT nl ++
    out_selectors true nl ++ out_selectors false nl.
Proof.
  destruct (extract_in_selectors nl) as [Hg Hs].
  split; [|split; [|split]].
  - assert (sel_gpot nl =
            comma_join (in_selectors PORT_IN_GPOT nl ++ out_selectors false nl)) as H1.
    { unfold sel_gpot, extract_out_gpot. rewrite Hg. apply comma_join_nested. }
    assert (sel_spk nl =
            comma_join (in_selectors PORT_IN_SPK nl ++ out_selectors true nl)) as H2.
    { unfold sel_spk, extract_out_spk. rewrite Hs. apply comma_join_nested. }
    unfold sel. rewrite H1, H2, comma_join_nested. by rewrite <- (assoc_L (++)).
  - unfold sel_in. rewrite Hg, Hs. apply comma_join_nested.
  - unfold sel_out, extract_out_gpot, extract_out_spk. apply comma_join_nested.
  - set (a := in_selectors PORT_IN_GPOT nl). set (b := out_selectors false nl).
    set (c := in_selectors PORT_IN_SPK nl). set (d := out_selectors true nl).
    rewrite (Permutation_app_comm b (c ++ d)), <- (assoc_L (++)).
    apply Permutation_app_swap_app.
Qed.

End SelectorFacts.

(** ** Model instances *)

Module InstanceFacts.
Import Runtime IndexSpace Synapses Gateway LPU Instances RuntimeFacts.

Lemma index_from_Some names t : ∀ i k,
  Python.index_from i names t = Some k →
  (i ≤ k)%nat ∧ names !! (k - i)%nat = Some t.
Proof.
  induction names as [|x names IH]; intros i k H; simpl in H; [done|].
  destruct (decide (x = t)) as [->|Hne].
  - injection H as <-. split; [lia|]. by rewrite Nat.sub_diag.
  - apply IH in H as [Hle Hk]. split; [lia|].
    replace (k - i)%nat with (S (k - S i)) by lia. done.
Qed.

Lemma index_from_None names t : ∀ i,
  Python.index_from i names t = None ↔ t ∉ names.
Proof.
  induction names as [|x names IH]; intros i; simpl.
  - split; [intros _; apply not_elem_of_nil|done].
  - destruct (decide (x = t)) as [->|Hne].
    + split; [done|]. intros Hn. exfalso. apply Hn. by left.
    + rewrite IH. rewrite not_elem_of_cons. split; [auto|tauto].
Qed.

Lemma class_index_Some names t ind k :
  class_index names t = Some ind →
  Python.getitem (seq 0 (length names)) ind = Some k →
  t ∈ names → names !! k = Some t.
Proof.
  unfold class_index, Python.index. intros Hc Hg Hin.
  destruct (Python.index_from 0 names t) as [k0|] eqn:Hi.
  - injection Hc as <-. apply index_from_Some in Hi as [_ Hk0].
    rewrite Nat.sub_0_r in Hk0.
    unfold Python.getitem in Hg. rewrite decide_True in Hg by lia.
    rewrite Nat2Z.id in Hg. apply lookup_seq in Hg as [-> _]. done.
  - apply index_from_None in Hi. done.
Qed.

Lemma class_index_None names t :
  class_index names t = None → (t ∉ names) ∧ Python.int t = None.
Proof.
  unfold class_index, Python.index.
  destruct (Python.index_from 0 names t) as [k0|] eqn:Hi; [done|].
  apply index_from_None in Hi. done.
Qed.

Section WithPlugins.
Context {P : Plugins}.

Lemma instantiate_neuron_made c m i t n o m' evs :
  instantiate_neuron c m i t n = inr ((o, m'), evs) →
  neuron_made c (i, (t, n)) o.
Proof.
  unfold instantiate_neuron. intros H.
  destruct (class_index neuron_names t) as [ind|] eqn:Hc.
  - apply bind_inr in H as (spk & e1 & e2 & Hspk & H & ->).
    apply bind_inr in H as (k & e3 & e4 & Hk & H & ->).
    apply bind_inr in H as (off & e5 & e6 & Hoff & H & ->).
    apply bind_inr in H as (u & e7 & e8 & _ & H & ->).
    injection H as <- <- <-.
    destruct (head (spiking n)) as [spk'|] eqn:Hh; [|done].
    injection Hspk as -> <-.
    destruct (Python.getitem (seq 0 (length neuron_names)) ind) as [k'|] eqn:Hg; [|done].
    injection Hk as -> <-.
    unfold neuron_made. simpl. split; [done|]. split.
    + intros Hin. by eapply class_index_Some.
    + exists spk. split; [done|].
      destruct spk.
      * apply bind_inr in Hoff as (x & e9 & e10 & _ & Hoff & ->).
        destruct (idx_start_spike c !! i); [|done]. by injection Hoff as <- <-.
      * apply bind_inr in Hoff as (x & e9 & e10 & _ & Hoff & ->).
        destruct (idx_start_gpot c !! i); [|done]. by injection Hoff as <- <-.
  - apply bind_inr in H as (u & e1 & e2 & _ & H & ->).
    injection H as <- <- <-. by apply class_index_None.
Qed.

Lemma instantiate_synapse_made c m i t s o m' evs :
  instantiate_synapse c m i t s = inr ((o, m'), evs) →
  synapse_made c (i, (t, s)) o.
Proof.
  unfold instantiate_synapse. intros H.
  destruct (class_index synapse_names t) as [ind|] eqn:Hc.
  - apply bind_inr in H as (k & e3 & e4 & Hk & H & ->).
    apply bind_inr in H as (off & e5 & e6 & Hoff & H & ->).
    injection H as <- <- <-.
    destruct (Python.getitem (seq 0 (length synapse_names)) ind) as [k'|] eqn:Hg; [|done].
    injection Hk as -> <-.
    destruct (idx_start_synapse c !! i) as [off'|] eqn:Ho; [|done].
    injection Hoff as <- <-.
    unfold synapse_made. simpl. split; [done|]. split; [|done].
    intros Hin. by eapply class_index_Some.
  - apply bind_inr in H as (u & e1 & e2 & _ & H & ->).
    injection H as <- <- <-. by apply class_index_None.
Qed.

Lemma make_neurons_made c nl : ∀ i m ns m' evs,
  make_neurons c i nl m = inr ((ns, m'), evs) →
  Forall2 (neuron_made c)
    (filter (λ e : nat * (string * n_model),
               e.2.1 ≠ GraphCompiler.PORT_IN_GPOT ∧ e.2.1 ≠ GraphCompiler.PORT_IN_SPK)
            (enumerate i nl)) ns.
Proof.
  induction nl as [|[t n] nl IH]; intros i m ns m' evs H.
  - injection H as <- <- <-. constructor.
  - cbn [make_neurons] in H. unfold enumerate in *. cbn [length seq zip zip_with].
    rewrite filter_cons. cbn [fst snd].
    destruct (decide (t ≠ GraphCompiler.PORT_IN_GPOT ∧ t ≠ GraphCompiler.PORT_IN_SPK))
      as [Hp|Hp].
    + rewrite bool_decide_eq_true_2 in H by done.
      apply bind_inr in H as ([o m1] & e1 & e2 & Ho & H & ->).
      apply bind_inr in H as ([rest m2] & e3 & e4 & Hrest & H & ->).
      injection H as <- <- <-. simpl.
      constructor; [by eapply instantiate_neuron_made|by eapply IH].
    + rewrite bool_decide_eq_false_2 in H by done. by eapply IH.
Qed.

Lemma make_synapses_made c sl : ∀ i m ss m' evs,
  make_synapses c i sl m = inr ((ss, m'), evs) →
  Forall2 (synapse_made c)
    (filter (λ e : nat * (string * s_resolved), e.2.1 ≠ "pass"%string)
            (enumerate i sl)) ss.
Proof.
  induction sl as [|[t s] sl IH]; intros i m ss m' evs H.
  - injection H as <- <- <-. constructor.
  - cbn [make_synapses] in H. unfold enumerate in *. cbn [length seq zip zip_with].
    rewrite filter_cons. cbn [fst snd].
    destruct (decide (t ≠ "pass"%string)) as [Hp|Hp].
    + rewrite bool_decide_eq_true_2 in H by done.
      apply bind_inr in H as ([o m1] & e1 & e2 & Ho & H & ->).
      apply bind_inr in H as ([rest m2] & e3 & e4 & Hrest & H & ->).
      injection H as <- <- <-. simpl.
      constructor; [by eapply instantiate_synapse_made|by eapply IH].
    + rewrite bool_decide_eq_false_2 in H by done. by eapply IH.
Qed.

(** X20: after [pre_run], [self.neurons] holds one entry for each neuron
    model other than the two input-port models, in the order of the
    table, and [self.synapses] one for each synapse model other than
    ['pass'].  An entry is an instance that carries the model's
    parameters and the state offset [idx_start_*[i]] of the model's place
    [i] in the whole table (skipped models count), made from the
    registered class of the model's name when there is one; or it is
    [None], when the name is neither registered nor an integer.  The unit
    starts with [first_step] set. *)
Theorem pre_run_instantiates_each_model (c : config) (pg ps : gpuarray) (u : lpu)
    (evs : list event) :
  pre_run c pg ps = inr (u, evs) →
  cfg u = c ∧ first_step u = true ∧
  Forall2 (neuron_made c)
    (filter (λ e : nat * (string * n_model),
               e.2.1 ≠ GraphCompiler.PORT_IN_GPOT ∧ e.2.1 ≠ GraphCompiler.PORT_IN_SPK)
            (enumerate 0 (n_list_of c))) (neurons u) ∧
  Forall2 (synapse_made c)
    (filter (λ e : nat * (string * s_resolved), e.2.1 ≠ "pass"%string)
            (enumerate 0 (s_list_of c))) (synapses u).
Proof.
  unfold pre_run. intros H.
  apply bind_inr in H as ([ns m1] & e1 & e2 & Hns & H & ->).
  apply bind_inr in H as ([ss m2] & e3 & e4 & Hss & H & ->).
  apply bind_inr in H as (f & e5 & e6 & _ & H & ->).
  injection H as <- <-. simpl.
  split; [done|]. split; [done|]. split.
  - by eapply make_neurons_made.
  - by eapply make_synapses_made.
Qed.
End WithPlugins.


Lemma pre_run_instantiates_each_model_witness :
  ∃ u evs,
    Examples.primed Scenarios.mixed Examples.no_ports
      Examples.no_gpot_data Examples.no_spike_data = inr (u, evs) ∧
    first_step u = true ∧
    Forall2 (neuron_made (P := Examples.plugins) (cfg u))
      [(0%nat, ("MorrisLecar"%string, default (Build_n_model [] [] [] [] [])
                                         (snd <$> Scenarios.mixed !! 0%nat)));
       (1%nat, ("LeakyIAF"%string, default (Build_n_model [] [] [] [] [])
                                      (snd <$> Scenarios.mixed !! 1%nat)))]
      (neurons u).
Proof.
  destruct (Examples.primed Scenarios.mixed Examples.no_ports
              Examples.no_gpot_data Examples.no_spike_data) as [e|[u evs]] eqn:Hu;
    [vm_compute in Hu; discriminate Hu|].
  exists u, evs. split; [reflexivity|].
  unfold Examples.primed in Hu.
  destruct (LPU.init Numpy.argsort_stable (1 # 10000) Scenarios.mixed [] None false false
              Examples.no_ports) as [c|] eqn:Hc; [|discriminate Hu].
  destruct (pre_run_instantiates_each_model (P := Examples.plugins) c
              Examples.no_gpot_data Examples.no_spike_data u evs Hu)
    as (Hcfg & Hf & Hn & _).
  split; [exact Hf|]. rewrite Hcfg.
  vm_compute in Hc. injection Hc as <-. exact Hn.
Defined.

End InstanceFacts.

(** ** Port data in and out *)

Module PortFacts.
Import Runtime IndexSpace Synapses Gateway LPU RuntimeFacts LPUFacts GatewayMore.


(** One gathering call, taken apart. *)
Lemma set_inds_window src dest inds sh r evs :
  set_inds src dest inds sh = inr (r, evs) →
  dtype_of src = dtype_of dest ∧ dtype_of r = dtype_of dest ∧
  length (data r) = length (data dest) ∧
  (∀ i j x, inds !! i = Some j → data src !! j = Some x →
     (sh + i < length (data dest))%nat → data r !! (sh + i)%nat = Some x) ∧
  (∀ p, (p < sh ∨ sh + length inds ≤ p)%nat → data r !! p = data dest !! p).
Proof.
  unfold set_inds. destruct (decide _) as [Hdt|]; [|discriminate].
  intros H. apply bind_inr in H as (u & e1 & e2 & _ & H & ->).
  injection H as <- <-. simpl.
  split; [done|]. split; [done|]. split; [apply gather_from_length|]. split.
  - intros i j x Hi Hj Hlt.
    replace (sh + i)%nat with (0 + i + sh)%nat by lia.
    eapply gather_from_inside; [done|done|lia].
  - intros p Hp. apply gather_from_outside. lia.
Qed.

(** X21: [_read_LPU_input] copies the port data into the state window of
    the input-port models and nowhere else: with [k] the place of the
    model [port_in_gpot] in the table, [V[idx_start_gpot[k] + i]] becomes
    [pm['gpot'].data[sel_in_gpot_ids[i]]] and every element of [V]
    outside that window stays; the same for [port_in_spk] and
    [spike_state]; without the model the array is not touched, and
    [synapse_state] never is. *)
Theorem read_LPU_input_fills_port_window (c : config) (pg ps : gpuarray)
    (m m' : memory) (evs : list event) :
  read_LPU_input c pg ps m = inr (m', evs) →
  synapse_state m' = synapse_state m ∧
  match ports_in_gpot_mem_ind c with
  | None => V m' = V m
  | Some k => ∃ v v' sh,
      V m = Some v ∧ V m' = Some v' ∧ idx_start_gpot c !! k = Some sh ∧
      length (data v') = length (data v) ∧
      (∀ i j x, sel_in_gpot_ids (ports c) !! i = Some j → data pg !! j = Some x →
         (sh + i < length (data v))%nat → data v' !! (sh + i)%nat = Some x) ∧
      (∀ p, (p < sh ∨ sh + length (sel_in_gpot_ids (ports c)) ≤ p)%nat →
         data v' !! p = data v !! p)
  end ∧
  match ports_in_spk_mem_ind c with
  | None => spike_state m' = spike_state m
  | Some k => ∃ v v' sh,
      spike_state m = Some v ∧ spike_state m' = Some v' ∧
      idx_start_spike c !! k = Some sh ∧
      length (data v') = length (data v) ∧
      (∀ i j x, sel_in_spk_ids (ports c) !! i = Some j → data ps !! j = Some x →
         (sh + i < length (data v))%nat → data v' !! (sh + i)%nat = Some x) ∧
      (∀ p, (p < sh ∨ sh + length (sel_in_spk_ids (ports c)) ≤ p)%nat →
         data v' !! p = data v !! p)
  end.
Proof.
  unfold read_LPU_input. intros H.
  apply bind_inr in H as (m1 & e1 & e2 & H1 & H2 & ->).
  assert (synapse_state m1 = synapse_state m ∧ spike_state m1 = spike_state m ∧
          match ports_in_gpot_mem_ind c with
          | None => V m1 = V m
          | Some k => ∃ v v' sh,
              V m = Some v ∧ V m1 = Some v' ∧ idx_start_gpot c !! k = Some sh ∧
              length (data v') = length (data v) ∧
              (∀ i j x, sel_in_gpot_ids (ports c) !! i = Some j → data pg !! j = Some x →
                 (sh + i < length (data v))%nat → data v' !! (sh + i)%nat = Some x) ∧
              (∀ p, (p < sh ∨ sh + length (sel_in_gpot_ids (ports c)) ≤ p)%nat →
                 data v' !! p = data v !! p)
          end) as (Hs1 & Hk1 & Hg).
  { destruct (ports_in_gpot_mem_ind c) as [k|].
    - apply bind_inr in H1 as (v & e3 & e4 & Hv & H1 & ->).
      apply bind_inr in H1 as (sh & e5 & e6 & Hsh & H1 & ->).
      apply bind_inr in H1 as (v' & e7 & e8 & Hset & H1 & ->).
      injection H1 as <- <-.
      apply attr_inr in Hv as [Hv _]. apply item_inr in Hsh as [Hsh _].
      apply set_inds_window in Hset as (_ & _ & Hlen & Hin & Hout).
      split; [done|]. split; [done|]. exists v, v', sh. done.
    - injection H1 as <- <-. done. }
  assert (V m' = V m1 ∧ synapse_state m' = synapse_state m1 ∧
          match ports_in_spk_mem_ind c with
          | None => spike_state m' = spike_state m1
          | Some k => ∃ v v' sh,
              spike_state m1 = Some v ∧ spike_state m' = Some v' ∧
              idx_start_spike c !! k = Some sh ∧
              length (data v') = length (data v) ∧
              (∀ i j x, sel_in_spk_ids (ports c) !! i = Some j → data ps !! j = Some x →
                 (sh + i < length (data v))%nat → data v' !! (sh + i)%nat = Some x) ∧
              (∀ p, (p < sh ∨ sh + length (sel_in_spk_ids (ports c)) ≤ p)%nat →
                 data v' !! p = data v !! p)
          end) as (Hv2 & Hs2 & Hsp).
  { destruct (ports_in_spk_mem_ind c) as [k|].
    - apply bind_inr in H2 as (v & e3 & e4 & Hv & H2 & ->).
      apply bind_inr in H2 as (sh & e5 & e6 & Hsh & H2 & ->).
      apply bind_inr in H2 as (v' & e7 & e8 & Hset & H2 & ->).
      injection H2 as <- <-.
      apply attr_inr in Hv as [Hv _]. apply item_inr in Hsh as [Hsh _].
      apply set_inds_window in Hset as (_ & _ & Hlen & Hin & Hout).
      split; [done|]. split; [done|]. exists v, v', sh. done.
    - injection H2 as <- <-. done. }
  split; [by rewrite Hs2|]. split.
  - destruct (ports_in_gpot_mem_ind c); rewrite Hv2; done.
  - destruct (ports_in_spk_mem_ind c); rewrite <- Hk1; done.
Qed.




Lemma read_LPU_input_fills_port_window_witness :
  ∃ c m' v',
    LPU.init Numpy.argsort_stable (1 # 10000) Examples.in_port [] None false false
      Examples.in_port_inds = Some c ∧
    read_LPU_input c (Scenarios.doubles [5%Q]) Examples.no_spike_data
      (initialize_gpu_ds c) = inr (m', [KernelSetInds 1]) ∧
    V m' = Some v' ∧ data v' !! 0%nat = Some 5%Q.
Proof.
  destruct (LPU.init Numpy.argsort_stable (1 # 10000) Examples.in_port [] None false
              false Examples.in_port_inds) as [c|] eqn:Hc;
    [|vm_compute in Hc; discriminate Hc].
  destruct (read_LPU_input c (Scenarios.doubles [5%Q]) Examples.no_spike_data
              (initialize_gpu_ds c)) as [e|[m' evs]] eqn:Hr.
  { vm_compute in Hc. injection Hc as <-. vm_compute in Hr. discriminate Hr. }
  destruct (read_LPU_input_fills_port_window c _ _ _ m' evs Hr) as (_ & Hg & _).
  assert (ports_in_gpot_mem_ind c = Some 0%nat) as Hk.
  { vm_compute in Hc. injection Hc as <-. reflexivity. }
  rewrite Hk in Hg. destruct Hg as (v & v' & sh & Hv & Hv' & Hsh & Hlen & Hin & _).
  assert (sh = 0%nat ∧ length (data v) = 1%nat) as [-> Hl].
  { vm_compute in Hc. injection Hc as <-. vm_compute in Hsh, Hv.
    injection Hv as <-. injection Hsh as <-. done. }
  exists c, m', v'. split; [reflexivity|]. split.
  - vm_compute in Hc. injection Hc as <-. vm_compute in Hr.
    injection Hr as <- <-. vm_compute. reflexivity.
  - split; [exact Hv'|].
    apply (Hin 0%nat 0%nat 5%Q).
    + vm_compute in Hc. injection Hc as <-. reflexivity.
    + reflexivity.
    + lia.
Defined.


End PortFacts.

(** ** State slots of the synapses *)

Module SlotFacts.
Import Numpy IndexSpace Synapses ArgsortFacts CompileFacts DelayFacts Layout.

Lemma one_flag (l : list bool) :
  (∀ b b', b ∈ l → b' ∈ l → b = b') → ∃ b, l = replicate (length l) b.
Proof.
  intros H. destruct l as [|b l]; [by exists true|].
  exists b. symmetry. apply replicate_as_Forall. split; [done|].
  apply Forall_forall. intros x Hx. apply H; [by left|done].
Qed.

Lemma where_from_replicate_true n : ∀ i, where_from i (replicate n true) = seq i n.
Proof. induction n as [|n IH]; intros i; simpl; [done|]. by rewrite IH. Qed.

Lemma where_from_replicate_false n : ∀ i, where_from i (replicate n false) = [].
Proof. induction n as [|n IH]; intros i; simpl; [done|]. by rewrite IH. Qed.

(** What one model of a single kind adds to the accumulators. *)
Lemma accumulate_one_kind (a a1 a2 : acc) (r : s_resolved) (b : bool) :
  r_conductance r = replicate (length (r_post r)) b →
  accumulate_cond a r = Some a1 → accumulate_I a1 r = Some a2 →
  count a2 = (count a + length (r_post r))%nat ∧
  cond_pre a2 ++ I_pre a2 ≡ₚ (cond_pre a ++ I_pre a) ++ seq (count a) (length (r_post r)) ∧
  (length (cond_post a) = length (cond_pre a) → length (cond_post a2) = length (cond_pre a2)) ∧
  (length (I_post a) = length (I_pre a) → length (I_post a2) = length (I_pre a2)).
Proof.
  intros Hflags H1 H2. set (n := length (r_post r)) in *.
  unfold accumulate_cond in H1. unfold accumulate_I in H2.
  rewrite Hflags in H1, H2. unfold np_where in H1, H2.
  rewrite fmap_replicate in H2.
  destruct b; simpl negb in H2.
  - rewrite where_from_replicate_false in H2. simpl in H2. injection H2 as <-.
    rewrite where_from_replicate_true, length_seq in H1.
    destruct (decide (0 < n)%nat) as [Hn|Hn].
    + apply bind_Some in H1 as (p & Hp & H1).
      apply bind_Some in H1 as (rv & Hrv & H1).
      apply bind_Some in H1 as (rr & Hrr & H1).
      apply bind_Some in H1 as (g & Hg & H1).
      injection H1 as <-. simpl. unfold range.
      apply reindex_length in Hp. rewrite length_seq in Hp.
      split; [done|]. split; [|split; [|done]].
      * rewrite <- !(assoc_L (++)). f_equiv. apply Permutation_app_comm.
      * intros Hl. rewrite !length_app, length_seq, Hl, Hp. done.
    + injection H1 as <-. assert (n = 0%nat) as -> by lia. simpl.
      split; [lia|]. by rewrite app_nil_r.
  - rewrite where_from_replicate_false in H1. simpl in H1. injection H1 as <-.
    rewrite where_from_replicate_true, length_seq in H2.
    destruct (decide (0 < n)%nat) as [Hn|Hn].
    + apply bind_Some in H2 as (p & Hp & H2).
      apply bind_Some in H2 as (sd & Hsd & H2).
      injection H2 as <-. simpl. unfold range.
      apply reindex_length in Hp. rewrite length_seq in Hp. rewrite Hp.
      split; [done|]. split; [|split; [done|]].
      * by rewrite <- !(assoc_L (++)).
      * intros Hl. rewrite !length_app, length_seq, Hl, Hp. done.
    + injection H2 as <-. assert (n = 0%nat) as -> by lia. simpl.
      split; [lia|]. by rewrite app_nil_r.
Qed.

Lemma loop_slots argsort sp nmax (sl : s_list) :
  (∀ l, is_argsort l (argsort l)) →
  Forall (λ e : string * s_model, s_columns_ok e.2 ∧ one_kind e.2) sl →
  ∀ st st',
    loop argsort sp nmax sl st = Some st' →
    count st'.2 = (count st.2 + total_synapses sl)%nat ∧
    cond_pre st'.2 ++ I_pre st'.2 ≡ₚ
      (cond_pre st.2 ++ I_pre st.2) ++ seq (count st.2) (total_synapses sl) ∧
    (length (cond_post st.2) = length (cond_pre st.2) →
     length (cond_post st'.2) = length (cond_pre st'.2)) ∧
    (length (I_post st.2) = length (I_pre st.2) →
     length (I_post st'.2) = length (I_pre st'.2)).
Proof.
  intros Harg. induction 1 as [|e sl [Hok [Hone Hids]] _ IH]; intros st st' H.
  - simpl in H. injection H as <-. unfold total_synapses, num_synapses. simpl.
    split; [lia|]. by rewrite app_nil_r.
  - simpl in H. apply bind_Some in H as (st1 & Hb & H).
    unfold loop_body in Hb.
    apply bind_Some in Hb as (r & Hr & Hb).
    apply bind_Some in Hb as (a1 & Ha1 & Hb).
    apply bind_Some in Hb as (a2 & Ha2 & [= <-]).
    apply resolve_model_inv in Hr as (pre' & post' & Hc & Ho).
    destruct (resolved_columns_length _ _ _ _ _ Hc) as [Hlen _].
    destruct (Harg post') as [Hperm _].
    destruct (reordered_rows _ _ _ _ _ Ho Hperm Hlen Hok) as (Hlc & Hcp & _).
    assert (length (r_post r) = length (post e.2)) as Hlr.
    { destruct Ho as (_ & _ & _ & Hp & _). apply reindex_length in Hp.
      rewrite Hp, (Permutation_length Hperm), length_seq. done. }
    destruct (one_flag _ Hone) as [b Hb].
    assert (r_conductance r = replicate (length (r_post r)) b) as Hflags.
    { rewrite Hlr. destruct Hok as [Hcl _]. rewrite <- Hcl.
      symmetry. apply replicate_Permutation. by rewrite <- Hb. }
    destruct (accumulate_one_kind _ _ _ _ _ Hflags Ha1 Ha2) as (Hcount & Hpre & Hlc1 & Hli1).
    destruct (IH _ _ H) as (IHc & IHp & IHlc & IHli). simpl in IHc, IHp, IHlc, IHli.
    unfold total_synapses, num_synapses in *. csimpl.
    rewrite Hids, <- Hlr.
    split; [lia|]. split; [|split; auto].
    rewrite IHp, Hpre, Hcount. rewrite <- !(assoc_L (++)). do 2 f_equiv.
    by rewrite seq_app.
Qed.

(** X23: when every synapse model is of one kind (all its synapses
    conductance-based, or none), the loop of the constructor gives every
    synapse a state slot of its own: the counter ends at
    [total_synapses], the slots in [cond_pre] and [I_pre] together are
    [0 .. total_synapses - 1], each once, and each slot list is as long
    as its target list. *)
Theorem every_synapse_gets_its_own_slot (argsort : list Z → list nat)
    (sp : index_space) (nmax : Z) (sl : s_list)
    (rs : list (string * s_resolved)) (a : acc) :
  (∀ l, is_argsort l (argsort l)) →
  Forall (λ e : string * s_model, s_columns_ok e.2 ∧ one_kind e.2) sl →
  compile_synapses argsort sp nmax sl = Some (rs, a) →
  count a = total_synapses sl ∧
  cond_pre a ++ I_pre a ≡ₚ seq 0 (total_synapses sl) ∧
  NoDup (cond_pre a ++ I_pre a) ∧
  length (cond_post a) = length (cond_pre a) ∧
  length (I_post a) = length (I_pre a).
Proof.
  intros Harg Hsl H. unfold compile_synapses in H.
  destruct (loop_slots argsort sp nmax sl Harg Hsl _ _ H) as (Hc & Hp & Hlc & Hli).
  simpl in *. split; [done|]. split; [done|]. split; [|auto].
  rewrite Hp. apply NoDup_seq.
Qed.

(** A model that mixes the two kinds breaks this: one conductance-based
    and one current-based synapse take the slots 0 and 1, but the counter
    moves on to 3. *)
Lemma mixed_model_overshoots :
  ∃ rs a,
    compile_synapses argsort_stable Examples.pair_space 2
      [("AlphaSynapse"%string,
        {| s_ids := [0; 1]; class := [0; 0]; pre := [0; 0];
           post := [PostNeuron 1; PostNeuron 1];
           conductance := [true; false]; reverse := Some [0%Q; 0%Q];
           delay := None |})] = Some (rs, a) ∧
    cond_pre a = [0%nat] ∧ I_pre a = [1%nat] ∧ count a = 3%nat.
Proof. eexists _, _. split; [vm_compute; reflexivity|]. done. Qed.


Lemma every_synapse_gets_its_own_slot_witness :
  ∃ rs a,
    compile_synapses argsort_stable Examples.pair_space 2
      [("AlphaSynapse"%string, Examples.onto_synapse)] = Some (rs, a) ∧
    count a = 2%nat ∧ cond_pre a ++ I_pre a ≡ₚ [0%nat; 1%nat].
Proof.
  destruct (compile_synapses argsort_stable Examples.pair_space 2
              [("AlphaSynapse"%string, Examples.onto_synapse)]) as [[rs a]|] eqn:Hc;
    [|vm_compute in Hc; discriminate Hc].
  exists rs, a. split; [reflexivity|].
  destruct (every_synapse_gets_its_own_slot argsort_stable Examples.pair_space 2
              [("AlphaSynapse"%string, Examples.onto_synapse)] rs a)
    as (Hn & Hp & _).
  - apply argsort_stable_spec.
  - repeat constructor; simpl.
    intros b b' Hb Hb'.
    repeat (apply elem_of_cons in Hb as [->|Hb]);
    repeat (apply elem_of_cons in Hb' as [->|Hb']);
    try reflexivity; try (by apply elem_of_nil in Hb); by apply elem_of_nil in Hb'.
  - exact Hc.
  - split; [exact Hn|exact Hp].
Defined.

End SlotFacts.
